(** * A shallow embedding of [solver.py] (Wordle solving utilities)

    Python strings are [string]s, iterated as lists of [ascii]; Python
    exceptions are values of an error monad; [Counter]s and [set]s are
    stdpp's [gmap] and [gset]; insertion-ordered [dict]s whose iteration
    order is observed are association lists; Python's [float] is IEEE 754
    binary64 as specified by [SpecFloat]; the [while True] loop is run
    with fuel. *)

From Stdlib Require Import ZArith QArith Lia Ascii String List.
From Stdlib.Floats Require Import SpecFloat.
From stdpp Require Import base list gmap strings.

Local Open Scope string_scope.
Local Open Scope list_scope.

(** ** Exceptions *)

Inductive exn := IndexError | ValueError | ZeroDivisionError | OverflowError.

Inductive result (A : Type) :=
| Ok (a : A)
| Raise (e : exn).
Arguments Ok {A} a.
Arguments Raise {A} e.

Global Instance exn_eq_dec : EqDecision exn.
Proof. solve_decision. Defined.
Global Instance result_eq_dec {A} `{EqDecision A} : EqDecision (result A).
Proof. solve_decision. Defined.

(** Exceptions propagate through stdpp's monad notation [x ← r; k]. *)
Global Instance result_ret : MRet result := @Ok.
Global Instance result_bind : MBind result := λ A B k r,
  match r with
  | Ok a => k a
  | Raise e => Raise e
  end.

(** ** Strings and lists as Python has them *)

Definition chars (s : string) : list ascii := list_ascii_of_string s.

(** [l[i]]: IndexError outside the list. *)
Definition list_get {A} (l : list A) (i : nat) : result A :=
  match l !! i with
  | Some x => Ok x
  | None => Raise IndexError
  end.

(** [l[i] = x]: IndexError outside the list. *)
Definition list_set {A} (l : list A) (i : nat) (x : A) : result (list A) :=
  if decide (i < length l) then Ok (<[i:=x]> l) else Raise IndexError.

(** [l.index(x)]: the first position holding [x], ValueError when absent. *)
Fixpoint list_index {A} `{EqDecision A} (l : list A) (x : A) : result nat :=
  match l with
  | [] => Raise ValueError
  | y :: l' => if decide (y = x) then Ok 0
               else i ← list_index l' x; Ok (S i)
  end.

(** [for i, x in enumerate(l): s = body(i, x, s)], counting from [i]. *)
Fixpoint for_enumerate {A St} (body : nat -> A -> St -> result St)
    (i : nat) (l : list A) (s : St) : result St :=
  match l with
  | [] => Ok s
  | x :: l' => s' ← body i x s; for_enumerate body (S i) l' s'
  end.

(** [for x in l: s = body(x, s)]. *)
Fixpoint for_each {A St} (body : A -> St -> result St)
    (l : list A) (s : St) : result St :=
  match l with
  | [] => Ok s
  | x :: l' => s' ← body x s; for_each body l' s'
  end.

(** A Word of the game: exactly five characters. *)
Definition five_letter (w : string) : Prop := String.length w = 5.

(** ** [_feedback] *)

(** The two mutable buffers of [_feedback]: [feedback] and
    [answer_remaining] (where [None] marks a used letter). *)
Definition fb_state : Type := list ascii * list (option ascii).

(** Body of the first pass, for greens. *)
Definition green_step (answer : string) (i : nat) (g_char : ascii)
    (st : fb_state) : result fb_state :=
  let '(feedback, answer_remaining) := st in
  a_char ← list_get (chars answer) i;
  if decide (g_char = a_char) then
    feedback' ← list_set feedback i "G"%char;
    answer_remaining' ← list_set answer_remaining i None;
    Ok (feedback', answer_remaining')
  else Ok st.

(** Body of the second pass, for yellows. *)
Definition yellow_step (i : nat) (g_char : ascii)
    (st : fb_state) : result fb_state :=
  let '(feedback, answer_remaining) := st in
  f ← list_get feedback i;
  if bool_decide (f = "B"%char) && bool_decide (Some g_char ∈ answer_remaining) then
    feedback' ← list_set feedback i "Y"%char;
    j ← list_index answer_remaining (Some g_char);
    answer_remaining' ← list_set answer_remaining j None;
    Ok (feedback', answer_remaining')
  else Ok st.

Definition _feedback (guess answer : string) : result string :=
  let feedback := replicate 5 "B"%char in
  let answer_remaining := Some <$> chars answer in
  st1 ← for_enumerate (green_step answer) 0 (chars guess)
          (feedback, answer_remaining);
  st2 ← for_enumerate yellow_step 0 (chars guess) st1;
  Ok (string_of_list_ascii (fst st2)).

(** ** Python numbers *)

(** A Python [float] is an IEEE 754 binary64 number. *)
Definition float : Type := spec_float.
Definition prec : Z := 53.
Definition emax : Z := 1024.

Definition fadd : float -> float -> float := SFadd prec emax.
Definition fsub : float -> float -> float := SFsub prec emax.
Definition fmul : float -> float -> float := SFmul prec emax.
(** [x > y] on floats; false as soon as one side is NaN. *)
Definition fgt (x y : float) : bool := SFltb y x.
(** The literals [0.0] and [0.5]. *)
Definition f_zero : float := S754_zero false.
Definition f_half : float := S754_finite false 4503599627370496 (-53).

(** An [int] seen as an exact, unrounded binary number. *)
Definition int_exact (z : Z) : spec_float :=
  match z with
  | Z0 => S754_zero false
  | Zpos p => S754_finite false p 0
  | Zneg p => S754_finite true p 0
  end.

(** The quotient of two ints as a float: the exact quotient rounded once,
    to nearest-even. *)
Definition ratio (a b : Z) : float :=
  SFdiv prec emax (int_exact a) (int_exact b).

(** [a / b] on ints: ZeroDivisionError for [b = 0], OverflowError when
    the quotient is too large for a float. *)
Definition int_truediv (a b : Z) : result float :=
  if decide (b = 0%Z) then Raise ZeroDivisionError
  else match ratio a b with
       | S754_infinity _ => Raise OverflowError
       | q => Ok q
       end.

(** [math.log2]: ValueError outside the positive numbers; on them the
    value is that of the platform's [log2], a parameter here. *)
Definition math_log2 (log2 : float -> float) (p : float) : result float :=
  if SFleb p f_zero then Raise ValueError else Ok (log2 p).

(** ** Counters and dicts *)

(** [collections.Counter] over letters: a missing letter counts 0. *)
Definition counter_get (c : gmap ascii Z) (ch : ascii) : Z :=
  default 0%Z (c !! ch).
(** [c[ch] += 1]. *)
Definition counter_incr (ch : ascii) (c : gmap ascii Z) : gmap ascii Z :=
  <[ch := (counter_get c ch + 1)%Z]> c.
(** [c.update(letters)] for a set of letters: each one counted once. *)
Definition counter_update (letters : gset ascii) (c : gmap ascii Z)
    : gmap ascii Z :=
  set_fold counter_incr c letters.

(** A [dict] whose iteration order is observed: keys in insertion order;
    assigning to a key already present keeps its place. *)
Fixpoint dict_set {K V} `{EqDecision K} (d : list (K * V)) (k : K) (v : V)
    : list (K * V) :=
  match d with
  | [] => [(k, v)]
  | (k', v') :: d' =>
      if decide (k' = k) then (k', v) :: d' else (k', v') :: dict_set d' k v
  end.

Fixpoint dict_get {K V} `{EqDecision K} (d : list (K * V)) (k : K)
    : option V :=
  match d with
  | [] => None
  | (k', v') :: d' => if decide (k' = k) then Some v' else dict_get d' k
  end.

(** [max(d, key=d.get)]: ValueError on an empty dict; otherwise the keys
    are visited in order and the running best is replaced only by a key
    whose value is strictly greater. *)
Definition max_step {K} (best kv : K * float) : K * float :=
  if fgt (snd kv) (snd best) then kv else best.

Definition max_by_value {K} (d : list (K * float)) : result K :=
  match d with
  | [] => Raise ValueError
  | kv :: d' => Ok (fst (fold_left max_step d' kv))
  end.

(** ** [select_initial_word] *)

(** Body of the first loop: count the letters of one word. *)
Definition count_word (word : string)
    (st : list (gmap ascii Z) * gmap ascii Z)
    : result (list (gmap ascii Z) * gmap ascii Z) :=
  let '(position_counts, overall_counts) := st in
  position_counts' ←
    for_enumerate
      (fun i ch pcs => c ← list_get pcs i; list_set pcs i (counter_incr ch c))
      0 (chars word) position_counts;
  Ok (position_counts',
      counter_update (list_to_set (chars word)) overall_counts).

(** Body of the scoring loop over the letters of one word. *)
Definition score_step (position_counts : list (gmap ascii Z))
    (overall_counts : gmap ascii Z) (total_candidates : Z)
    (i : nat) (ch : ascii) (st : float * gset ascii)
    : result (float * gset ascii) :=
  let '(score, used_letters) := st in
  pc ← list_get position_counts i;
  freq_pos ← int_truediv (counter_get pc ch) total_candidates;
  let score := fadd score freq_pos in
  if bool_decide (ch ∉ used_letters) then
    elsewhere ← int_truediv (counter_get overall_counts ch - counter_get pc ch)
                            total_candidates;
    Ok (fadd score (fmul f_half elsewhere), {[ch]} ∪ used_letters)
  else Ok (score, used_letters).

Definition word_score (position_counts : list (gmap ascii Z))
    (overall_counts : gmap ascii Z) (total_candidates : Z) (word : string)
    : result float :=
  st ← for_enumerate (score_step position_counts overall_counts total_candidates)
         0 (chars word) (f_zero, ∅);
  Ok (fst st).

Definition select_initial_word (candidates : list string) : result string :=
  counts ← for_each count_word candidates (replicate 5 ∅, ∅);
  let total_candidates := Z.of_nat (length candidates) in
  scores ←
    for_each
      (fun word scores =>
         score ← word_score (fst counts) (snd counts) total_candidates word;
         Ok (dict_set scores word score))
      candidates [];
  max_by_value scores.

(** ** State of [solve_wordle] *)

(** One line written by [print]: the four values its f-string formats,
    [len(attempts)], [guess], [feedback] and [len(remaining)]. *)
Record attempt_line := {
  line_number : nat;
  line_guess : string;
  line_feedback : string;
  line_remaining : nat
}.

(** The variables of the loop and the lines printed so far. *)
Record loop_state := {
  remaining : list string;
  attempts : list string;
  printed : list attempt_line
}.

(** [[w for w in remaining if _feedback(guess, w) == feedback]]. *)
Fixpoint filter_remaining (guess feedback : string) (remaining : list string)
    : result (list string) :=
  match remaining with
  | [] => Ok []
  | w :: rest =>
      fw ← _feedback guess w;
      rest' ← filter_remaining guess feedback rest;
      Ok (if decide (fw = feedback) then w :: rest' else rest')
  end.

(** ** [calculate_entropy] and [select_best_entropy_word] *)

Section Entropy.
(** The platform's [log2] on positive floats. *)
Variable log2 : float -> float.

Definition calculate_entropy (guess : string) (candidates : list string)
    : result float :=
  pattern_counts ←
    for_each
      (fun word pattern_counts =>
         pattern ← _feedback guess word;
         Ok (dict_set pattern_counts pattern
               (default 0%Z (dict_get pattern_counts pattern) + 1)%Z))
      candidates [];
  let total := Z.of_nat (length candidates) in
  for_each
    (fun count entropy =>
       p ← int_truediv count total;
       l ← math_log2 log2 p;
       Ok (fsub entropy (fmul p l)))
    (snd <$> pattern_counts) f_zero.

Definition select_best_entropy_word (candidates : list string)
    : result string :=
  entropies ←
    for_each
      (fun word entropies =>
         e ← calculate_entropy word candidates;
         Ok (dict_set entropies word e))
      candidates [];
  max_by_value entropies.

(** ** [solve_wordle] *)

(** One turn of the [while True] loop; the boolean tells whether the
    turn ends in [break]. *)
Definition loop_body (correct_word : string) (st : loop_state)
    : result (loop_state * bool) :=
  guess ← match attempts st with
          | [] => select_initial_word (remaining st)
          | _ => select_best_entropy_word (remaining st)
          end;
  let attempts' := attempts st ++ [guess] in
  feedback ← _feedback guess correct_word;
  remaining' ← filter_remaining guess feedback (remaining st);
  let line := {| line_number := length attempts';
                 line_guess := guess;
                 line_feedback := feedback;
                 line_remaining := length remaining' |} in
  let st' := {| remaining := remaining';
                attempts := attempts';
                printed := printed st ++ [line] |} in
  Ok (st', bool_decide (guess = correct_word)
           || bool_decide (remaining' = [])).

(** The loop, run for at most [fuel] turns: [None] when the fuel runs
    out before the loop ends. *)
Fixpoint while_true (fuel : nat) (correct_word : string) (st : loop_state)
    : option (result loop_state) :=
  match fuel with
  | O => None
  | S fuel' =>
      match loop_body correct_word st with
      | Raise e => Some (Raise e)
      | Ok (st', true) => Some (Ok st')
      | Ok (st', false) => while_true fuel' correct_word st'
      end
  end.

Definition initial_state (candidates : list string) : loop_state :=
  {| remaining := candidates; attempts := []; printed := [] |}.

(** The final state of the loop, printed lines included. *)
Definition run_wordle (fuel : nat) (candidates : list string)
    (correct_word : string) : option (result loop_state) :=
  while_true fuel correct_word (initial_state candidates).

Definition solve_wordle (fuel : nat) (candidates : list string)
    (correct_word : string) : option (result (list string)) :=
  match run_wordle fuel candidates correct_word with
  | None => None
  | Some (Ok st) => Some (Ok (attempts st))
  | Some (Raise e) => Some (Raise e)
  end.
End Entropy.

(** A reference [log2] for running examples: the logarithm of a positive
    finite float truncated to 60 fractional bits, then rounded. *)
Fixpoint log2_frac_bits (n : nat) (y : Z) (acc : Z) : Z :=
  match n with
  | O => acc
  | S n' =>
      let y2 := (y * y / 2 ^ 62)%Z in
      if (2 ^ 63 <=? y2)%Z then log2_frac_bits n' (y2 / 2)%Z (2 * acc + 1)%Z
      else log2_frac_bits n' y2 (2 * acc)%Z
  end.

Definition log2_trunc (x : float) : float :=
  match x with
  | S754_finite false m e =>
      let d := Z.pos (digits2_pos m) in
      let y := (if (d <=? 63)%Z then Z.shiftl (Z.pos m) (63 - d)
                else Z.shiftr (Z.pos m) (d - 63)) in
      binary_normalize prec emax
        ((e + d - 1) * 2 ^ 60 + log2_frac_bits 60 y 0)%Z (-60) false
  | S754_infinity false => x
  | S754_zero _ => S754_infinity true
  | _ => S754_nan
  end.

(** ** Notions used to state the properties *)

(** The largest length of a Python list ([sys.maxsize], [2^63 - 1]). *)
Definition list_fits (C : list string) : Prop :=
  (Z.of_nat (length C) < 9223372036854775808)%Z.

(** Floats that are neither NaN nor negative: the scores of the initial
    selector are of this kind, and [<] and [<=] order them totally. *)
Definition fok (x : float) : Prop :=
  match x with
  | S754_zero _ | S754_infinity false | S754_finite false _ _ => True
  | _ => False
  end.

(** [w] is the first word of [C] attaining the maximum of [score]. *)
Definition first_maximum (score : string -> float) (C : list string)
    (w : string) : Prop :=
  exists i, C !! i = Some w /\
    (forall w', w' ∈ C -> SFleb (score w') (score w) = true) /\
    (forall j w', j < i -> C !! j = Some w' -> SFltb (score w') (score w) = true).

(** The number of words of [C] with letter [ch] at position [i]. *)
Definition count_at (C : list string) (i : nat) (ch : ascii) : Z :=
  Z.of_nat (length (filter (fun w => chars w !! i = Some ch) C)).

(** The number of words of [C] containing letter [ch]. *)
Definition count_containing (C : list string) (ch : ascii) : Z :=
  Z.of_nat (length (filter (fun w => ch ∈ chars w) C)).

(** The score of the initial selector in binary64 arithmetic, written
    over the counts of the candidate list: scanning the word from
    position [i] on, with [seen] the letters already met, every position
    adds the rounded share of words with that letter there, and the first
    occurrence of a letter adds half the rounded share of words that have
    the letter but not there; every sum is rounded in its turn. *)
Fixpoint frequency_score_from (C : list string) (i : nat) (seen : list ascii)
    (letters : list ascii) (score : float) : float :=
  match letters with
  | [] => score
  | ch :: rest =>
      let n := Z.of_nat (length C) in
      let score1 := fadd score (ratio (count_at C i ch) n) in
      let score2 :=
        if bool_decide (ch ∈ seen) then score1
        else fadd score1
               (fmul f_half (ratio (count_containing C ch - count_at C i ch) n)) in
      frequency_score_from C (S i) (ch :: seen) rest score2
  end.

Definition frequency_score (C : list string) (w : string) : float :=
  frequency_score_from C 0 [] (chars w) f_zero.

(** The score of the initial selector as the specification defines it,
    a sum of exact quotients: every position adds (the number of words
    with that letter there) / |C|, and the first occurrence of a letter
    adds 0.5 * ((the number of words containing the letter - the number
    of words with it there) / |C|). *)
Fixpoint exact_score_from (C : list string) (i : nat) (seen : list ascii)
    (letters : list ascii) (score : Q) : Q :=
  match letters with
  | [] => score
  | ch :: rest =>
      let n := inject_Z (Z.of_nat (length C)) in
      let score1 := (score + inject_Z (count_at C i ch) / n)%Q in
      let score2 :=
        if bool_decide (ch ∈ seen) then score1
        else (score1
              + (1 # 2) * (inject_Z (count_containing C ch - count_at C i ch) / n))%Q in
      exact_score_from C (S i) (ch :: seen) rest score2
  end.

Definition exact_score (C : list string) (w : string) : Q :=
  exact_score_from C 0 [] (chars w) 0%Q.

(** [w] is the first word of [C] attaining the maximum of an exact score. *)
Definition first_maximum_exact (score : string -> Q) (C : list string)
    (w : string) : Prop :=
  exists i, C !! i = Some w /\
    (forall w', w' ∈ C -> (score w' <= score w)%Q) /\
    (forall j w', j < i -> C !! j = Some w' -> (score w' < score w)%Q).

(** [position_counts[i][ch]] read without its IndexError. *)
Definition pos_count (position_counts : list (gmap ascii Z)) (i : nat)
    (ch : ascii) : Z :=
  match position_counts !! i with
  | Some c => counter_get c ch
  | None => 0%Z
  end.

(** The dict built by assigning [val w] to each word [w] of [C] in turn. *)
Definition dict_of (val : string -> float) (C : list string)
    : list (string * float) :=
  fold_left (fun d w => dict_set d w (val w)) C [].

(** The entry that [max_by_value] settles on. *)
Definition max_entry {K} (d : list (K * float)) : option (K * float) :=
  match d with
  | [] => None
  | kv :: d' => Some (fold_left max_step d' kv)
  end.

(** The sum of a list of ints. *)
Definition Zsum (l : list Z) : Z := foldr Z.add 0%Z l.

(** One turn of the loop, whether or not it ends in [break]. *)
Definition loop_turn (log2 : float -> float) (correct_word : string)
    (st st' : loop_state) : Prop :=
  exists b, loop_body log2 correct_word st = Ok (st', b).

(** Each number of a list is at most the one before it. *)
Definition non_increasing (l : list nat) : Prop :=
  forall i x y, l !! i = Some x -> l !! (S i) = Some y -> y <= x.

(** What a run of the loop from state [st] to its final state [st'] adds:
    the guesses made and the lines printed, with the way they relate to
    the candidates and to the answer. *)
Definition loop_outcome (correct_word : string) (st st' : loop_state) : Prop :=
  exists new_attempts new_lines,
    attempts st' = attempts st ++ new_attempts /\
    printed st' = printed st ++ new_lines /\
    new_attempts <> [] /\
    length new_attempts <= length (remaining st) /\
    Forall (fun g => g ∈ remaining st) new_attempts /\
    line_guess <$> new_lines = new_attempts /\
    non_increasing (length (remaining st) :: (line_remaining <$> new_lines)) /\
    last (length (remaining st) :: (line_remaining <$> new_lines))
      = Some (length (remaining st')) /\
    (correct_word ∈ remaining st ->
     last new_attempts = Some correct_word /\ correct_word ∈ remaining st') /\
    (correct_word ∉ remaining st -> remaining st' = []).

(** ** [load_words] and the main program *)

(** [ch.isspace()] for a character below 256. *)
Definition is_space (c : ascii) : bool :=
  let n := nat_of_ascii c in
  ((9 <=? n)%nat && (n <=? 13)%nat) || ((28 <=? n)%nat && (n <=? 32)%nat)
  || (n =? 133)%nat || (n =? 160)%nat.

Fixpoint lstrip (l : list ascii) : list ascii :=
  match l with
  | c :: l' => if is_space c then lstrip l' else l
  | [] => []
  end.

(** [s.strip()]: leading and trailing whitespace removed. *)
Definition str_strip (s : string) : string :=
  string_of_list_ascii (reverse (lstrip (reverse (lstrip (chars s))))).

(** [load_words], given the lines that iterating over the opened file
    yields: [[w.strip() for w in f if len(w.strip()) == 5]]. *)
Definition load_words (lines : list string) : list string :=
  omap (fun w => if decide (String.length (str_strip w) = 5)
                 then Some (str_strip w) else None)
       lines.

(** [random.choice(seq)], given the index [r] that the generator draws
    below [len(seq)]: IndexError on an empty sequence. *)
Definition random_choice (r : nat) (seq : list string) : result string :=
  if decide (seq = []) then Raise IndexError else list_get seq r.

(** The main program: what it prints is the chosen answer and then the
    lines of [solve_wordle]. *)
Definition main (log2 : float -> float) (lines : list string) (r : nat)
    (fuel : nat) : option (result (string * list attempt_line)) :=
  let words := load_words lines in
  match random_choice r words with
  | Raise e => Some (Raise e)
  | Ok answer =>
      match run_wordle log2 fuel words answer with
      | None => None
      | Some (Raise e) => Some (Raise e)
      | Some (Ok st) => Some (Ok (answer, printed st))
      end
  end.

(** ** Further notions used to state the properties *)

(** The first pass of [_feedback] as a function on lists: the marks,
    starting from the marks [fs], and the answer letters left unclaimed
    ([None] where a letter was matched in place). *)
Fixpoint green_marks (gs as_ fs : list ascii) : list ascii :=
  match gs, as_, fs with
  | g :: gs', a :: as', f :: fs' =>
      (if bool_decide (g = a) then "G"%char else f) :: green_marks gs' as' fs'
  | _, _, _ => fs
  end.

Fixpoint green_rem (gs as_ : list ascii) : list (option ascii) :=
  match gs, as_ with
  | g :: gs', a :: as' =>
      (if bool_decide (g = a) then None else Some a) :: green_rem gs' as'
  | _, _ => Some <$> as_
  end.

Fixpoint remove_first (x : ascii) (l : list ascii) : list ascii :=
  match l with
  | [] => []
  | y :: l' => if bool_decide (y = x) then l' else y :: remove_first x l'
  end.

(** The second pass as a function on lists: [pool] holds the unclaimed
    letters of the answer. *)
Fixpoint yellow_marks (pool gs fs : list ascii) : list ascii :=
  match gs, fs with
  | g :: gs', f :: fs' =>
      if bool_decide (f = "B"%char) && bool_decide (g ∈ pool)
      then "Y"%char :: yellow_marks (remove_first g pool) gs' fs'
      else f :: yellow_marks pool gs' fs'
  | _, _ => fs
  end.

(** The feedback pattern as the composition of two pure passes. *)
Definition feedback_marks (gs as_ : list ascii) : list ascii :=
  yellow_marks (omap id (green_rem gs as_)) gs
    (green_marks gs as_ (replicate 5 "B"%char)).

(** How often [ch] occurs in a list of letters. *)
Definition occurrences (ch : ascii) (l : list ascii) : nat :=
  length (filter (fun x => x = ch) l).

(** The number of positions where the guess [gs] has [ch] and the mark
    in [fs] is not ['B']; [blank] counts those where it is ['B']. *)
Definition marked (ch : ascii) (gs fs : list ascii) : nat :=
  length (filter (fun p => fst p = ch /\ snd p <> "B"%char) (zip gs fs)).

Definition blank (ch : ascii) (gs fs : list ascii) : nat :=
  length (filter (fun p => fst p = ch /\ snd p = "B"%char) (zip gs fs)).

(** The literal [1.0]. *)
Definition f_one : float := S754_finite false 4503599627370496 (-52).

(** The entropy [select_best_entropy_word] stores for word [w]. *)
Definition entropy_of (log2 : float -> float) (C : list string) (w : string)
    : float :=
  match calculate_entropy log2 w C with
  | Ok e => e
  | Raise _ => f_zero
  end.

(** What stays true from turn to turn of the loop started on [C]: the
    candidates left are candidates of [C] in their order, each agrees
    with the answer on the feedback of every guess made, and the lines
    printed are numbered from 1 and show each guess with its feedback
    against the answer and the number of candidates left. *)
Definition transcript_ok (correct_word : string) (C : list string)
    (st : loop_state) : Prop :=
  remaining st `sublist_of` C /\
  (forall w g, w ∈ remaining st -> g ∈ attempts st ->
               _feedback g w = _feedback g correct_word) /\
  line_guess <$> printed st = attempts st /\
  line_number <$> printed st = seq 1 (length (attempts st)) /\
  Forall (fun l => _feedback (line_guess l) correct_word = Ok (line_feedback l))
         (printed st) /\
  last (length C :: (line_remaining <$> printed st)) = Some (length (remaining st)).

(** The state after the first turn on three candidates with answer
    ["PLATE"], used to try the invariants on. *)
Definition state_after_grate : loop_state :=
  {| remaining := ["PLATE"];
     attempts := ["GRATE"];
     printed := [ {| line_number := 1; line_guess := "GRATE";
                     line_feedback := "BBGGG"; line_remaining := 1 |} ] |}.

(** ** Notions used to state the properties of the entropy *)

(** The number of words of [C] for which [_feedback guess] gives [r]. *)
Definition pattern_count (guess : string) (C : list string)
    (r : result string) : Z :=
  Z.of_nat (length (filter (fun w => _feedback guess w = r) C)).

(** The probability [count / total] that [calculate_entropy] computes
    for the pattern of the word [w]. *)
Definition pattern_share (guess : string) (C : list string) (w : string)
    : float :=
  ratio (pattern_count guess C (_feedback guess w)) (Z.of_nat (length C)).

(** The float [-2^-53]. *)
Definition f_neg_tiny : float := S754_finite true 4503599627370496 (-105).

(** What the properties of the entropy ask of [log2] at a probability
    [p]: [log2(1.0) == 0.0], and [log2(p) <= -2^-53] for [p < 1.0]. The
    logarithm of the largest float below [1.0] is about [-1.44 * 2^-53],
    so that a [log2] that rounds to a neighbouring float and does not
    decrease anywhere meets both. *)
Definition log2_accurate_at (log2 : float -> float) (p : float) : Prop :=
  (p = f_one -> SFeqb (log2 p) f_zero = true) /\
  (SFltb p f_one = true -> SFleb (log2 p) f_neg_tiny = true).

(** A [log2] with the right signs and no more: the smallest negative
    float below [1.0]. *)
Definition log2_faint (p : float) : float :=
  if SFltb p f_one then S754_finite true 1 (-1074) else f_zero.

(** Positive and negative floats, zeros and NaN left out, the finite
    ones with an exponent that binary64 has. *)
Definition fpos (x : float) : Prop :=
  match x with
  | S754_finite false _ e => (-1074 <= e)%Z
  | S754_infinity false => True
  | _ => False
  end.

Definition fneg (x : float) : Prop :=
  match x with
  | S754_finite true _ e => (-1074 <= e)%Z
  | S754_infinity true => True
  | _ => False
  end.

(** * Properties *)

(** ** Running the model *)

(** No shared letter: all Absent. *)
Example feedback_disjoint : _feedback "ABCDE" "FGHIJ" = Ok "BBBBB".
Proof. vm_compute. reflexivity. Qed.
(** A repeated letter of the guess is marked as often as the answer has it. *)
Example feedback_repeated : _feedback "SPEED" "ABIDE" = Ok "BBYBY".
Proof. vm_compute. reflexivity. Qed.
Example feedback_short : _feedback "AB" "ABC" = Ok "GGBBB".
Proof. vm_compute. reflexivity. Qed.
Example feedback_long : _feedback "ABCDEF" "ABCDEF" = Raise IndexError.
Proof. vm_compute. reflexivity. Qed.
Example feedback_longer : _feedback "ABC" "AB" = Raise IndexError.
Proof. vm_compute. reflexivity. Qed.

(** [1 / 3] and [1 / 2] as Python computes them. *)
Example truediv_third :
  int_truediv 1 3 = Ok (S754_finite false 6004799503160661 (-54)).
Proof. vm_compute. reflexivity. Qed.
Example truediv_half : int_truediv 1 2 = Ok f_half.
Proof. vm_compute. reflexivity. Qed.
Example truediv_zero : int_truediv 1 0 = Raise ZeroDivisionError.
Proof. vm_compute. reflexivity. Qed.

(** Two candidates without a shared letter: guessing one of them splits
    the set in two, one bit of entropy ([1.0] is [2^52 * 2^-52]). *)
Example entropy_one_bit :
  calculate_entropy log2_trunc "ABCDE" ["ABCDE"; "FGHIJ"]
  = Ok (S754_finite false 4503599627370496 (-52)).
Proof. vm_compute. reflexivity. Qed.

Example select_initial_example :
  select_initial_word ["CRANE"; "SLATE"; "TRACE"; "CRATE"; "GRATE"; "PLATE"]
  = Ok "CRATE".
Proof. vm_compute. reflexivity. Qed.

(** Equal scores: the first word in input order wins. *)
Example select_initial_tie :
  select_initial_word ["ABCDE"; "FGHIJ"] = Ok "ABCDE" /\
  select_initial_word ["FGHIJ"; "ABCDE"] = Ok "FGHIJ".
Proof. split; vm_compute; reflexivity. Qed.

Example select_initial_too_long : select_initial_word ["ABCDEF"] = Raise IndexError.
Proof. vm_compute. reflexivity. Qed.

Example run_example :
  run_wordle log2_trunc 6
    ["CRANE"; "SLATE"; "TRACE"; "CRATE"; "GRATE"; "PLATE"] "GRATE"
  = Some (Ok {| remaining := ["GRATE"];
                attempts := ["CRATE"; "GRATE"];
                printed :=
                  [ {| line_number := 1; line_guess := "CRATE";
                       line_feedback := "BGGGG"; line_remaining := 1 |};
                    {| line_number := 2; line_guess := "GRATE";
                       line_feedback := "GGGGG"; line_remaining := 1 |} ] |}).
Proof. vm_compute. reflexivity. Qed.

(** Words that are not five letters long are outside the game: a
    two-letter candidate that starts the answer is never filtered out,
    and the loop goes on for as long as it is given fuel. *)
Example short_word_keeps_looping : solve_wordle log2_trunc 40 ["AB"] "ABC" = None.
Proof. vm_compute. reflexivity. Qed.

(** ** The error monad *)

Lemma bind_Ok {A B} (r : result A) (k : A -> result B) (b : B) :
  (r ≫= k) = Ok b -> exists a, r = Ok a /\ k a = Ok b.
Proof. destruct r as [a|e]; [eauto | discriminate]. Qed.

Lemma list_get_Ok {A} (l : list A) i x : l !! i = Some x -> list_get l i = Ok x.
Proof. unfold list_get. intros ->. reflexivity. Qed.

Lemma list_set_Ok {A} (l : list A) i x :
  i < length l -> list_set l i x = Ok (<[i:=x]> l).
Proof. unfold list_set. intros H. rewrite decide_True; auto. Qed.

Lemma list_index_Ok {A} `{EqDecision A} (l : list A) (x : A) :
  x ∈ l -> exists j, list_index l x = Ok j /\ j < length l.
Proof.
  induction l as [|y l IH]; intros Hin.
  - inversion Hin.
  - simpl. destruct (decide (y = x)) as [->|Hne].
    + exists 0. split; [reflexivity | simpl; lia].
    + assert (x ∈ l) as Hl by (inversion Hin; subst; congruence).
      destruct (IH Hl) as (j & -> & Hj). exists (S j). split; [reflexivity | simpl; lia].
Qed.

(** ** The feedback pattern *)

Lemma green_step_hit answer i g fb rem :
  chars answer !! i = Some g -> i < length fb -> i < length rem ->
  green_step answer i g (fb, rem) = Ok (<[i:="G"%char]> fb, <[i:=None]> rem).
Proof.
  intros Ha Hfb Hrem. unfold green_step.
  rewrite (list_get_Ok _ _ _ Ha). simpl.
  rewrite decide_True by reflexivity.
  rewrite !list_set_Ok by assumption. reflexivity.
Qed.

Lemma green_step_miss answer i g a st :
  chars answer !! i = Some a -> g <> a -> green_step answer i g st = Ok st.
Proof.
  intros Ha Hne. unfold green_step. destruct st as [fb rem].
  rewrite (list_get_Ok _ _ _ Ha). simpl.
  rewrite decide_False by assumption. reflexivity.
Qed.

Lemma for_enumerate_cons {A St} (body : nat -> A -> St -> result St) i x l s s' :
  body i x s = Ok s' ->
  for_enumerate body i (x :: l) s = for_enumerate body (S i) l s'.
Proof. intros H. simpl. rewrite H. reflexivity. Qed.

(** The first pass writes ['G'] exactly where guess and answer agree and
    leaves every other position as it was. *)
Lemma green_pass answer l : forall i fb rem,
  length fb = 5 -> length rem = length (chars answer) ->
  i + length l <= 5 -> i + length l <= length (chars answer) ->
  exists fb' rem',
    for_enumerate (green_step answer) i l (fb, rem) = Ok (fb', rem') /\
    length fb' = 5 /\ length rem' = length rem /\
    forall j, fb' !! j =
      if bool_decide (i <= j /\ is_Some (l !! (j - i)) /\ l !! (j - i) = chars answer !! j)
      then Some "G"%char else fb !! j.
Proof.
  induction l as [|g l IH]; intros i fb rem Hfb Hrem H5 Ha.
  - exists fb, rem. repeat split; auto. intros j.
    rewrite bool_decide_eq_false_2; auto.
    intros (_ & [x Hx] & _). rewrite lookup_nil in Hx. discriminate.
  - simpl in H5, Ha.
    destruct (chars answer !! i) as [a|] eqn:Hai;
      [| apply lookup_ge_None in Hai; lia].
    destruct (decide (g = a)) as [->|Hne].
    + rewrite (for_enumerate_cons _ _ _ _ _ _ (green_step_hit _ _ _ fb rem Hai ltac:(lia) ltac:(lia))).
      destruct (IH (S i) (<[i:="G"%char]> fb) (<[i:=None]> rem)) as (fb' & rem' & -> & L1 & L2 & Hj);
        rewrite ?length_insert; try lia.
      exists fb', rem'. repeat split; auto.
      { rewrite L2, length_insert. reflexivity. }
      intros j. rewrite Hj. destruct (decide (j = i)) as [->|Hji].
      * rewrite (bool_decide_eq_false_2 (S i <= i /\ _)) by lia.
        rewrite list_lookup_insert_eq by lia.
        rewrite bool_decide_eq_true_2; auto.
        replace (i - i) with 0 by lia. simpl. rewrite Hai. eauto.
      * rewrite list_lookup_insert_ne by auto.
        destruct (decide (i <= j)) as [Hle|Hgt].
        -- replace (j - i) with (S (j - S i)) by lia. simpl.
           apply (f_equal (fun b : bool => if b then Some "G"%char else fb !! j)).
           apply bool_decide_ext. intuition lia.
        -- rewrite !bool_decide_eq_false_2 by lia. reflexivity.
    + rewrite (for_enumerate_cons _ _ _ _ _ _ (green_step_miss _ _ _ _ (fb, rem) Hai Hne)).
      destruct (IH (S i) fb rem) as (fb' & rem' & -> & L1 & L2 & Hj); try lia.
      exists fb', rem'. repeat split; auto.
      intros j. rewrite Hj. destruct (decide (j = i)) as [->|Hji].
      * rewrite (bool_decide_eq_false_2 (S i <= i /\ _)) by lia.
        rewrite bool_decide_eq_false_2; auto.
        replace (i - i) with 0 by lia. simpl. rewrite Hai.
        intros (_ & _ & Heq). congruence.
      * destruct (decide (i <= j)) as [Hle|Hgt].
        -- replace (j - i) with (S (j - S i)) by lia. simpl.
           apply (f_equal (fun b : bool => if b then Some "G"%char else fb !! j)).
           apply bool_decide_ext. intuition lia.
        -- rewrite !bool_decide_eq_false_2 by lia. reflexivity.
Qed.

(** A turn of the second pass never writes or erases a ['G']. *)
Lemma yellow_step_spec i g fb rem :
  i < length fb ->
  exists fb' rem',
    yellow_step i g (fb, rem) = Ok (fb', rem') /\
    length fb' = length fb /\ length rem' = length rem /\
    forall j, fb' !! j = Some "G"%char <-> fb !! j = Some "G"%char.
Proof.
  intros Hi. unfold yellow_step.
  destruct (lookup_lt_is_Some_2 fb i Hi) as [f Hf].
  rewrite (list_get_Ok _ _ _ Hf). simpl.
  destruct (bool_decide (f = "B"%char) && bool_decide (Some g ∈ rem)) eqn:Hc.
  - apply andb_prop in Hc as [HB Hin].
    apply bool_decide_eq_true in HB. apply bool_decide_eq_true in Hin. subst f.
    rewrite list_set_Ok by assumption. simpl.
    destruct (list_index_Ok rem (Some g) Hin) as (k & -> & Hk). simpl.
    rewrite list_set_Ok by assumption. simpl.
    eexists _, _. split; [reflexivity|].
    rewrite !length_insert. repeat split; auto.
    + destruct (decide (j = i)) as [->|Hne].
      * rewrite list_lookup_insert_eq by assumption. discriminate.
      * rewrite list_lookup_insert_ne by auto. auto.
    + destruct (decide (j = i)) as [->|Hne].
      * rewrite Hf. discriminate.
      * rewrite list_lookup_insert_ne by auto. auto.
  - exists fb, rem. repeat split; auto.
Qed.

Lemma yellow_pass l : forall i fb rem,
  i + length l <= length fb ->
  exists fb' rem',
    for_enumerate yellow_step i l (fb, rem) = Ok (fb', rem') /\
    length fb' = length fb /\
    forall j, fb' !! j = Some "G"%char <-> fb !! j = Some "G"%char.
Proof.
  induction l as [|g l IH]; intros i fb rem Hi.
  - exists fb, rem. repeat split; auto.
  - simpl in Hi.
    destruct (yellow_step_spec i g fb rem) as (fb1 & rem1 & Hs & L1 & _ & H1); [lia|].
    rewrite (for_enumerate_cons _ _ _ _ _ _ Hs).
    destruct (IH (S i) fb1 rem1) as (fb' & rem' & -> & L2 & H2); [lia|].
    exists fb', rem'. split; [reflexivity|]. split; [congruence|].
    intros j. rewrite H2. apply H1.
Qed.

(** What [_feedback] returns when the guess has at most five letters and
    is no longer than the answer: five symbols, ['G'] exactly where guess
    and answer agree. *)
Lemma feedback_spec guess answer :
  length (chars guess) <= 5 -> length (chars guess) <= length (chars answer) ->
  exists fb,
    _feedback guess answer = Ok (string_of_list_ascii fb) /\
    length fb = 5 /\
    forall j, fb !! j = Some "G"%char <->
              is_Some (chars guess !! j) /\ chars guess !! j = chars answer !! j.
Proof.
  intros H5 Ha. unfold _feedback.
  destruct (green_pass answer (chars guess) 0 (replicate 5 "B"%char) (Some <$> chars answer))
    as (fb1 & rem1 & -> & L1 & _ & H1); auto.
  { rewrite length_fmap. reflexivity. }
  simpl.
  destruct (yellow_pass (chars guess) 0 fb1 rem1) as (fb2 & rem2 & -> & L2 & H2); [simpl; lia|].
  simpl. exists fb2. split; [reflexivity|]. split; [congruence|].
  intros j. rewrite H2, H1. replace (j - 0) with j by lia.
  case_bool_decide as Hd.
  - split; [intros _; tauto | reflexivity].
  - split.
    + intros Hr. exfalso.
      destruct (decide (j < 5)) as [Hlt|Hge].
      * rewrite lookup_replicate_2 in Hr by assumption. discriminate.
      * rewrite (proj1 (lookup_replicate_None 5 "B"%char j)) in Hr; [discriminate | lia].
    + intros [? ?]. exfalso. apply Hd. split; [lia | tauto].
Qed.

Lemma chars_inj s t : chars s = chars t -> s = t.
Proof.
  unfold chars. intros H.
  rewrite <- (string_of_list_ascii_of_string s), <- (string_of_list_ascii_of_string t).
  congruence.
Qed.

Lemma chars_length s : length (chars s) = String.length s.
Proof. unfold chars. induction s; simpl; congruence. Qed.

Lemma five_letter_chars w : five_letter w -> length (chars w) = 5.
Proof. unfold five_letter. rewrite chars_length. auto. Qed.

Lemma all_green fb :
  length fb = 5 -> (forall j, j < 5 -> fb !! j = Some "G"%char) ->
  string_of_list_ascii fb = "GGGGG".
Proof.
  intros L H. replace fb with (replicate 5 "G"%char); [reflexivity|].
  apply list_eq. intros j. destruct (decide (j < 5)) as [Hlt|Hge].
  - rewrite lookup_replicate_2, H by assumption. reflexivity.
  - rewrite (proj1 (lookup_replicate_None 5 "G"%char j)) by lia.
    symmetry. apply lookup_ge_None. lia.
Qed.

Lemma feedback_five guess answer :
  five_letter guess -> five_letter answer ->
  exists fb, _feedback guess answer = Ok fb.
Proof.
  intros Hg Ha. apply five_letter_chars in Hg, Ha.
  destruct (feedback_spec guess answer) as (fb & H & _); [lia..|]. eauto.
Qed.

Lemma feedback_self w : five_letter w -> _feedback w w = Ok "GGGGG".
Proof.
  intros Hw. apply five_letter_chars in Hw.
  destruct (feedback_spec w w) as (fb & -> & L & H); [lia..|].
  f_equal. apply all_green; [assumption|].
  intros j Hj. apply H. split; [|reflexivity].
  apply lookup_lt_is_Some_2. lia.
Qed.

Lemma feedback_all_green_eq g a :
  five_letter g -> five_letter a -> _feedback g a = Ok "GGGGG" -> g = a.
Proof.
  intros Hg Ha Hfb. apply five_letter_chars in Hg, Ha.
  destruct (feedback_spec g a) as (fb & E & L & H); [lia..|].
  rewrite E in Hfb. injection Hfb as Hfb.
  apply (f_equal list_ascii_of_string) in Hfb.
  rewrite list_ascii_of_string_of_list_ascii in Hfb. simpl in Hfb. subst fb.
  apply chars_inj, list_eq. intros j.
  destruct (decide (j < 5)) as [Hlt|Hge].
  - apply H. do 5 (destruct j as [|j]; [reflexivity|]). lia.
  - rewrite (proj2 (lookup_ge_None (chars g) j)), (proj2 (lookup_ge_None (chars a) j)) by lia.
    reflexivity.
Qed.

(** The list comprehension of the loop is a plain filter when all words
    have five letters. *)
Lemma filter_remaining_filter guess fb C :
  five_letter guess -> Forall five_letter C ->
  filter_remaining guess fb C = Ok (filter (fun w => _feedback guess w = Ok fb) C).
Proof.
  intros Hg HC. induction HC as [|w C Hw HC IH]; [reflexivity|].
  simpl. destruct (feedback_five guess w Hg Hw) as [fw Hfw].
  rewrite Hfw, IH. simpl. rewrite filter_cons.
  destruct (decide (fw = fb)) as [->|Hne].
  - rewrite decide_True by assumption. reflexivity.
  - rewrite decide_False by congruence. reflexivity.
Qed.

(** ** Claims on the feedback pattern *)

(** C3: [_feedback "ROBOT" "WORLD"] is Present, Correct, Absent, Absent,
    Absent, the string ["YGBBB"]: the ['O'] in place is marked first, the
    ['R'] finds the unclaimed ['R'] of the answer, and nothing else
    matches. *)
Theorem feedback_robot_world : _feedback "ROBOT" "WORLD" = Ok "YGBBB".
Proof. vm_compute. reflexivity. Qed.

(** C9: for every five-letter word [w], [_feedback w w] is the all-Correct
    pattern ["GGGGG"]. *)
Theorem feedback_same_word_all_correct (w : string) :
  five_letter w -> _feedback w w = Ok "GGGGG".
Proof. apply feedback_self. Qed.

Lemma feedback_same_word_all_correct_witness : _feedback "CRANE" "CRANE" = Ok "GGGGG".
Proof. apply (feedback_same_word_all_correct "CRANE"). reflexivity. Defined.

(** C10: for five-letter words [g] and [a], an all-Correct feedback forces
    [g = a]; so a guess [g] other than the answer is dropped by the
    filter of any list of five-letter words containing it, which is then
    strictly shorter. *)
Theorem all_correct_only_for_answer (g a : string) (C : list string) :
  five_letter g -> five_letter a ->
  (_feedback g a = Ok "GGGGG" -> g = a) /\
  (g <> a -> Forall five_letter C -> g ∈ C ->
   exists fb C',
     _feedback g a = Ok fb /\ filter_remaining g fb C = Ok C' /\
     (g ∉ C') /\ length C' < length C).
Proof.
  intros Hg Ha. split; [apply feedback_all_green_eq; assumption|].
  intros Hne HC Hin.
  destruct (feedback_five g a Hg Ha) as [fb Hfb].
  exists fb, (filter (fun w => _feedback g w = Ok fb) C).
  assert (_feedback g g <> Ok fb) as Hgg.
  { rewrite (feedback_self g Hg). intros E. injection E as <-.
    apply Hne, feedback_all_green_eq; assumption. }
  split; [assumption|]. split; [apply filter_remaining_filter; assumption|].
  split.
  - rewrite list_elem_of_filter. tauto.
  - eapply length_filter_lt; eassumption.
Qed.

Lemma all_correct_only_for_answer_witness :
  (_feedback "CRANE" "CRATE" = Ok "GGGGG" -> "CRANE" = "CRATE") /\
  ("CRANE" <> "CRATE" -> Forall five_letter ["CRANE"; "CRATE"] ->
   "CRANE" ∈ ["CRANE"; "CRATE"] ->
   exists fb C',
     _feedback "CRANE" "CRATE" = Ok fb /\
     filter_remaining "CRANE" fb ["CRANE"; "CRATE"] = Ok C' /\
     ("CRANE" ∉ C') /\ length C' < length ["CRANE"; "CRATE"]).
Proof. apply (all_correct_only_for_answer "CRANE" "CRATE"); reflexivity. Defined.

(** ** Binary64 arithmetic *)

Local Open Scope Z_scope.

Lemma digits2_pos_bounds p :
  2 ^ (Z.pos (digits2_pos p) - 1) <= Z.pos p < 2 ^ Z.pos (digits2_pos p).
Proof.
  induction p as [p IH|p IH|]; cbn [digits2_pos].
  - rewrite Pos2Z.inj_succ.
    replace (Z.succ (Z.pos (digits2_pos p)) - 1) with (Z.succ (Z.pos (digits2_pos p) - 1)) by lia.
    rewrite !Z.pow_succ_r by lia. lia.
  - rewrite Pos2Z.inj_succ.
    replace (Z.succ (Z.pos (digits2_pos p)) - 1) with (Z.succ (Z.pos (digits2_pos p) - 1)) by lia.
    rewrite !Z.pow_succ_r by lia. lia.
  - simpl. lia.
Qed.

(** The number of binary digits is fixed by the enclosing powers of two. *)
Lemma digits2_pos_unique p k :
  2 ^ (k - 1) <= Z.pos p < 2 ^ k -> 1 <= k -> Z.pos (digits2_pos p) = k.
Proof.
  intros [Hlo Hhi] Hk. pose proof (digits2_pos_bounds p) as [Dlo Dhi].
  set (d := Z.pos (digits2_pos p)) in *.
  assert (d - 1 < k) by (apply (Z.pow_lt_mono_r_iff 2); lia).
  assert (k - 1 < d) by (apply (Z.pow_lt_mono_r_iff 2); lia).
  lia.
Qed.

Lemma shr_m_of_loc m l : shr_m (shr_record_of_loc m l) = m.
Proof. destruct l as [|[]]; reflexivity. Qed.

Lemma shr_1_half p l :
  Z.pos p >= 2 ->
  2 * shr_m (shr_1 (shr_record_of_loc (Z.pos p) l)) <= Z.pos p
    < 2 * shr_m (shr_1 (shr_record_of_loc (Z.pos p) l)) + 2.
Proof. intros Hp. destruct l as [|[]], p; simpl; lia. Qed.

(** Truncating a mantissa of 53 or 54 bits leaves one of exactly 53. *)
Lemma shr_fexp_normal m e l :
  4503599627370496 <= m < 18014398509481984 -> -1000 <= e <= 950 ->
  exists mrs e1,
    shr_fexp prec emax m e l = (mrs, e1) /\
    4503599627370496 <= shr_m mrs < 9007199254740992 /\ e <= e1 <= e + 1.
Proof.
  intros Hm He. destruct m as [|p|p]; try lia.
  unfold shr_fexp, Zdigits2.
  destruct (Z_lt_le_dec (Z.pos p) 9007199254740992) as [Hlt|Hge].
  - rewrite (digits2_pos_unique p 53);
      [| change (2 ^ (53 - 1)) with 4503599627370496;
         change (2 ^ 53) with 9007199254740992; lia | lia].
    unfold fexp, emin, prec, emax. rewrite Z.max_l by lia.
    replace (53 + e - 53 - e) with 0 by lia. simpl.
    eexists _, _. split; [reflexivity|]. rewrite shr_m_of_loc. lia.
  - rewrite (digits2_pos_unique p 54);
      [| change (2 ^ (54 - 1)) with 9007199254740992;
         change (2 ^ 54) with 18014398509481984; lia | lia].
    unfold fexp, emin, prec, emax. rewrite Z.max_l by lia.
    replace (54 + e - 53 - e) with 1 by lia. cbn [shr SpecFloat.iter_pos].
    eexists _, _. split; [reflexivity|].
    pose proof (shr_1_half p l ltac:(lia)). lia.
Qed.

Lemma round_nearest_even_bounds m l :
  m <= round_nearest_even m l <= m + 1.
Proof. destruct l as [|[]]; simpl; try destruct (Z.even m); lia. Qed.

(** Rounding a mantissa of 53 or 54 bits in the normal range gives a
    positive finite number. *)
Lemma binary_round_aux_normal q e l :
  4503599627370496 <= q < 18014398509481984 -> -1000 <= e <= 900 ->
  exists m e', binary_round_aux prec emax false q e l = S754_finite false m e'.
Proof.
  intros Hq He. unfold binary_round_aux.
  destruct (shr_fexp_normal q e l Hq ltac:(lia)) as (mrs1 & e1 & -> & Hm1 & He1).
  pose proof (round_nearest_even_bounds (shr_m mrs1) (loc_of_shr_record mrs1)) as Hr.
  destruct (shr_fexp_normal (round_nearest_even (shr_m mrs1) (loc_of_shr_record mrs1)) e1 loc_Exact)
    as (mrs2 & e2 & -> & Hm2 & He2); [lia..|].
  destruct (shr_m mrs2) as [|m|m]; try lia.
  rewrite (proj2 (Z.leb_le e2 (emax - prec))) by (unfold emax, prec; lia).
  eauto.
Qed.

(** The quotient of two positive ints [a <= b] below [2^63] is a positive
    finite float: neither of the errors of [/] occurs and the result is
    in the domain of [math.log2]. *)
Lemma int_truediv_pos a b :
  1 <= a <= b -> b < 9223372036854775808 ->
  exists m e, int_truediv a b = Ok (S754_finite false m e).
Proof.
  intros Ha Hb. unfold int_truediv. rewrite decide_False by lia.
  destruct a as [|pa|pa], b as [|pb|pb]; try lia.
  unfold ratio. cbn [int_exact SFdiv xorb]. unfold SFdiv_core_binary, Zdigits2.
  pose proof (digits2_pos_bounds pa) as [Alo Ahi].
  pose proof (digits2_pos_bounds pb) as [Blo Bhi].
  set (d1 := Z.pos (digits2_pos pa)) in *. set (d2 := Z.pos (digits2_pos pb)) in *.
  assert (1 <= d1) by (unfold d1; lia). assert (1 <= d2) by (unfold d2; lia).
  assert (d1 <= d2).
  { assert (d1 - 1 < d2) by (apply (Z.pow_lt_mono_r_iff 2); lia). lia. }
  assert (d2 <= 63).
  { assert (d2 - 1 < 63)
      by (apply (Z.pow_lt_mono_r_iff 2);
          [lia | lia | change (2 ^ 63) with 9223372036854775808; lia]).
    lia. }
  unfold fexp, emin, prec, emax. rewrite Z.max_l by lia. rewrite Z.min_l by lia.
  replace (0 - 0 - (d1 + 0 - (d2 + 0) - 53)) with (53 + d2 - d1) by lia.
  destruct (53 + d2 - d1) as [|s|s] eqn:Hs; try lia.
  rewrite Z.shiftl_mul_pow2 by lia.
  destruct (Z.div_eucl (Z.pos pa * 2 ^ Z.pos s) (Z.pos pb)) as [q r] eqn:Hdiv.
  assert (q = Z.pos pa * 2 ^ Z.pos s / Z.pos pb) as Hq
    by (unfold Z.div; rewrite Hdiv; reflexivity).
  assert (2 ^ (d1 - 1) * 2 ^ Z.pos s = 2 ^ 53 * 2 ^ (d2 - 1)) as E1.
  { rewrite <- !Z.pow_add_r by lia. f_equal. lia. }
  assert (2 ^ d1 = 2 * 2 ^ (d1 - 1)) as E2.
  { rewrite <- Z.pow_succ_r by lia. f_equal. lia. }
  assert (2 ^ d2 = 2 * 2 ^ (d2 - 1)) as E3.
  { rewrite <- Z.pow_succ_r by lia. f_equal. lia. }
  assert (0 < 2 ^ Z.pos s) by (apply Z.pow_pos_nonneg; lia).
  assert (0 < 2 ^ (d2 - 1)) by (apply Z.pow_pos_nonneg; lia).
  assert (0 < 2 ^ (d1 - 1)) by (apply Z.pow_pos_nonneg; lia).
  change (2 ^ 53) with 9007199254740992 in E1.
  assert (4503599627370496 <= q < 18014398509481984) as Hqb.
  { subst q. split.
    - apply Z.div_le_lower_bound; [lia|]. nia.
    - apply Z.div_lt_upper_bound; [lia|]. nia. }
  destruct (binary_round_aux_normal q (d1 + 0 - (d2 + 0) - 53) (new_location (Z.pos pb) r) Hqb)
    as (m & e & Hr); [lia|].
  unfold prec, emax in Hr. rewrite Hr. eauto.
Qed.

Local Close Scope Z_scope.

(** [a / b] for ints [0 <= a <= b], [1 <= b < 2^63]: no exception, the
    result is [ratio a b], a float that is not NaN and not negative, and
    positive when [a] is. *)
Lemma int_truediv_ratio a b :
  (0 <= a <= b)%Z -> (1 <= b < 9223372036854775808)%Z ->
  int_truediv a b = Ok (ratio a b) /\ fok (ratio a b) /\
  ((1 <= a)%Z -> SFleb (ratio a b) f_zero = false).
Proof.
  intros Ha Hb. destruct (decide (a = 0%Z)) as [->|Hnz].
  - unfold int_truediv. rewrite decide_False by lia.
    destruct b as [|pb|pb]; try lia.
    split; [reflexivity|]. split; [exact I | lia].
  - destruct (int_truediv_pos a b) as (m & e & H); [lia..|].
    assert (ratio a b = S754_finite false m e) as Hr.
    { unfold int_truediv in H. rewrite decide_False in H by lia.
      destruct (ratio a b); congruence. }
    rewrite H, Hr. split; [reflexivity|]. split; [exact I | reflexivity].
Qed.

(** *** Closure of the non-negative floats under [+] and [0.5 *] *)

Lemma iter_pos_invariant {A} (P : A -> Prop) (f : A -> A) :
  (forall x, P x -> P (f x)) -> forall n x, P x -> P (SpecFloat.iter_pos f n x).
Proof.
  intros Hf. induction n as [n IH|n IH|]; intros x Hx; simpl; auto.
Qed.

Lemma shr_1_nonneg mrs : (0 <= shr_m mrs)%Z -> (0 <= shr_m (shr_1 mrs))%Z.
Proof. destruct mrs as [[|[p|p|]|[p|p|]] r s]; simpl; lia. Qed.

Lemma shr_fexp_nonneg m e l :
  (0 <= m)%Z -> (0 <= shr_m (fst (shr_fexp prec emax m e l)))%Z.
Proof.
  intros Hm. unfold shr_fexp, shr.
  destruct (fexp prec emax (Zdigits2 m + e) - e)%Z; simpl;
    rewrite ?shr_m_of_loc; auto.
  apply (iter_pos_invariant (fun mrs => (0 <= shr_m mrs)%Z)).
  - apply shr_1_nonneg.
  - rewrite shr_m_of_loc. assumption.
Qed.

Lemma binary_round_aux_fok m e l :
  (0 <= m)%Z -> fok (binary_round_aux prec emax false m e l).
Proof.
  intros Hm. unfold binary_round_aux.
  pose proof (shr_fexp_nonneg m e l Hm) as H1.
  destruct (shr_fexp prec emax m e l) as [mrs1 e1]. simpl in H1.
  pose proof (round_nearest_even_bounds (shr_m mrs1) (loc_of_shr_record mrs1)) as Hr.
  pose proof (shr_fexp_nonneg (round_nearest_even (shr_m mrs1) (loc_of_shr_record mrs1))
                e1 loc_Exact ltac:(lia)) as H2.
  destruct (shr_fexp prec emax _ e1 loc_Exact) as [mrs2 e2]. simpl in H2.
  destruct (shr_m mrs2) as [|p|p]; [exact I | | lia].
  destruct (e2 <=? emax - prec)%Z; exact I.
Qed.

Lemma fadd_fok x y : fok x -> fok y -> fok (fadd x y).
Proof.
  destruct x as [sx|[]| |[] mx ex], y as [sy|[]| |[] my ey]; simpl; try tauto; intros _ _.
  - destruct sx, sy; exact I.
  - unfold fadd, SFadd, cond_Zopp, binary_normalize.
    cbn [Z.add]. unfold binary_round.
    destruct (shl_align _ _ _) as [mz ez]. apply binary_round_aux_fok. lia.
Qed.

Lemma fmul_half_fok x : fok x -> fok (fmul f_half x).
Proof.
  destruct x as [sx|[]| |[] mx ex]; simpl; try tauto; intros _.
  unfold fmul, f_half, SFmul. cbn [xorb]. apply binary_round_aux_fok. lia.
Qed.

(** *** The order on non-negative floats *)

Lemma SFcompare_finite m1 e1 m2 e2 :
  SFcompare (S754_finite false m1 e1) (S754_finite false m2 e2) =
  Some (match (e1 ?= e2)%Z with
        | Lt => Lt | Gt => Gt | Eq => (m1 ?= m2)%positive
        end).
Proof. reflexivity. Qed.

Ltac fok_cases :=
  repeat match goal with
         | x : float |- _ => destruct x as [?|[]| |[] ? ?]
         end;
  simpl fok in *; try tauto;
  unfold SFltb, SFleb in *; rewrite ?SFcompare_finite in *;
  simpl SFcompare in *;
  repeat match goal with
         | H : context [(?a ?= ?b)%Z] |- _ => destruct (Z.compare_spec a b)
         | |- context [(?a ?= ?b)%Z] => destruct (Z.compare_spec a b)
         | H : context [(?a ?= ?b)%positive] |- _ => destruct (Pos.compare_spec a b)
         | |- context [(?a ?= ?b)%positive] => destruct (Pos.compare_spec a b)
         end;
  try discriminate; try reflexivity; try lia.

Lemma fle_total (x y : float) :
  fok x -> fok y -> SFltb y x = false -> SFleb x y = true.
Proof. intros Hx Hy H. fok_cases. Qed.

Lemma fle_refl (x : float) : fok x -> SFleb x x = true.
Proof. intros Hx. fok_cases. Qed.

Lemma flt_le (x y : float) : SFltb x y = true -> SFleb x y = true.
Proof. unfold SFltb, SFleb. destruct (SFcompare x y) as [[]|]; congruence. Qed.

Lemma fle_lt_trans (x y z : float) :
  fok x -> fok y -> fok z ->
  SFleb x y = true -> SFltb y z = true -> SFltb x z = true.
Proof. intros Hx Hy Hz H1 H2. fok_cases. Qed.

Lemma flt_trans (x y z : float) :
  fok x -> fok y -> fok z ->
  SFltb x y = true -> SFltb y z = true -> SFltb x z = true.
Proof. intros Hx Hy Hz H1 H2. apply (fle_lt_trans x y z); auto using flt_le. Qed.

(** ** Dicts and [max] *)

Lemma for_each_snoc {A St} (body : A -> St -> result St) l x s :
  for_each body (l ++ [x]) s = s' ← for_each body l s; body x s'.
Proof.
  revert s. induction l as [|y l IH]; intros s; simpl.
  - destruct (body x s); reflexivity.
  - destruct (body y s) as [s1|e]; simpl; [apply IH | reflexivity].
Qed.

Lemma for_each_dict (f : string -> result float) (val : string -> float) C :
  (forall w, w ∈ C -> f w = Ok (val w)) ->
  for_each (fun w d => v ← f w; Ok (dict_set d w v)) C [] = Ok (dict_of val C).
Proof.
  unfold dict_of. induction C as [|x C IH] using rev_ind; intros Hf; [reflexivity|].
  rewrite for_each_snoc, IH, fold_left_app.
  - simpl. rewrite Hf; [reflexivity|]. apply elem_of_app. right. left.
  - intros w Hw. apply Hf, elem_of_app. auto.
Qed.

Lemma dict_of_snoc val C x :
  dict_of val (C ++ [x]) = dict_set (dict_of val C) x (val x).
Proof. unfold dict_of. rewrite fold_left_app. reflexivity. Qed.

Section Dict.
Context {K V : Type} `{EqDecision K}.
Implicit Types (d : list (K * V)) (k : K) (v : V).

Lemma dict_get_set_eq d k v : dict_get (dict_set d k v) k = Some v.
Proof.
  induction d as [|[k' v'] d IH]; simpl.
  - rewrite decide_True; auto.
  - destruct (decide (k' = k)) as [->|Hne]; simpl.
    + rewrite decide_True; auto.
    + rewrite decide_False; auto.
Qed.

Lemma dict_get_set_ne d k v k0 :
  k0 <> k -> dict_get (dict_set d k v) k0 = dict_get d k0.
Proof.
  intros Hne. induction d as [|[k' v'] d IH]; simpl.
  - rewrite decide_False; auto.
  - destruct (decide (k' = k)) as [->|Hk]; simpl.
    + rewrite !decide_False; auto.
    + destruct (decide (k' = k0)); auto.
Qed.

Lemma dict_set_same d k v : dict_get d k = Some v -> dict_set d k v = d.
Proof.
  induction d as [|[k' v'] d IH]; simpl; [discriminate|].
  destruct (decide (k' = k)) as [->|Hne]; intros H.
  - congruence.
  - rewrite IH; auto.
Qed.

Lemma dict_set_fresh d k v : dict_get d k = None -> dict_set d k v = d ++ [(k, v)].
Proof.
  induction d as [|[k' v'] d IH]; simpl; [reflexivity|].
  destruct (decide (k' = k)) as [->|Hne]; intros H; [discriminate|].
  rewrite IH; auto.
Qed.
End Dict.

Lemma dict_get_of val C k :
  dict_get (dict_of val C) k = if decide (k ∈ C) then Some (val k) else None.
Proof.
  induction C as [|x C IH] using rev_ind.
  - rewrite decide_False; [reflexivity | apply not_elem_of_nil].
  - rewrite dict_of_snoc. destruct (decide (k = x)) as [->|Hne].
    + rewrite dict_get_set_eq, decide_True; [reflexivity|].
      apply elem_of_app. right. left.
    + rewrite dict_get_set_ne, IH by assumption.
      destruct (decide (k ∈ C)) as [Hin|Hnin].
      * rewrite decide_True; [reflexivity | apply elem_of_app; auto].
      * rewrite decide_False; [reflexivity|].
        rewrite elem_of_app, list_elem_of_singleton. tauto.
Qed.

Lemma max_entry_snoc {K} (d : list (K * float)) kv :
  max_entry (d ++ [kv]) =
  Some (match max_entry d with None => kv | Some b => max_step b kv end).
Proof.
  destruct d as [|kv0 d]; simpl; [reflexivity|].
  rewrite fold_left_app. reflexivity.
Qed.

Lemma max_by_value_entry {K} (d : list (K * float)) :
  max_by_value d =
  match max_entry d with None => Raise ValueError | Some kv => Ok (fst kv) end.
Proof. destruct d; reflexivity. Qed.

(** [max] over the dict of the values [val] of the words of [C] returns a
    word of [C]; when the values are ordered totally, it is the first
    word of [C] of maximal value. *)
Lemma max_dict_of val C :
  C <> [] ->
  exists w, max_entry (dict_of val C) = Some (w, val w) /\ w ∈ C /\
            (Forall (fun w => fok (val w)) C -> first_maximum val C w).
Proof.
  induction C as [|x C IH] using rev_ind; [congruence|]. intros _.
  rewrite dict_of_snoc.
  destruct (decide (x ∈ C)) as [Hin|Hnin].
  - assert (C <> []) as Hne by (intros ->; inversion Hin).
    destruct (IH Hne) as (w & Hmax & Hw & Hfirst).
    rewrite dict_set_same by (rewrite dict_get_of, decide_True; auto).
    exists w. split; [assumption|]. split; [apply elem_of_app; auto|].
    intros Hok. apply Forall_app in Hok as [Hok _].
    destruct (Hfirst Hok) as (i & Hi & Hle & Hlt).
    exists i. split; [apply lookup_app_l_Some; assumption|]. split.
    + intros w' Hw'. apply elem_of_app in Hw' as [?|Hx]; [auto|].
      apply list_elem_of_singleton in Hx as ->. auto.
    + intros j w' Hj Hjw. apply (Hlt j); [assumption|].
      rewrite lookup_app_l in Hjw; [assumption|].
      apply lookup_lt_Some in Hi. lia.
  - rewrite dict_set_fresh by (rewrite dict_get_of, decide_False; auto).
    rewrite max_entry_snoc.
    destruct C as [|c C'] eqn:EC.
    { exists x. split; [reflexivity|]. split; [left|].
      intros Hok. exists 0. split; [reflexivity|]. split.
      - intros w' Hw'. apply list_elem_of_singleton in Hw' as ->.
        apply fle_refl. inversion Hok; assumption.
      - intros j w' Hj. lia. }
    rewrite <- EC in *. assert (C <> []) as Hne by (rewrite EC; discriminate).
    destruct (IH Hne) as (w & -> & Hw & Hfirst).
    unfold max_step, fgt. simpl. destruct (SFltb (val w) (val x)) eqn:Hcmp.
    + exists x. split; [reflexivity|]. split; [apply elem_of_app; right; left|].
      intros Hok. apply Forall_app in Hok as [HokC Hokx].
      rewrite Forall_singleton in Hokx.
      destruct (Hfirst HokC) as (i & Hi & Hle & Hlt).
      assert (fok (val w)) as Hokw by (rewrite Forall_forall in HokC; auto).
      assert (forall w', w' ∈ C -> SFltb (val w') (val x) = true) as Hall.
      { intros w' Hw'. rewrite Forall_forall in HokC.
        apply (fle_lt_trans _ (val w)); auto. }
      exists (length C). split; [apply list_lookup_middle; reflexivity|]. split.
      * intros w' Hw'. apply elem_of_app in Hw' as [?|Hx]; [auto using flt_le|].
        apply list_elem_of_singleton in Hx as ->. apply fle_refl; assumption.
      * intros j w' Hj Hjw. rewrite lookup_app_l in Hjw by assumption.
        apply Hall. eapply list_elem_of_lookup_2; eassumption.
    + exists w. split; [reflexivity|]. split; [apply elem_of_app; auto|].
      intros Hok. apply Forall_app in Hok as [HokC Hokx].
      rewrite Forall_singleton in Hokx.
      destruct (Hfirst HokC) as (i & Hi & Hle & Hlt).
      assert (fok (val w)) as Hokw by (rewrite Forall_forall in HokC; auto).
      exists i. split; [apply lookup_app_l_Some; assumption|]. split.
      * intros w' Hw'. apply elem_of_app in Hw' as [?|Hx]; [auto|].
        apply list_elem_of_singleton in Hx as ->. apply fle_total; assumption.
      * intros j w' Hj Hjw. apply (Hlt j); [assumption|].
        rewrite lookup_app_l in Hjw; [assumption|].
        apply lookup_lt_Some in Hi. lia.
Qed.

(** ** The counters of [select_initial_word] *)

Lemma counter_get_incr ch c ch' :
  counter_get (counter_incr ch c) ch' =
  (counter_get c ch' + if decide (ch = ch') then 1 else 0)%Z.
Proof.
  unfold counter_incr, counter_get. destruct (decide (ch = ch')) as [->|Hne].
  - rewrite lookup_insert_eq. reflexivity.
  - rewrite lookup_insert_ne by assumption. simpl. lia.
Qed.

Lemma counter_get_foldr (l : list ascii) c ch :
  NoDup l ->
  counter_get (foldr counter_incr c l) ch =
  (counter_get c ch + if decide (ch ∈ l) then 1 else 0)%Z.
Proof.
  induction 1 as [|x l Hx Hl IH]; cbn [foldr].
  - rewrite decide_False by apply not_elem_of_nil. lia.
  - rewrite counter_get_incr, IH.
    destruct (decide (x = ch)) as [->|Hne].
    + rewrite decide_False by assumption. rewrite decide_True by left. lia.
    + destruct (decide (ch ∈ l)).
      * rewrite decide_True by (right; assumption). lia.
      * rewrite decide_False; [lia|]. rewrite elem_of_cons. intuition congruence.
Qed.

Lemma counter_get_update (letters : gset ascii) c ch :
  counter_get (counter_update letters c) ch =
  (counter_get c ch + if decide (ch ∈ letters) then 1 else 0)%Z.
Proof.
  unfold counter_update, set_fold. simpl.
  rewrite counter_get_foldr by apply NoDup_elements.
  destruct (decide (ch ∈ letters)).
  - rewrite decide_True by (apply elem_of_elements; assumption). reflexivity.
  - rewrite decide_False by (rewrite elem_of_elements; assumption). reflexivity.
Qed.

Lemma pos_count_insert pcs i c j ch :
  i < length pcs ->
  pos_count (<[i:=c]> pcs) j ch =
  if decide (j = i) then counter_get c ch else pos_count pcs j ch.
Proof.
  intros Hi. unfold pos_count. destruct (decide (j = i)) as [->|Hne].
  - rewrite list_lookup_insert_eq by assumption. reflexivity.
  - rewrite list_lookup_insert_ne by auto. reflexivity.
Qed.

(** The inner loop of the counting pass adds one to the counter of each
    position for the letter found there. *)
Lemma count_letters letters : forall k (pcs : list (gmap ascii Z)),
  length pcs = 5 -> k + length letters <= 5 ->
  exists pcs',
    for_enumerate
      (fun i ch pcs => c ← list_get pcs i; list_set pcs i (counter_incr ch c))
      k letters pcs = Ok pcs' /\
    length pcs' = 5 /\
    forall i ch,
      pos_count pcs' i ch =
      (pos_count pcs i ch +
       if bool_decide (k <= i /\ letters !! (i - k) = Some ch)%nat then 1 else 0)%Z.
Proof.
  induction letters as [|x letters IH]; intros k pcs L Hk.
  - exists pcs. repeat split; auto. intros i ch.
    rewrite bool_decide_eq_false_2; [lia|]. intros [_ H]. discriminate.
  - simpl in Hk. cbn [for_enumerate].
    destruct (lookup_lt_is_Some_2 pcs k ltac:(lia)) as [c Hc].
    rewrite (list_get_Ok _ _ _ Hc). simpl.
    rewrite list_set_Ok by lia. simpl.
    destruct (IH (S k) (<[k:=counter_incr x c]> pcs)) as (pcs' & -> & L' & H');
      [rewrite length_insert; lia | lia |].
    exists pcs'. repeat split; auto. intros i ch.
    rewrite H', pos_count_insert by lia.
    destruct (decide (i = k)) as [->|Hne].
    + rewrite (bool_decide_eq_false_2 (S k <= k /\ _)) by lia.
      replace (k - k) with 0 by lia. simpl.
      rewrite counter_get_incr. unfold pos_count. rewrite Hc.
      destruct (decide (x = ch)) as [->|Hx].
      * rewrite bool_decide_eq_true_2 by auto. lia.
      * rewrite bool_decide_eq_false_2; [lia|]. intros [_ E]. congruence.
    + destruct (decide (k <= i)) as [Hle|Hgt].
      * replace (i - k) with (S (i - S k)) by lia. simpl.
        rewrite (bool_decide_ext (S k <= i /\ letters !! (i - S k) = Some ch)
                   (k <= i /\ letters !! (i - S k) = Some ch)) by (intuition lia).
        reflexivity.
      * rewrite !bool_decide_eq_false_2 by lia. reflexivity.
Qed.

Lemma count_at_cons w C i ch :
  count_at (w :: C) i ch =
  ((if bool_decide (chars w !! i = Some ch) then 1 else 0) + count_at C i ch)%Z.
Proof.
  unfold count_at. rewrite filter_cons. case_bool_decide as H.
  - rewrite decide_True by assumption. simpl length. lia.
  - rewrite decide_False by assumption. lia.
Qed.

Lemma count_containing_cons w C ch :
  count_containing (w :: C) ch =
  ((if decide (ch ∈ chars w) then 1 else 0) + count_containing C ch)%Z.
Proof.
  unfold count_containing. rewrite filter_cons.
  destruct (decide (ch ∈ chars w)); simpl length; lia.
Qed.

(** The counting pass computes, on top of the counters it starts from,
    the per-position and the overall letter counts of the candidates. *)
Lemma count_words C : forall (pcs : list (gmap ascii Z)) (oc : gmap ascii Z),
  Forall (fun w => length (chars w) <= 5) C -> length pcs = 5 ->
  exists pcs' oc',
    for_each count_word C (pcs, oc) = Ok (pcs', oc') /\
    length pcs' = 5 /\
    (forall i ch, pos_count pcs' i ch = (pos_count pcs i ch + count_at C i ch)%Z) /\
    (forall ch, counter_get oc' ch = (counter_get oc ch + count_containing C ch)%Z).
Proof.
  induction C as [|w C IH]; intros pcs oc HC L.
  - exists pcs, oc. split; [reflexivity|]. split; [assumption|].
    unfold count_at, count_containing. simpl. split; intros; lia.
  - apply Forall_cons in HC as [Hw HC]. cbn [for_each].
    change (count_word w (pcs, oc)) with
      (pcs1 ← for_enumerate
                (fun i ch pcs => c ← list_get pcs i; list_set pcs i (counter_incr ch c))
                0 (chars w) pcs;
       Ok (pcs1, counter_update (list_to_set (chars w)) oc)).
    destruct (count_letters (chars w) 0 pcs L ltac:(simpl; lia)) as (pcs1 & -> & L1 & H1).
    cbn [mbind result_bind].
    destruct (IH pcs1 (counter_update (list_to_set (chars w)) oc) HC L1)
      as (pcs' & oc' & -> & L' & Hp & Ho).
    exists pcs', oc'. split; [reflexivity|]. split; [assumption|]. split.
    + intros i ch. rewrite Hp, H1, count_at_cons. replace (i - 0) with i by lia.
      rewrite (bool_decide_ext (0 <= i /\ chars w !! i = Some ch)
                 (chars w !! i = Some ch)) by (intuition lia).
      lia.
    + intros ch. rewrite Ho, counter_get_update, count_containing_cons.
      destruct (decide (ch ∈ chars w)) as [Hin|Hnin].
      * rewrite decide_True by (apply elem_of_list_to_set; assumption). lia.
      * rewrite decide_False by (rewrite elem_of_list_to_set; assumption). lia.
Qed.

Lemma count_at_le_containing C i ch :
  (0 <= count_at C i ch <= count_containing C ch)%Z.
Proof.
  induction C as [|w C IH].
  - unfold count_at, count_containing. simpl. lia.
  - rewrite count_at_cons, count_containing_cons.
    case_bool_decide as H.
    + rewrite decide_True by (eapply list_elem_of_lookup_2; eassumption). lia.
    + destruct (decide (ch ∈ chars w)); lia.
Qed.

Lemma count_containing_le_length C ch :
  (count_containing C ch <= Z.of_nat (length C))%Z.
Proof. unfold count_containing. pose proof (length_filter (fun w => ch ∈ chars w) C). lia. Qed.

(** ** The score of [select_initial_word] *)

Section Scoring.
Variable C : list string.
Variable pcs : list (gmap ascii Z).
Variable oc : gmap ascii Z.
Hypothesis C_nonempty : C <> [].
Hypothesis C_fits : list_fits C.
Hypothesis pcs_length : length pcs = 5.
Hypothesis pcs_counts : forall i ch, pos_count pcs i ch = count_at C i ch.
Hypothesis oc_counts : forall ch, counter_get oc ch = count_containing C ch.

Let n : Z := Z.of_nat (length C).

Lemma total_bounds : (1 <= n < 9223372036854775808)%Z.
Proof using C_nonempty C_fits.
  clear pcs_length pcs_counts oc_counts.
  unfold n. split; [|exact C_fits].
  assert (length C <> 0) by (intros E; apply C_nonempty, nil_length_inv, E).
  lia.
Qed.

Lemma score_step_spec i ch score seen :
  i < 5 -> fok score ->
  let score1 := fadd score (ratio (count_at C i ch) n) in
  let score2 :=
    if bool_decide (ch ∈ seen) then score1
    else fadd score1
           (fmul f_half (ratio (count_containing C ch - count_at C i ch) n)) in
  score_step pcs oc n i ch (score, list_to_set seen) =
    Ok (score2, list_to_set (ch :: seen)) /\ fok score2.
Proof using All.
  intros Hi Hs score1 score2. pose proof total_bounds as Hn.
  pose proof (count_at_le_containing C i ch) as Hc.
  pose proof (count_containing_le_length C ch) as Hl. fold n in Hl.
  destruct (lookup_lt_is_Some_2 pcs i ltac:(lia)) as [pc Hpc].
  assert (counter_get pc ch = count_at C i ch) as Epc.
  { rewrite <- pcs_counts. unfold pos_count. rewrite Hpc. reflexivity. }
  destruct (int_truediv_ratio (count_at C i ch) n) as (D1 & F1 & _); [lia..|].
  destruct (int_truediv_ratio (count_containing C ch - count_at C i ch) n)
    as (D2 & F2 & _); [lia..|].
  assert (fok score1) as Hs1 by (apply fadd_fok; assumption).
  unfold score_step. rewrite (list_get_Ok _ _ _ Hpc). cbn [mbind result_bind].
  rewrite Epc, D1. cbn [mbind result_bind]. fold score1.
  subst score2. destruct (decide (ch ∈ seen)) as [Hin|Hnin].
  - rewrite (bool_decide_eq_true_2 (ch ∈ seen)) by assumption.
    rewrite bool_decide_eq_false_2 by (rewrite elem_of_list_to_set; auto).
    split; [|assumption]. f_equal. f_equal.
    cbn [list_to_set]. symmetry. apply subseteq_union_1_L, singleton_subseteq_l.
    apply elem_of_list_to_set. assumption.
  - rewrite (bool_decide_eq_false_2 (ch ∈ seen)) by assumption.
    rewrite bool_decide_eq_true_2 by (rewrite elem_of_list_to_set; auto).
    rewrite oc_counts, D2. cbn [mbind result_bind].
    split; [reflexivity|]. apply fadd_fok; [assumption|]. apply fmul_half_fok. assumption.
Qed.

Lemma score_letters letters : forall i seen score,
  fok score -> i + length letters <= 5 ->
  exists used,
    for_enumerate (score_step pcs oc n) i letters (score, list_to_set seen) =
      Ok (frequency_score_from C i seen letters score, used) /\
    fok (frequency_score_from C i seen letters score).
Proof using All.
  induction letters as [|ch letters IH]; intros i seen score Hs Hi.
  - exists (list_to_set seen). split; [reflexivity | assumption].
  - simpl in Hi.
    destruct (score_step_spec i ch score seen ltac:(lia) Hs) as [Hstep Hok].
    rewrite (for_enumerate_cons _ _ _ _ _ _ Hstep).
    cbn [frequency_score_from]. apply IH; [assumption | lia].
Qed.

(** The scoring loop computes for each five-letter word the score of the
    specification, a non-negative float. *)
Lemma word_score_spec w :
  five_letter w ->
  word_score pcs oc n w = Ok (frequency_score C w) /\ fok (frequency_score C w).
Proof using All.
  intros Hw. apply five_letter_chars in Hw. unfold word_score, frequency_score.
  destruct (score_letters (chars w) 0 [] f_zero I ltac:(lia)) as (used & Hrun & Hok).
  change (∅ : gset ascii) with (list_to_set (C:=gset ascii) []).
  rewrite Hrun. split; [reflexivity | assumption].
Qed.
End Scoring.

(** The initial selector returns the first candidate of maximal score. *)
Lemma select_initial_word_spec C :
  C <> [] -> Forall five_letter C -> list_fits C ->
  Forall (fun w => fok (frequency_score C w)) C /\
  exists w, select_initial_word C = Ok w /\ w ∈ C /\
            first_maximum (frequency_score C) C w.
Proof.
  intros Hne H5 Hfit. unfold select_initial_word.
  destruct (count_words C (replicate 5 ∅) ∅) as (pcs & oc & -> & L & Hp & Ho).
  { eapply Forall_impl; [exact H5|]. intros w Hw.
    rewrite (five_letter_chars w Hw). lia. }
  { apply length_replicate. }
  cbn [mbind result_bind fst snd].
  assert (forall i ch, pos_count pcs i ch = count_at C i ch) as Hp'.
  { intros i ch. rewrite Hp. unfold pos_count.
    destruct (replicate 5 ∅ !! i) as [c|] eqn:E; [|lia].
    apply lookup_replicate_1 in E as [-> _]. unfold counter_get.
    rewrite lookup_empty. simpl. lia. }
  assert (forall ch, counter_get oc ch = count_containing C ch) as Ho'.
  { intros ch. rewrite Ho. unfold counter_get. rewrite lookup_empty. simpl. lia. }
  rewrite (for_each_dict _ (frequency_score C)).
  2:{ intros w Hw. rewrite Forall_forall in H5.
      apply (word_score_spec C pcs oc Hne Hfit L Hp' Ho' w). auto. }
  cbn [mbind result_bind]. rewrite max_by_value_entry.
  assert (Forall (fun w => fok (frequency_score C w)) C) as Hok.
  { rewrite Forall_forall in *. intros w' Hw'.
    apply (word_score_spec C pcs oc Hne Hfit L Hp' Ho' w'). auto. }
  split; [exact Hok|].
  destruct (max_dict_of (frequency_score C) C Hne) as (w & -> & Hw & Hfirst).
  exists w. split; [reflexivity|]. split; [assumption|]. apply Hfirst, Hok.
Qed.

(** ** The entropy selector *)

Lemma dict_incr_counts {K} `{EqDecision K} (d : list (K * Z)) (k : K) :
  Forall (fun c => (1 <= c)%Z) (snd <$> d) ->
  let d' := dict_set d k (default 0 (dict_get d k) + 1)%Z in
  Forall (fun c => (1 <= c)%Z) (snd <$> d') /\
  Zsum (snd <$> d') = (Zsum (snd <$> d) + 1)%Z.
Proof.
  induction d as [|[k' v'] d IH]; intros Hd; cbn [dict_set dict_get].
  - simpl. split; [constructor; [lia | constructor] | lia].
  - apply Forall_cons in Hd as [Hv Hd]. simpl in Hv.
    destruct (decide (k' = k)) as [->|Hne].
    + cbn. split; [constructor; [lia | assumption] | unfold Zsum; lia].
    + destruct (IH Hd) as [IH1 IH2]. cbn [fmap list_fmap snd Zsum foldr] in *.
      split; [constructor; assumption|]. unfold Zsum in *. lia.
Qed.

Lemma Zsum_bound (l : list Z) c :
  Forall (fun c => (1 <= c)%Z) l -> c ∈ l -> (c <= Zsum l)%Z.
Proof.
  induction 1 as [|x l Hx Hl IH]; intros Hin; [inversion Hin|].
  assert (0 <= Zsum l)%Z as Hpos.
  { clear -Hl. induction Hl; simpl; lia. }
  simpl. apply elem_of_cons in Hin as [->|Hin]; [lia|]. specialize (IH Hin). lia.
Qed.

Section EntropyProofs.
Variable log2 : float -> float.

(** The patterns of a five-letter guess against five-letter candidates
    are counted without exception; every count is positive and the
    counts add up to the number of candidates. *)
Lemma pattern_counts_spec guess C : forall d0 : list (string * Z),
  five_letter guess -> Forall five_letter C ->
  Forall (fun c => (1 <= c)%Z) (snd <$> d0) ->
  exists d,
    for_each
      (fun word pattern_counts =>
         pattern ← _feedback guess word;
         Ok (dict_set pattern_counts pattern
               (default 0%Z (dict_get pattern_counts pattern) + 1)%Z))
      C d0 = Ok d /\
    Forall (fun c => (1 <= c)%Z) (snd <$> d) /\
    Zsum (snd <$> d) = (Zsum (snd <$> d0) + Z.of_nat (length C))%Z.
Proof.
  induction C as [|w C IH]; intros d0 Hg HC Hd0.
  - exists d0. split; [reflexivity|]. split; [assumption | simpl; lia].
  - apply Forall_cons in HC as [Hw HC]. cbn [for_each].
    destruct (feedback_five guess w Hg Hw) as [fb ->]. cbn [mbind result_bind].
    destruct (dict_incr_counts d0 fb Hd0) as [H1 H2].
    destruct (IH _ Hg HC H1) as (d & -> & Hd & Hsum).
    exists d. split; [reflexivity|]. split; [assumption|].
    rewrite Hsum, H2. simpl length. lia.
Qed.

Lemma entropy_sum_ok (counts : list Z) (total : Z) : forall entropy,
  (total < 9223372036854775808)%Z ->
  Forall (fun c => (1 <= c <= total)%Z) counts ->
  exists e,
    for_each
      (fun count entropy =>
         p ← int_truediv count total;
         l ← math_log2 log2 p;
         Ok (fsub entropy (fmul p l)))
      counts entropy = Ok e.
Proof.
  induction counts as [|c counts IH]; intros entropy Ht Hc.
  - eexists. reflexivity.
  - apply Forall_cons in Hc as [Hc Hcs]. cbn [for_each].
    destruct (int_truediv_ratio c total) as (-> & _ & Hpos); [lia..|].
    cbn [mbind result_bind]. unfold math_log2. rewrite Hpos by lia.
    cbn [mbind result_bind]. apply IH; assumption.
Qed.

Lemma calculate_entropy_ok guess C :
  five_letter guess -> Forall five_letter C -> list_fits C ->
  exists e, calculate_entropy log2 guess C = Ok e.
Proof.
  intros Hg HC Hfit. unfold calculate_entropy.
  destruct (pattern_counts_spec guess C [] Hg HC) as (d & -> & Hd & Hsum);
    [constructor|].
  cbn [mbind result_bind]. apply entropy_sum_ok; [exact Hfit|].
  change (Zsum (snd <$> [])) with 0%Z in Hsum. rewrite Z.add_0_l in Hsum.
  rewrite Forall_forall in *. intros c Hc. split; [auto|].
  rewrite <- Hsum. apply Zsum_bound; [rewrite Forall_forall|]; auto.
Qed.

(** The entropy selector returns one of the candidates. *)
Lemma select_best_entropy_word_elem C :
  C <> [] -> Forall five_letter C -> list_fits C ->
  exists w, select_best_entropy_word log2 C = Ok w /\ w ∈ C.
Proof.
  intros Hne HC Hfit. unfold select_best_entropy_word.
  set (val := fun w => match calculate_entropy log2 w C with
                       | Ok e => e | Raise _ => f_zero end).
  rewrite (for_each_dict _ val).
  2:{ intros w Hw. rewrite Forall_forall in HC.
      destruct (calculate_entropy_ok w C (HC w Hw)) as [e He];
        [rewrite Forall_forall; assumption | assumption |].
      unfold val. rewrite He. reflexivity. }
  cbn [mbind result_bind]. rewrite max_by_value_entry.
  destruct (max_dict_of val C Hne) as (w & -> & Hw & _). eauto.
Qed.

(** ** The elimination loop *)

Lemma filter_remaining_keeps guess fb R : forall R' a,
  filter_remaining guess fb R = Ok R' -> _feedback guess a = Ok fb ->
  a ∈ R -> a ∈ R'.
Proof.
  induction R as [|w R IH]; intros R' a Hf Ha Hin; [inversion Hin|].
  cbn [filter_remaining] in Hf.
  apply bind_Ok in Hf as (fw & Hfw & Hf). apply bind_Ok in Hf as (rest & Hrest & Hf).
  injection Hf as <-. apply elem_of_cons in Hin as [->|Hin].
  - rewrite Ha in Hfw. injection Hfw as <-. rewrite decide_True by reflexivity. left.
  - specialize (IH _ _ Hrest Ha Hin). destruct (decide (fw = fb)); [right|]; assumption.
Qed.

Lemma filter_remaining_elem guess fb R : forall R',
  filter_remaining guess fb R = Ok R' ->
  forall w, w ∈ R' <-> w ∈ R /\ _feedback guess w = Ok fb.
Proof.
  induction R as [|w0 R IH]; intros R' Hf w; cbn [filter_remaining] in Hf.
  - injection Hf as <-. split; [intros H; inversion H | intros [H _]; inversion H].
  - apply bind_Ok in Hf as (fw & Hfw & Hf). apply bind_Ok in Hf as (rest & Hrest & Hf).
    injection Hf as <-. specialize (IH _ Hrest w).
    destruct (decide (fw = fb)) as [->|Hne]; rewrite ?elem_of_cons, IH.
    + split; [intros [->|[? ?]]; auto | intros [[->|?] ?]; auto].
    + split; [intros [? ?]; auto | intros [[->|?] ?]; [congruence | auto]].
Qed.

Lemma non_increasing_singleton x : non_increasing [x].
Proof. intros [|i] a b Ha Hb; discriminate. Qed.

Lemma non_increasing_cons x y l :
  y <= x -> non_increasing (y :: l) -> non_increasing (x :: y :: l).
Proof.
  intros Hxy Hl [|i] a b Ha Hb.
  - simpl in Ha, Hb. congruence.
  - apply (Hl i); assumption.
Qed.

(** One turn on a non-empty set of five-letter candidates: the guess is
    one of them, and the new set is the old one filtered by the feedback
    of the guess against the answer. *)
Lemma loop_body_spec a st :
  remaining st <> [] -> Forall five_letter (remaining st) ->
  list_fits (remaining st) -> five_letter a ->
  exists guess fb,
    guess ∈ remaining st /\ _feedback guess a = Ok fb /\
    let R' := filter (fun w => _feedback guess w = Ok fb) (remaining st) in
    loop_body log2 a st =
      Ok ({| remaining := R';
             attempts := attempts st ++ [guess];
             printed := printed st ++
               [{| line_number := length (attempts st ++ [guess]);
                   line_guess := guess;
                   line_feedback := fb;
                   line_remaining := length R' |}] |},
          bool_decide (guess = a) || bool_decide (R' = [])).
Proof.
  intros Hne H5 Hfit Ha. unfold loop_body.
  assert (exists guess,
             match attempts st with
             | [] => select_initial_word (remaining st)
             | _ :: _ => select_best_entropy_word log2 (remaining st)
             end = Ok guess /\ guess ∈ remaining st) as (guess & -> & Hg).
  { destruct (attempts st).
    - destruct (select_initial_word_spec _ Hne H5 Hfit) as (_ & w & ? & ? & _); eauto.
    - apply select_best_entropy_word_elem; assumption. }
  assert (five_letter guess) as Hg5 by (rewrite Forall_forall in H5; auto).
  destruct (feedback_five guess a Hg5 Ha) as [fb Hfb].
  exists guess, fb. split; [assumption|]. split; [assumption|].
  cbn [mbind result_bind]. rewrite Hfb. cbn [mbind result_bind].
  rewrite (filter_remaining_filter guess fb _ Hg5 H5). reflexivity.
Qed.

(** The loop ends within as many turns as there are candidates. *)
Lemma while_true_terminates a : forall fuel st,
  five_letter a ->
  length (remaining st) <= fuel -> remaining st <> [] ->
  Forall five_letter (remaining st) -> list_fits (remaining st) ->
  exists st', while_true log2 fuel a st = Some (Ok st') /\ loop_outcome a st st'.
Proof.
  induction fuel as [|fuel IH]; intros st Ha Hlen Hne H5 Hfit.
  - destruct (remaining st); [congruence | simpl in Hlen; lia].
  - destruct (loop_body_spec a st Hne H5 Hfit Ha) as (guess & fb & Hg & Hfb & Hbody).
    cbn [while_true]. rewrite Hbody. clear Hbody.
    set (R' := filter (fun w => _feedback guess w = Ok fb) (remaining st)).
    set (line := {| line_number := length (attempts st ++ [guess]);
                    line_guess := guess; line_feedback := fb;
                    line_remaining := length R' |}).
    set (st1 := {| remaining := R'; attempts := attempts st ++ [guess];
                   printed := printed st ++ [line] |}).
    assert (length R' <= length (remaining st)) as HR' by apply length_filter.
    assert (five_letter guess) as Hg5 by (rewrite Forall_forall in H5; auto).
    assert (a ∈ remaining st -> a ∈ R') as Hkeep.
    { intros Hin. apply list_elem_of_filter. auto. }
    destruct (bool_decide (guess = a) || bool_decide (R' = [])) eqn:Hbrk.
    + exists st1. split; [reflexivity|].
      exists [guess], [line].
      split; [reflexivity|]. split; [reflexivity|]. split; [discriminate|].
      split. { simpl. destruct (remaining st); [congruence | simpl; lia]. }
      split. { constructor; [assumption | constructor]. }
      split; [reflexivity|].
      split. { apply non_increasing_cons; [exact HR' | apply non_increasing_singleton]. }
      split; [reflexivity|].
      apply orb_prop in Hbrk. split.
      * intros Hin. specialize (Hkeep Hin). split; [|exact Hkeep].
        destruct Hbrk as [Hb|Hb]; apply bool_decide_eq_true in Hb.
        -- subst. reflexivity.
        -- rewrite Hb in Hkeep. inversion Hkeep.
      * intros Hnin. destruct Hbrk as [Hb|Hb]; apply bool_decide_eq_true in Hb.
        -- subst. contradiction.
        -- exact Hb.
    + apply orb_false_elim in Hbrk as [Hb1 Hb2].
      apply bool_decide_eq_false in Hb1. apply bool_decide_eq_false in Hb2.
      assert (length R' < length (remaining st)) as Hlt.
      { apply (length_filter_lt _ _ guess); [assumption|].
        rewrite (feedback_self guess Hg5). intros E. injection E as <-.
        apply Hb1, feedback_all_green_eq; assumption. }
      assert (Forall five_letter R') as H5'.
      { rewrite Forall_forall in *. intros w Hw.
        apply list_elem_of_filter in Hw as [_ Hw]. auto. }
      destruct (IH st1 Ha) as (st' & Hrun & Hout); try assumption.
      { simpl. lia. }
      { unfold list_fits in *. simpl. lia. }
      exists st'. split; [assumption|].
      destruct Hout as (na & nl & E1 & E2 & Hna & Hlen' & Hin & Hgs & Hmono & Hlast & Hyes & Hno).
      simpl in E1, E2, Hlen', Hin, Hmono, Hlast, Hyes, Hno.
      exists (guess :: na), (line :: nl).
      split. { rewrite E1, <- app_assoc. reflexivity. }
      split. { rewrite E2, <- app_assoc. reflexivity. }
      split; [discriminate|].
      split. { simpl. lia. }
      split.
      { constructor; [assumption|]. rewrite Forall_forall in *. intros w Hw.
        specialize (Hin w Hw). apply list_elem_of_filter in Hin as [_ Hin]. exact Hin. }
      split. { rewrite <- Hgs. reflexivity. }
      split. { apply non_increasing_cons; assumption. }
      split; [exact Hlast|].
      split.
      * intros Hin'. destruct (Hyes (Hkeep Hin')) as [Hl Hr]. split; [|exact Hr].
        destruct na; [congruence | exact Hl].
      * intros Hnin. apply Hno. intros Hin'.
        apply list_elem_of_filter in Hin' as [_ Hin']. contradiction.
Qed.

(** More fuel does not change the outcome of a loop that ended. *)
Lemma while_true_more_fuel a : forall fuel fuel' st r,
  while_true log2 fuel a st = Some r -> fuel <= fuel' ->
  while_true log2 fuel' a st = Some r.
Proof.
  induction fuel as [|fuel IH]; intros fuel' st r Hrun Hle; [discriminate|].
  destruct fuel' as [|fuel']; [lia|]. cbn [while_true] in *.
  destruct (loop_body log2 a st) as [[st1 []]|e]; auto.
  apply IH; [assumption | lia].
Qed.

(** A turn of the loop keeps the answer among the candidates. *)
Lemma loop_turn_keeps a st st' :
  loop_turn log2 a st st' -> a ∈ remaining st -> a ∈ remaining st'.
Proof.
  intros [b Hbody] Hin. unfold loop_body in Hbody.
  apply bind_Ok in Hbody as (guess & _ & Hbody).
  apply bind_Ok in Hbody as (fb & Hfb & Hbody).
  apply bind_Ok in Hbody as (R' & HR' & Hbody).
  injection Hbody as <- _. simpl.
  eapply filter_remaining_keeps; eassumption.
Qed.

Lemma loop_turns_keep a st st' :
  rtc (loop_turn log2 a) st st' -> a ∈ remaining st -> a ∈ remaining st'.
Proof.
  induction 1 as [|st st1 st2 Hturn _ IH]; [auto|].
  intros Hin. apply IH. eapply loop_turn_keeps; eassumption.
Qed.

(** The run from the initial state. *)
Lemma run_wordle_terminates C a :
  five_letter a -> C <> [] -> Forall five_letter C -> list_fits C ->
  exists st,
    (forall fuel, length C <= fuel -> run_wordle log2 fuel C a = Some (Ok st)) /\
    loop_outcome a (initial_state C) st.
Proof.
  intros Ha Hne H5 Hfit.
  destruct (while_true_terminates a (length C) (initial_state C) Ha)
    as (st & Hrun & Hout); auto.
  exists st. split; [|assumption]. intros fuel Hfuel.
  unfold run_wordle. eapply while_true_more_fuel; eassumption.
Qed.

Lemma solve_wordle_run fuel C a st :
  run_wordle log2 fuel C a = Some (Ok st) ->
  solve_wordle log2 fuel C a = Some (Ok (attempts st)).
Proof. unfold solve_wordle. intros ->. reflexivity. Qed.

Lemma run_wordle_empty fuel a :
  run_wordle log2 (S fuel) [] a = Some (Raise ValueError).
Proof. reflexivity. Qed.
End EntropyProofs.

(** ** Claims on the selectors *)

(** C7, as the code has it: for every non-empty list [C] of five-letter
    words (short enough to be a Python list), [select_initial_word C]
    returns the first word of [C], in input order, attaining the maximum
    of the score computed in binary64 arithmetic: starting from [0.0] and
    scanning the word from left to right, each position adds the rounded
    quotient of the number of words with that letter there by [|C|], and
    the first occurrence of each letter adds [0.5] times the rounded
    quotient of (the number of words having the letter minus the number
    having it there) by [|C|], every sum being rounded in its turn. No
    such score is NaN or negative, so that they are totally ordered. *)
Theorem select_initial_word_first_maximum (C : list string) :
  C <> [] -> Forall five_letter C -> list_fits C ->
  Forall (fun w => fok (frequency_score C w)) C /\
  exists w, select_initial_word C = Ok w /\
            first_maximum (frequency_score C) C w.
Proof.
  intros Hne H5 Hfit.
  destruct (select_initial_word_spec C Hne H5 Hfit) as (Hok & w & Hsel & _ & Hmax).
  eauto.
Qed.

Lemma select_initial_word_first_maximum_witness :
  Forall (fun w => fok (frequency_score ["SLATE"; "CRANE"; "TRACE"] w))
    ["SLATE"; "CRANE"; "TRACE"] /\
  exists w, select_initial_word ["SLATE"; "CRANE"; "TRACE"] = Ok w /\
            first_maximum (frequency_score ["SLATE"; "CRANE"; "TRACE"])
              ["SLATE"; "CRANE"; "TRACE"] w.
Proof.
  apply (select_initial_word_first_maximum ["SLATE"; "CRANE"; "TRACE"]);
    [discriminate | repeat constructor | reflexivity].
Defined.

(** C7, as stated, fails: the three words of this list have the same
    exact score, [11/3], so that the first word attaining the maximum is
    ["BBAAB"]; their binary64 scores differ in the last bit, and the code
    returns ["ABBBB"]. *)
Lemma select_initial_word_rounding_breaks_tie :
  Forall (fun w => (exact_score ["BBAAB"; "ABBBB"; "AABAB"] w == 11 # 3)%Q)
    ["BBAAB"; "ABBBB"; "AABAB"] /\
  first_maximum_exact (exact_score ["BBAAB"; "ABBBB"; "AABAB"])
    ["BBAAB"; "ABBBB"; "AABAB"] "BBAAB" /\
  select_initial_word ["BBAAB"; "ABBBB"; "AABAB"] = Ok "ABBBB" /\
  ~ first_maximum_exact (exact_score ["BBAAB"; "ABBBB"; "AABAB"])
      ["BBAAB"; "ABBBB"; "AABAB"] "ABBBB".
Proof.
  split; [repeat constructor|]. split; [|split].
  - exists 0. split; [reflexivity|]. split; [|intros j w' Hj; lia].
    intros w' Hw'.
    repeat (apply elem_of_cons in Hw' as [->|Hw']; [vm_compute; discriminate|]).
    inversion Hw'.
  - vm_compute. reflexivity.
  - intros (i & Hi & _ & Hbefore).
    destruct i as [|[|[|i]]]; try discriminate Hi.
    specialize (Hbefore 0 "BBAAB" ltac:(lia) eq_refl).
    vm_compute in Hbefore. discriminate Hbefore.
Qed.

(** C8: on an empty candidate list both selectors fail at once with an
    exception (the ValueError of [max] on an empty dict); neither returns
    a word. *)
Theorem selectors_reject_empty (log2 : float -> float) :
  select_initial_word [] = Raise ValueError /\
  select_best_entropy_word log2 [] = Raise ValueError.
Proof. split; reflexivity. Qed.

(** ** Claims on the elimination loop *)

(** C1: when the answer is among the five-letter candidates, [solve_wordle]
    ends (within as many turns as there are candidates), the last attempt
    is the answer, and the numbers of remaining candidates printed turn
    after turn never increase, starting from the size of the list. *)
Theorem solve_wordle_finds_answer (log2 : float -> float)
    (C : list string) (a : string) :
  Forall five_letter C -> list_fits C -> a ∈ C ->
  exists st,
    (forall fuel, length C <= fuel ->
       run_wordle log2 fuel C a = Some (Ok st) /\
       solve_wordle log2 fuel C a = Some (Ok (attempts st))) /\
    last (attempts st) = Some a /\
    line_guess <$> printed st = attempts st /\
    non_increasing (length C :: (line_remaining <$> printed st)).
Proof.
  intros H5 Hfit Hin.
  assert (five_letter a) as Ha by (rewrite Forall_forall in H5; auto).
  assert (C <> []) as Hne by (intros ->; inversion Hin).
  destruct (run_wordle_terminates log2 C a Ha Hne H5 Hfit) as (st & Hrun & Hout).
  destruct Hout as (na & nl & E1 & E2 & _ & _ & _ & Hgs & Hmono & _ & Hyes & _).
  simpl in E1, E2, Hmono, Hyes. subst na nl.
  exists st. split.
  - intros fuel Hfuel. split; [auto|]. apply solve_wordle_run. auto.
  - destruct (Hyes Hin) as [Hlast _]. auto.
Qed.

Lemma solve_wordle_finds_answer_witness :
  exists st,
    (forall fuel, length ["CRANE"; "SLATE"; "TRACE"; "CRATE"; "GRATE"] <= fuel ->
       run_wordle log2_trunc fuel ["CRANE"; "SLATE"; "TRACE"; "CRATE"; "GRATE"] "GRATE"
         = Some (Ok st) /\
       solve_wordle log2_trunc fuel ["CRANE"; "SLATE"; "TRACE"; "CRATE"; "GRATE"] "GRATE"
         = Some (Ok (attempts st))) /\
    last (attempts st) = Some "GRATE" /\
    line_guess <$> printed st = attempts st /\
    non_increasing (length ["CRANE"; "SLATE"; "TRACE"; "CRATE"; "GRATE"]
                      :: (line_remaining <$> printed st)).
Proof.
  apply (solve_wordle_finds_answer log2_trunc
           ["CRANE"; "SLATE"; "TRACE"; "CRATE"; "GRATE"] "GRATE");
    [repeat constructor | reflexivity | repeat constructor].
Defined.

(** C2: filtering a candidate list by the feedback of any guess against
    an answer of the list keeps the answer: the filtered list has exactly
    the words whose feedback equals that of the answer, the answer among
    them; so the answer is in the candidate set of every state the loop
    reaches from a list containing it. *)
Theorem filter_keeps_answer (log2 : float -> float)
    (g : string) (C : list string) (a : string) :
  a ∈ C ->
  (forall fb C',
     _feedback g a = Ok fb -> filter_remaining g fb C = Ok C' ->
     a ∈ C' /\ forall w, w ∈ C' <-> w ∈ C /\ _feedback g w = Ok fb) /\
  (five_letter g -> Forall five_letter C ->
   exists fb, _feedback g a = Ok fb /\
              filter_remaining g fb C =
                Ok (filter (fun w => _feedback g w = Ok fb) C)) /\
  (forall st, rtc (loop_turn log2 a) (initial_state C) st -> a ∈ remaining st).
Proof.
  intros Hin. split; [|split].
  - intros fb C' Hfb Hfilter. split.
    + eapply filter_remaining_keeps; eassumption.
    + apply filter_remaining_elem. assumption.
  - intros Hg H5.
    assert (five_letter a) as Ha by (rewrite Forall_forall in H5; auto).
    destruct (feedback_five g a Hg Ha) as [fb Hfb].
    exists fb. split; [assumption|]. apply filter_remaining_filter; assumption.
  - intros st Hrtc. eapply loop_turns_keep; [exact Hrtc | exact Hin].
Qed.

Lemma filter_keeps_answer_witness :
  (forall fb C',
     _feedback "SLATE" "GRATE" = Ok fb ->
     filter_remaining "SLATE" fb ["CRANE"; "GRATE"; "PLATE"] = Ok C' ->
     "GRATE" ∈ C' /\
     forall w, w ∈ C' <->
               w ∈ ["CRANE"; "GRATE"; "PLATE"] /\ _feedback "SLATE" w = Ok fb) /\
  (five_letter "SLATE" -> Forall five_letter ["CRANE"; "GRATE"; "PLATE"] ->
   exists fb, _feedback "SLATE" "GRATE" = Ok fb /\
              filter_remaining "SLATE" fb ["CRANE"; "GRATE"; "PLATE"] =
                Ok (filter (fun w => _feedback "SLATE" w = Ok fb)
                      ["CRANE"; "GRATE"; "PLATE"])) /\
  (forall st,
     rtc (loop_turn log2_trunc "GRATE")
       (initial_state ["CRANE"; "GRATE"; "PLATE"]) st ->
     "GRATE" ∈ remaining st).
Proof.
  apply (filter_keeps_answer log2_trunc "SLATE" ["CRANE"; "GRATE"; "PLATE"] "GRATE").
  repeat constructor.
Defined.

(** C5: when the answer is not among the five-letter candidates,
    [solve_wordle] ends within as many turns as there are candidates
    (one turn for none): it leaves the loop with no candidate remaining,
    or, for an empty list, with the ValueError of the initial selector. *)
Theorem solve_wordle_without_answer_terminates (log2 : float -> float)
    (C : list string) (a : string) :
  Forall five_letter C -> list_fits C -> five_letter a -> a ∉ C ->
  exists r,
    (forall fuel, S (length C) <= fuel -> run_wordle log2 fuel C a = Some r) /\
    match r with
    | Ok st => C <> [] /\ remaining st = [] /\
               last (length C :: (line_remaining <$> printed st)) = Some 0 /\
               length (attempts st) <= length C
    | Raise e => C = [] /\ e = ValueError
    end.
Proof.
  intros H5 Hfit Ha Hnin. destruct (decide (C = [])) as [->|Hne].
  - exists (Raise ValueError). split; [|auto].
    intros [|fuel] Hfuel; [simpl in Hfuel; lia | reflexivity].
  - destruct (run_wordle_terminates log2 C a Ha Hne H5 Hfit) as (st & Hrun & Hout).
    destruct Hout as (na & nl & E1 & E2 & _ & Hlen & _ & _ & _ & Hlast & _ & Hno).
    simpl in E1, E2, Hlen, Hlast, Hno. subst na nl.
    exists (Ok st). split; [intros fuel Hfuel; apply Hrun; lia|].
    specialize (Hno Hnin). rewrite Hno in Hlast. auto.
Qed.

Lemma solve_wordle_without_answer_terminates_witness :
  exists r,
    (forall fuel, S (length ["CRANE"; "SLATE"; "TRACE"]) <= fuel ->
       run_wordle log2_trunc fuel ["CRANE"; "SLATE"; "TRACE"] "GRATE" = Some r) /\
    match r with
    | Ok st => ["CRANE"; "SLATE"; "TRACE"] <> [] /\ remaining st = [] /\
               last (length ["CRANE"; "SLATE"; "TRACE"]
                       :: (line_remaining <$> printed st)) = Some 0 /\
               length (attempts st) <= length ["CRANE"; "SLATE"; "TRACE"]
    | Raise e => ["CRANE"; "SLATE"; "TRACE"] = [] /\ e = ValueError
    end.
Proof.
  apply (solve_wordle_without_answer_terminates log2_trunc
           ["CRANE"; "SLATE"; "TRACE"] "GRATE");
    [repeat constructor | reflexivity | reflexivity |].
  intros H. repeat (apply elem_of_cons in H as [H|H]; [discriminate H|]).
  inversion H.
Defined.

(** * Further properties *)

(** ** The two passes of [_feedback] as functions on lists *)

Lemma drop_succ_of {A} (l : list A) i x k :
  drop i l = x :: k -> l !! i = Some x /\ drop (S i) l = k.
Proof.
  intros H. split.
  - rewrite <- (Nat.add_0_r i), <- lookup_drop, H. reflexivity.
  - replace (S i) with (i + 1) by lia. rewrite <- drop_drop, H. reflexivity.
Qed.

Lemma green_pass_marks answer l : forall i fb rem,
  length fb = 5 -> i + length l <= 5 -> i + length l <= length (chars answer) ->
  length rem = length (chars answer) ->
  drop i rem = Some <$> drop i (chars answer) ->
  for_enumerate (green_step answer) i l (fb, rem) =
    Ok (take i fb ++ green_marks l (drop i (chars answer)) (drop i fb),
        take i rem ++ green_rem l (drop i (chars answer))).
Proof.
  induction l as [|g l IH]; intros i fb rem Hfb H5 Ha Hrem Hdrop.
  - cbn [for_enumerate green_marks green_rem]. rewrite <- Hdrop, !take_drop.
    reflexivity.
  - simpl in H5, Ha.
    destruct (lookup_lt_is_Some_2 (chars answer) i ltac:(lia)) as [a Hai].
    destruct (lookup_lt_is_Some_2 fb i ltac:(lia)) as [f Hfi].
    rewrite (drop_S _ _ _ Hai) in *. rewrite (drop_S _ _ _ Hfi).
    rewrite fmap_cons in Hdrop. apply drop_succ_of in Hdrop as [Hri Hdrop'].
    cbn [green_marks green_rem]. destruct (decide (g = a)) as [->|Hne].
    + rewrite (for_enumerate_cons _ _ _ _ _ _
                 (green_step_hit _ _ _ fb rem Hai ltac:(lia) ltac:(lia))).
      rewrite IH; rewrite ?length_insert; try lia.
      2:{ rewrite drop_insert_lt by lia. exact Hdrop'. }
      rewrite bool_decide_eq_true_2 by reflexivity.
      rewrite !drop_insert_lt by lia.
      rewrite (take_S_r (<[i:="G"%char]> fb) i "G"%char)
        by (apply list_lookup_insert_eq; lia).
      rewrite (take_S_r (<[i:=None]> rem) i None)
        by (apply list_lookup_insert_eq; lia).
      rewrite !take_insert_ge by lia. rewrite <- !app_assoc. reflexivity.
    + rewrite (for_enumerate_cons _ _ _ _ _ _
                 (green_step_miss _ _ _ _ (fb, rem) Hai Hne)).
      rewrite IH by (try lia; assumption).
      rewrite bool_decide_eq_false_2 by assumption.
      rewrite (take_S_r fb i f Hfi), (take_S_r rem i (Some a) Hri).
      rewrite <- !app_assoc. reflexivity.
Qed.

Lemma omap_index_remove (rem : list (option ascii)) g : forall j,
  list_index rem (Some g) = Ok j ->
  omap id (<[j:=None]> rem) = remove_first g (omap id rem).
Proof.
  induction rem as [|y rem IH]; intros j Hj; [discriminate|].
  cbn [list_index] in Hj. destruct (decide (y = Some g)) as [->|Hne].
  - injection Hj as <-. simpl. rewrite bool_decide_eq_true_2 by reflexivity.
    reflexivity.
  - apply bind_Ok in Hj as (j' & Hj' & Hj). injection Hj as <-.
    specialize (IH _ Hj'). destruct y as [c|]; simpl.
    + rewrite bool_decide_eq_false_2 by congruence.
      f_equal. exact IH.
    + exact IH.
Qed.

Lemma yellow_step_hit i g fb rem :
  fb !! i = Some "B"%char -> Some g ∈ rem ->
  exists j, list_index rem (Some g) = Ok j /\
            yellow_step i g (fb, rem) = Ok (<[i:="Y"%char]> fb, <[j:=None]> rem).
Proof.
  intros Hf Hin. destruct (list_index_Ok rem (Some g) Hin) as (j & Hj & Hlt).
  exists j. split; [assumption|]. unfold yellow_step.
  rewrite (list_get_Ok _ _ _ Hf). cbn [mbind result_bind].
  rewrite !bool_decide_eq_true_2 by auto. cbn [andb].
  rewrite list_set_Ok by (eapply lookup_lt_Some; eassumption).
  cbn [mbind result_bind]. rewrite Hj. cbn [mbind result_bind].
  rewrite list_set_Ok by assumption. reflexivity.
Qed.

Lemma yellow_step_miss i g f fb rem :
  fb !! i = Some f -> ~ (f = "B"%char /\ Some g ∈ rem) ->
  yellow_step i g (fb, rem) = Ok (fb, rem).
Proof.
  intros Hf Hno. unfold yellow_step.
  rewrite (list_get_Ok _ _ _ Hf). cbn [mbind result_bind].
  destruct (bool_decide (f = "B"%char) && bool_decide (Some g ∈ rem)) eqn:E;
    [|reflexivity].
  apply andb_prop in E as [E1 E2].
  apply bool_decide_eq_true in E1. apply bool_decide_eq_true in E2. tauto.
Qed.

Lemma elem_of_omap_id (rem : list (option ascii)) g :
  g ∈ omap id rem <-> Some g ∈ rem.
Proof.
  rewrite list_elem_of_omap. split.
  - intros (x & Hx & E). simpl in E. subst x. assumption.
  - intros H. exists (Some g). auto.
Qed.

Lemma yellow_pass_marks l : forall i fb rem,
  i + length l <= length fb ->
  exists rem',
    for_enumerate yellow_step i l (fb, rem) =
      Ok (take i fb ++ yellow_marks (omap id rem) l (drop i fb), rem').
Proof.
  induction l as [|g l IH]; intros i fb rem Hi.
  - exists rem. cbn [for_enumerate yellow_marks]. rewrite take_drop. reflexivity.
  - simpl in Hi.
    destruct (lookup_lt_is_Some_2 fb i ltac:(lia)) as [f Hf].
    rewrite (drop_S _ _ _ Hf). cbn [yellow_marks].
    destruct (bool_decide (f = "B"%char) && bool_decide (g ∈ omap id rem)) eqn:E.
    + apply andb_prop in E as [E1 E2].
      apply bool_decide_eq_true in E1. apply bool_decide_eq_true in E2. subst f.
      apply elem_of_omap_id in E2.
      destruct (yellow_step_hit i g fb rem Hf E2) as (j & Hj & Hstep).
      rewrite (for_enumerate_cons _ _ _ _ _ _ Hstep).
      destruct (IH (S i) (<[i:="Y"%char]> fb) (<[j:=None]> rem)) as [rem' ->];
        [rewrite length_insert; lia|].
      exists rem'. rewrite (omap_index_remove _ _ _ Hj).
      rewrite drop_insert_lt by lia.
      rewrite (take_S_r (<[i:="Y"%char]> fb) i "Y"%char)
        by (apply list_lookup_insert_eq; lia).
      rewrite take_insert_ge by lia. rewrite <- app_assoc. reflexivity.
    + assert (~ (f = "B"%char /\ Some g ∈ rem)) as Hno.
      { intros [-> Hin]. apply elem_of_omap_id in Hin.
        rewrite !bool_decide_eq_true_2 in E by auto. discriminate. }
      rewrite (for_enumerate_cons _ _ _ _ _ _ (yellow_step_miss i g f fb rem Hf Hno)).
      destruct (IH (S i) fb rem) as [rem' ->]; [lia|].
      exists rem'. rewrite (take_S_r fb i f Hf), <- app_assoc. reflexivity.
Qed.

Lemma green_marks_length gs : forall as_ fs,
  length (green_marks gs as_ fs) = length fs.
Proof.
  induction gs as [|g gs IH]; intros [|a as_] [|f fs]; simpl; auto.
Qed.

Lemma yellow_marks_length gs : forall pool fs,
  length (yellow_marks pool gs fs) = length fs.
Proof.
  induction gs as [|g gs IH]; intros pool [|f fs]; simpl; auto.
  destruct (_ && _); simpl; auto.
Qed.

(** On a guess of at most five letters that is no longer than the answer,
    the buffers of [_feedback] end up holding what the two passes
    compute as functions on lists. *)
Lemma feedback_as_marks guess answer :
  length (chars guess) <= 5 -> length (chars guess) <= length (chars answer) ->
  _feedback guess answer =
    Ok (string_of_list_ascii (feedback_marks (chars guess) (chars answer))).
Proof.
  intros H5 Ha. unfold _feedback.
  rewrite (green_pass_marks answer (chars guess) 0);
    [| first [apply length_replicate | apply length_fmap | reflexivity
              | simpl; lia] ..].
  rewrite !take_0, !drop_0. cbn [mbind result_bind app].
  destruct (yellow_pass_marks (chars guess) 0
              (green_marks (chars guess) (chars answer) (replicate 5 "B"%char))
              (green_rem (chars guess) (chars answer))) as [rem' ->].
  { rewrite green_marks_length, length_replicate. simpl. lia. }
  rewrite take_0, drop_0. reflexivity.
Qed.

Lemma chars_of_list l : chars (string_of_list_ascii l) = l.
Proof. apply list_ascii_of_string_of_list_ascii. Qed.

Lemma green_marks_lookup gs : forall as_ fs i,
  green_marks gs as_ fs !! i =
  f ← fs !! i;
  Some (if bool_decide (is_Some (gs !! i) /\ gs !! i = as_ !! i)
        then "G"%char else f).
Proof.
  induction gs as [|g gs IH]; intros as_ fs i.
  - cbn [green_marks]. rewrite lookup_nil.
    rewrite bool_decide_eq_false_2 by (intros [[x Hx] _]; discriminate).
    destruct (fs !! i); reflexivity.
  - destruct as_ as [|a as_].
    { cbn [green_marks]. rewrite (lookup_nil (A:=ascii)).
      rewrite bool_decide_eq_false_2
        by (intros [[x Hx] E]; rewrite Hx in E; discriminate).
      destruct (fs !! i); reflexivity. }
    destruct fs as [|f fs]; [reflexivity|].
    cbn [green_marks]. destruct i as [|i]; simpl.
    + destruct (decide (g = a)) as [->|Hne].
      * rewrite !bool_decide_eq_true_2; eauto.
      * rewrite !bool_decide_eq_false_2; [reflexivity | | assumption].
        intros [_ E]. congruence.
    + apply IH.
Qed.

Lemma green_marks_symbols gs : forall as_ fs,
  Forall (fun f => f = "G"%char \/ f = "B"%char) fs ->
  Forall (fun f => f = "G"%char \/ f = "B"%char) (green_marks gs as_ fs).
Proof.
  induction gs as [|g gs IH]; intros [|a as_] fs Hfs; try exact Hfs.
  destruct Hfs as [|f fs Hf Hfs]; [constructor|]. cbn [green_marks].
  constructor; [|apply IH; assumption].
  case_bool_decide; auto.
Qed.

Lemma remove_first_subseteq x pool y : y ∈ remove_first x pool -> y ∈ pool.
Proof.
  induction pool as [|z pool IH]; simpl; [auto|].
  case_bool_decide; [right; assumption|].
  rewrite !elem_of_cons. intuition.
Qed.

Lemma green_rem_subseteq gs : forall as_ x,
  x ∈ omap id (green_rem gs as_) -> x ∈ as_.
Proof.
  induction gs as [|g gs IH]; intros as_ x Hx.
  - cbn [green_rem] in Hx. apply elem_of_omap_id in Hx.
    apply list_elem_of_fmap in Hx as (y & E & Hy). congruence.
  - destruct as_ as [|a as_]; [inversion Hx|]. cbn [green_rem] in Hx.
    case_bool_decide; simpl in Hx.
    + right. apply IH. assumption.
    + apply elem_of_cons in Hx as [->|Hx]; [left | right; apply IH; assumption].
Qed.

Lemma yellow_marks_symbols gs : forall pool fs,
  Forall (fun f => f = "G"%char \/ f = "B"%char) fs ->
  Forall (fun f => f = "G"%char \/ f = "Y"%char \/ f = "B"%char)
         (yellow_marks pool gs fs).
Proof.
  induction gs as [|g gs IH]; intros pool fs Hfs.
  - cbn [yellow_marks]. eapply Forall_impl; [exact Hfs|].
    intros x [?|?]; auto.
  - destruct Hfs as [|f fs Hf Hfs]; [constructor|]. cbn [yellow_marks].
    destruct (_ && _); constructor; auto. destruct Hf; auto.
Qed.

(** A position beyond the guess, or holding a letter that is not in the
    pool, keeps its mark in the second pass. *)
Lemma yellow_marks_untouched gs : forall pool fs i,
  (forall g, gs !! i = Some g -> g ∉ pool) ->
  yellow_marks pool gs fs !! i = fs !! i.
Proof.
  induction gs as [|g gs IH]; intros pool fs i Hg; [reflexivity|].
  destruct fs as [|f fs]; [reflexivity|]. cbn [yellow_marks].
  destruct i as [|i].
  - rewrite (bool_decide_eq_false_2 (g ∈ pool)) by (apply Hg; reflexivity).
    rewrite andb_false_r. reflexivity.
  - destruct (_ && _); simpl; apply IH; intros g' Hg'; [|auto].
    intros Hin. apply (Hg g' Hg'). eapply remove_first_subseteq; eassumption.
Qed.

(** A ['Y'] is written only over a ['B'], for a letter of the pool. *)
Lemma yellow_marks_Y gs : forall pool fs i,
  Forall (fun f => f = "G"%char \/ f = "B"%char) fs ->
  yellow_marks pool gs fs !! i = Some "Y"%char ->
  fs !! i = Some "B"%char /\ exists g, gs !! i = Some g /\ g ∈ pool.
Proof.
  induction gs as [|g gs IH]; intros pool fs i Hfs HY.
  - cbn [yellow_marks] in HY. rewrite Forall_forall in Hfs.
    apply list_elem_of_lookup_2 in HY. destruct (Hfs _ HY); discriminate.
  - destruct Hfs as [|f fs Hf Hfs]; [discriminate|]. cbn [yellow_marks] in HY.
    destruct (bool_decide (f = "B"%char) && bool_decide (g ∈ pool)) eqn:E.
    + apply andb_prop in E as [E1 E2].
      apply bool_decide_eq_true in E1. apply bool_decide_eq_true in E2.
      destruct i as [|i]; simpl in *.
      * subst. eauto.
      * destruct (IH _ _ _ Hfs HY) as (HB & g' & Hg' & Hin).
        split; [assumption|]. exists g'. split; [assumption|].
        eapply remove_first_subseteq; eassumption.
    + destruct i as [|i]; simpl in *.
      * injection HY as ->. destruct Hf; discriminate.
      * apply IH; assumption.
Qed.

(** ** Counting marks and letters *)

Lemma occurrences_cons ch x l :
  occurrences ch (x :: l) =
  (if bool_decide (x = ch) then 1 else 0) + occurrences ch l.
Proof.
  unfold occurrences. rewrite filter_cons. case_bool_decide.
  - rewrite decide_True by assumption. reflexivity.
  - rewrite decide_False by assumption. reflexivity.
Qed.

Lemma occurrences_not_in x pool : x ∉ pool -> occurrences x pool = 0.
Proof.
  induction pool as [|y pool IH]; intros Hx; [reflexivity|].
  rewrite occurrences_cons. rewrite not_elem_of_cons in Hx. destruct Hx as [Hne Hx].
  rewrite bool_decide_eq_false_2 by congruence. rewrite IH by assumption. reflexivity.
Qed.

Lemma occurrences_remove_first ch x pool :
  x ∈ pool ->
  occurrences ch (remove_first x pool) + (if bool_decide (x = ch) then 1 else 0)
  = occurrences ch pool.
Proof.
  induction pool as [|y pool IH]; intros Hx; [inversion Hx|].
  cbn [remove_first]. rewrite occurrences_cons.
  destruct (decide (y = x)) as [->|Hne].
  - rewrite (bool_decide_eq_true_2 (x = x)) by reflexivity. lia.
  - rewrite (bool_decide_eq_false_2 (y = x)) by assumption.
    rewrite occurrences_cons. apply elem_of_cons in Hx as [->|Hx]; [congruence|].
    specialize (IH Hx). lia.
Qed.

Lemma marked_cons ch g gs f fs :
  marked ch (g :: gs) (f :: fs) =
  (if bool_decide (g = ch /\ f <> "B"%char) then 1 else 0) + marked ch gs fs.
Proof.
  unfold marked. cbn [zip zip_with]. rewrite filter_cons. simpl fst. simpl snd.
  case_bool_decide.
  - rewrite decide_True by assumption. reflexivity.
  - rewrite decide_False by assumption. reflexivity.
Qed.

Lemma blank_cons ch g gs f fs :
  blank ch (g :: gs) (f :: fs) =
  (if bool_decide (g = ch /\ f = "B"%char) then 1 else 0) + blank ch gs fs.
Proof.
  unfold blank. cbn [zip zip_with]. rewrite filter_cons. simpl fst. simpl snd.
  case_bool_decide.
  - rewrite decide_True by assumption. reflexivity.
  - rewrite decide_False by assumption. reflexivity.
Qed.

Lemma marked_nil_r ch gs : marked ch gs [] = 0.
Proof. destruct gs; reflexivity. Qed.

Lemma blank_nil_r ch gs : blank ch gs [] = 0.
Proof. destruct gs; reflexivity. Qed.

(** The second pass marks, among the blank positions holding [ch], as
    many as the pool has copies of [ch], or all of them if they are
    fewer. *)
Lemma yellow_marked ch gs : forall pool fs,
  Forall (fun f => f = "G"%char \/ f = "B"%char) fs ->
  marked ch gs (yellow_marks pool gs fs) =
  marked ch gs fs + Nat.min (blank ch gs fs) (occurrences ch pool).
Proof.
  induction gs as [|g gs IH]; intros pool fs Hfs; [reflexivity|].
  destruct Hfs as [|f fs Hf Hfs].
  { cbn [yellow_marks]. rewrite marked_nil_r, blank_nil_r. reflexivity. }
  cbn [yellow_marks].
  destruct (bool_decide (f = "B"%char) && bool_decide (g ∈ pool)) eqn:E.
  - apply andb_prop in E as [E1 E2].
    apply bool_decide_eq_true in E1. apply bool_decide_eq_true in E2. subst f.
    rewrite !marked_cons, blank_cons, (IH _ _ Hfs).
    pose proof (occurrences_remove_first ch g pool E2) as Hocc.
    destruct (decide (g = ch)) as [->|Hne].
    + rewrite (bool_decide_eq_true_2 (ch = ch)) in Hocc by reflexivity.
      rewrite (bool_decide_eq_true_2 (ch = ch /\ "Y"%char <> "B"%char))
        by (split; [reflexivity | discriminate]).
      rewrite (bool_decide_eq_false_2 (ch = ch /\ "B"%char <> "B"%char))
        by (intros [_ H]; apply H; reflexivity).
      rewrite (bool_decide_eq_true_2 (ch = ch /\ "B"%char = "B"%char)) by auto.
      lia.
    + rewrite (bool_decide_eq_false_2 (g = ch)) in Hocc by assumption.
      rewrite !(bool_decide_eq_false_2 (g = ch /\ _)) by (intros [? _]; contradiction).
      lia.
  - rewrite !marked_cons, blank_cons, (IH _ _ Hfs).
    destruct (decide (g = ch /\ f = "B"%char)) as [[-> ->]|Hno].
    + rewrite (bool_decide_eq_true_2 ("B"%char = "B"%char)) in E by reflexivity.
      cbn [andb] in E. apply bool_decide_eq_false in E.
      rewrite (occurrences_not_in ch pool E). lia.
    + rewrite (bool_decide_eq_false_2 (g = ch /\ f = "B"%char)) by assumption.
      lia.
Qed.

Lemma omap_id_Some (l : list ascii) : omap id (Some <$> l) = l.
Proof.
  induction l as [|x l IH]; [reflexivity|].
  rewrite fmap_cons. cbn [omap list_omap id]. rewrite IH. reflexivity.
Qed.

Lemma omap_id_None (l : list (option ascii)) : omap id (None :: l) = omap id l.
Proof. reflexivity. Qed.

Lemma omap_id_cons (x : ascii) l : omap id (Some x :: l) = x :: omap id l.
Proof. reflexivity. Qed.

(** After the first pass every letter of the guess is marked or blank,
    and every letter of the answer is matched in place or in the pool. *)
Lemma green_counts ch gs : forall as_ fs,
  length gs <= length as_ -> length gs <= length fs ->
  Forall (fun f => f = "B"%char) fs ->
  marked ch gs (green_marks gs as_ fs) + blank ch gs (green_marks gs as_ fs)
    = occurrences ch gs /\
  occurrences ch (omap id (green_rem gs as_)) + marked ch gs (green_marks gs as_ fs)
    = occurrences ch as_.
Proof.
  induction gs as [|g gs IH]; intros as_ fs Ha Hf Hfs.
  - cbn [green_rem]. rewrite omap_id_Some.
    split; [reflexivity | unfold marked; simpl; lia].
  - destruct as_ as [|a as_]; [simpl in Ha; lia|].
    destruct Hfs as [|f fs -> Hfs]; [simpl in Hf; lia|].
    simpl in Ha, Hf. destruct (IH as_ fs) as [IH1 IH2]; [lia | lia | assumption|].
    cbn [green_marks green_rem]. rewrite marked_cons, blank_cons, !occurrences_cons.
    destruct (decide (g = a)) as [->|Hne].
    + rewrite (bool_decide_eq_true_2 (a = a)) by reflexivity. rewrite omap_id_None.
      destruct (decide (a = ch)) as [->|Hch].
      * rewrite (bool_decide_eq_true_2 (ch = ch)) by reflexivity.
        rewrite (bool_decide_eq_true_2 (ch = ch /\ "G"%char <> "B"%char))
          by (split; [reflexivity | discriminate]).
        rewrite (bool_decide_eq_false_2 (ch = ch /\ "G"%char = "B"%char))
          by (intros [_ H]; discriminate).
        lia.
      * rewrite (bool_decide_eq_false_2 (a = ch)) by assumption.
        rewrite !(bool_decide_eq_false_2 (a = ch /\ _)) by (intros [? _]; contradiction).
        lia.
    + rewrite (bool_decide_eq_false_2 (g = a)) by assumption. rewrite omap_id_cons.
      rewrite occurrences_cons.
      rewrite (bool_decide_eq_false_2 (g = ch /\ "B"%char <> "B"%char))
        by (intros [_ H]; apply H; reflexivity).
      destruct (decide (g = ch)) as [->|Hch].
      * rewrite (bool_decide_eq_true_2 (ch = ch /\ "B"%char = "B"%char)) by auto.
        rewrite (bool_decide_eq_true_2 (ch = ch)) by reflexivity. lia.
      * rewrite (bool_decide_eq_false_2 (g = ch /\ _)) by (intros [? _]; contradiction).
        rewrite (bool_decide_eq_false_2 (g = ch)) by assumption. lia.
Qed.

Lemma feedback_marks_counts ch gs as_ :
  length gs <= 5 -> length gs <= length as_ ->
  marked ch gs (feedback_marks gs as_) =
  Nat.min (occurrences ch gs) (occurrences ch as_).
Proof.
  intros H5 Ha. unfold feedback_marks.
  rewrite yellow_marked.
  2:{ apply green_marks_symbols, Forall_replicate. auto. }
  destruct (green_counts ch gs as_ (replicate 5 "B"%char)) as [H1 H2];
    [assumption | rewrite length_replicate; assumption
     | apply Forall_replicate; reflexivity |].
  lia.
Qed.

(** ** When [_feedback] raises *)

Lemma list_set_Raise {A} (l : list A) i x :
  length l <= i -> list_set l i x = Raise IndexError.
Proof. intros H. unfold list_set. apply decide_False. lia. Qed.

Lemma green_pass_outcome answer l : forall i fb rem,
  length fb = 5 -> length rem = length (chars answer) ->
  i <= length (chars answer) ->
  (exists fb' rem',
     for_enumerate (green_step answer) i l (fb, rem) = Ok (fb', rem') /\
     length fb' = 5 /\ i + length l <= length (chars answer)) \/
  for_enumerate (green_step answer) i l (fb, rem) = Raise IndexError.
Proof.
  induction l as [|g l IH]; intros i fb rem Hfb Hrem Hi.
  - left. exists fb, rem. simpl. split; [reflexivity|]. split; [assumption | lia].
  - destruct (chars answer !! i) as [a|] eqn:Hai.
    2:{ right. cbn [for_enumerate]. unfold green_step, list_get.
        rewrite Hai. reflexivity. }
    pose proof (lookup_lt_Some _ _ _ Hai) as Hlt.
    destruct (decide (g = a)) as [->|Hne].
    + destruct (decide (i < 5)) as [H5|H5].
      * rewrite (for_enumerate_cons _ _ _ _ _ _
                   (green_step_hit _ _ _ fb rem Hai ltac:(lia) ltac:(lia))).
        destruct (IH (S i) (<[i:="G"%char]> fb) (<[i:=None]> rem))
          as [(fb' & rem' & E & L & Hle)|E];
          rewrite ?length_insert; try lia.
        -- left. exists fb', rem'. simpl. split; [assumption|]. split; [assumption | lia].
        -- right. assumption.
      * right. cbn [for_enumerate]. unfold green_step.
        rewrite (list_get_Ok _ _ _ Hai). cbn [mbind result_bind].
        rewrite decide_True by reflexivity.
        rewrite (list_set_Raise fb) by lia. reflexivity.
    + rewrite (for_enumerate_cons _ _ _ _ _ _
                 (green_step_miss _ _ _ _ (fb, rem) Hai Hne)).
      destruct (IH (S i) fb rem) as [(fb' & rem' & E & L & Hle)|E]; try lia.
      * left. exists fb', rem'. simpl. split; [assumption|]. split; [assumption | lia].
      * right. assumption.
Qed.

Lemma yellow_pass_raise l : forall i fb rem,
  length fb = 5 -> i <= 5 -> 5 < i + length l ->
  for_enumerate yellow_step i l (fb, rem) = Raise IndexError.
Proof.
  induction l as [|g l IH]; intros i fb rem Hfb Hi Hlen; [simpl in Hlen; lia|].
  destruct (decide (i = 5)) as [->|Hne].
  - cbn [for_enumerate]. unfold yellow_step, list_get.
    rewrite (proj2 (lookup_ge_None fb 5)) by lia. reflexivity.
  - destruct (yellow_step_spec i g fb rem) as (fb1 & rem1 & Hs & L1 & _); [lia|].
    rewrite (for_enumerate_cons _ _ _ _ _ _ Hs).
    apply IH; [congruence | lia | simpl in Hlen; lia].
Qed.

Lemma feedback_too_long guess answer :
  5 < String.length guess \/ String.length answer < String.length guess ->
  _feedback guess answer = Raise IndexError.
Proof.
  rewrite <- !chars_length. intros Hlen. unfold _feedback.
  destruct (green_pass_outcome answer (chars guess) 0 (replicate 5 "B"%char)
              (Some <$> chars answer)) as [(fb' & rem' & -> & L & Hle)| ->];
    [apply length_replicate | apply length_fmap | lia | | reflexivity].
  cbn [mbind result_bind].
  rewrite yellow_pass_raise; [reflexivity | assumption | lia | simpl in *; lia].
Qed.

(** ** What the marks mean *)

Lemma feedback_marks_facts gs as_ :
  length gs <= 5 -> length gs <= length as_ ->
  length (feedback_marks gs as_) = 5 /\
  Forall (fun f => f = "G"%char \/ f = "Y"%char \/ f = "B"%char)
         (feedback_marks gs as_) /\
  (forall i, length gs <= i < 5 -> feedback_marks gs as_ !! i = Some "B"%char) /\
  (forall i c, gs !! i = Some c ->
     (feedback_marks gs as_ !! i = Some "Y"%char ->
      c ∈ as_ /\ as_ !! i <> Some c) /\
     (c ∉ as_ -> feedback_marks gs as_ !! i = Some "B"%char)).
Proof.
  intros H5 Ha. unfold feedback_marks.
  assert (Forall (fun f => f = "G"%char \/ f = "B"%char)
                 (green_marks gs as_ (replicate 5 "B"%char))) as Hsym
    by (apply green_marks_symbols, Forall_replicate; auto).
  split; [rewrite yellow_marks_length, green_marks_length; apply length_replicate|].
  split; [apply yellow_marks_symbols; assumption|].
  split.
  - intros i [Hlo Hhi]. rewrite yellow_marks_untouched.
    2:{ intros g Hg. apply lookup_lt_Some in Hg. lia. }
    rewrite green_marks_lookup, lookup_replicate_2 by assumption. simpl.
    rewrite bool_decide_eq_false_2; [reflexivity|].
    intros [[x Hx] _]. apply lookup_lt_Some in Hx. lia.
  - intros i c Hc. pose proof (lookup_lt_Some _ _ _ Hc) as Hi. split.
    + intros HY. destruct (yellow_marks_Y _ _ _ _ Hsym HY) as (HB & g & Hg & Hin).
      rewrite Hc in Hg. injection Hg as <-.
      split; [eapply green_rem_subseteq; eassumption|].
      intros Hai. rewrite green_marks_lookup, lookup_replicate_2 in HB by lia.
      simpl in HB. rewrite bool_decide_eq_true_2 in HB; [discriminate|].
      rewrite Hc, Hai. eauto.
    + intros Hnot. rewrite yellow_marks_untouched.
      2:{ intros g Hg Hin. rewrite Hc in Hg. injection Hg as <-.
          apply Hnot. eapply green_rem_subseteq; eassumption. }
      rewrite green_marks_lookup, lookup_replicate_2 by lia. simpl.
      rewrite bool_decide_eq_false_2; [reflexivity|].
      intros [_ E]. apply Hnot. rewrite Hc in E. symmetry in E.
      eapply list_elem_of_lookup_2; eassumption.
Qed.

(** ** Properties of [_feedback] *)

(** X1: [_feedback] raises exactly when the guess has more than five
    letters or more letters than the answer, and the exception is then
    IndexError; it raises nothing else. *)
Theorem feedback_raises_exactly_when_guess_too_long (guess answer : string) :
  (_feedback guess answer = Raise IndexError <->
   5 < String.length guess \/ String.length answer < String.length guess) /\
  (forall e, _feedback guess answer = Raise e -> e = IndexError).
Proof.
  assert (~ (5 < String.length guess \/ String.length answer < String.length guess) ->
          exists fb, _feedback guess answer = Ok fb) as Hok.
  { intros Hno. eexists. apply feedback_as_marks; rewrite !chars_length; lia. }
  split; [split|].
  - intros Hraise.
    destruct (decide (5 < String.length guess \/
                      String.length answer < String.length guess)) as [H|H];
      [assumption|].
    destruct (Hok H) as [fb Hfb]. congruence.
  - apply feedback_too_long.
  - intros e He.
    destruct (decide (5 < String.length guess \/
                      String.length answer < String.length guess)) as [H|H].
    + rewrite (feedback_too_long _ _ H) in He. congruence.
    + destruct (Hok H) as [fb Hfb]. congruence.
Qed.

(** X2: for a guess of at most five letters that is no longer than the
    answer, [_feedback] returns a string of exactly five symbols, each of
    them ['G'], ['Y'] or ['B'], with ['B'] at every position beyond the
    end of the guess. *)
Theorem feedback_has_five_marks (guess answer : string) :
  String.length guess <= 5 -> String.length guess <= String.length answer ->
  exists fb,
    _feedback guess answer = Ok fb /\
    String.length fb = 5 /\
    Forall (fun f => f = "G"%char \/ f = "Y"%char \/ f = "B"%char) (chars fb) /\
    (forall i, String.length guess <= i < 5 -> chars fb !! i = Some "B"%char).
Proof.
  rewrite <- !chars_length. intros H5 Ha.
  destruct (feedback_marks_facts (chars guess) (chars answer) H5 Ha)
    as (L & Hsym & Hpad & _).
  eexists. split; [apply feedback_as_marks; assumption|].
  rewrite <- chars_length, chars_of_list. auto.
Qed.

Lemma feedback_has_five_marks_witness :
  exists fb,
    _feedback "AB" "ABC" = Ok fb /\
    String.length fb = 5 /\
    Forall (fun f => f = "G"%char \/ f = "Y"%char \/ f = "B"%char) (chars fb) /\
    (forall i, String.length "AB" <= i < 5 -> chars fb !! i = Some "B"%char).
Proof. apply (feedback_has_five_marks "AB" "ABC"); simpl; lia. Defined.

(** X3: what a mark says about the letter [c] of the guess at position
    [i]: ['G'] exactly when the answer has [c] at [i]; ['Y'] only when
    the answer has [c], and not at [i]; and a letter the answer does not
    have is always marked ['B']. *)
Theorem feedback_marks_meaning (guess answer : string) :
  String.length guess <= 5 -> String.length guess <= String.length answer ->
  exists fb,
    _feedback guess answer = Ok fb /\
    forall i c, chars guess !! i = Some c ->
      (chars fb !! i = Some "G"%char <-> chars answer !! i = Some c) /\
      (chars fb !! i = Some "Y"%char ->
       c ∈ chars answer /\ chars answer !! i <> Some c) /\
      (c ∉ chars answer -> chars fb !! i = Some "B"%char).
Proof.
  rewrite <- !chars_length. intros H5 Ha.
  destruct (feedback_marks_facts (chars guess) (chars answer) H5 Ha)
    as (_ & _ & _ & Hpos).
  destruct (feedback_spec guess answer H5 Ha) as (fb0 & E0 & _ & HG).
  pose proof (feedback_as_marks guess answer H5 Ha) as E.
  assert (fb0 = feedback_marks (chars guess) (chars answer)) as ->.
  { rewrite E0 in E. injection E as E.
    apply (f_equal chars) in E. rewrite !chars_of_list in E. exact E. }
  eexists. split; [exact E|]. rewrite chars_of_list.
  intros i c Hc. destruct (Hpos i c Hc) as [HY HB].
  split; [|split; assumption].
  rewrite HG, Hc. split; [intros [_ H]; auto | intros H; split; eauto].
Qed.

Lemma feedback_marks_meaning_witness :
  exists fb,
    _feedback "ROBOT" "WORLD" = Ok fb /\
    forall i c, chars "ROBOT" !! i = Some c ->
      (chars fb !! i = Some "G"%char <-> chars "WORLD" !! i = Some c) /\
      (chars fb !! i = Some "Y"%char ->
       c ∈ chars "WORLD" /\ chars "WORLD" !! i <> Some c) /\
      (c ∉ chars "WORLD" -> chars fb !! i = Some "B"%char).
Proof. apply (feedback_marks_meaning "ROBOT" "WORLD"); simpl; lia. Defined.

(** X4: when no letter of the guess occurs in the answer, the feedback is
    all Absent, ["BBBBB"]. *)
Theorem feedback_disjoint_all_absent (guess answer : string) :
  String.length guess <= 5 -> String.length guess <= String.length answer ->
  (forall c, c ∈ chars guess -> c ∉ chars answer) ->
  _feedback guess answer = Ok "BBBBB".
Proof.
  intros H5 Ha Hdis. rewrite <- !chars_length in *.
  destruct (feedback_marks_facts (chars guess) (chars answer) H5 Ha)
    as (L & _ & Hpad & Hpos).
  rewrite (feedback_as_marks guess answer H5 Ha). f_equal.
  replace (feedback_marks (chars guess) (chars answer))
    with (replicate 5 "B"%char); [reflexivity|].
  apply list_eq. intros i. destruct (decide (i < 5)) as [Hi|Hi].
  - rewrite lookup_replicate_2 by assumption. symmetry.
    destruct (chars guess !! i) as [c|] eqn:Hc.
    + apply (Hpos i c Hc), Hdis. eapply list_elem_of_lookup_2; eassumption.
    + apply Hpad. apply lookup_ge_None in Hc. lia.
  - rewrite (proj1 (lookup_replicate_None 5 "B"%char i)) by lia.
    symmetry. apply lookup_ge_None. lia.
Qed.

Lemma feedback_disjoint_all_absent_witness : _feedback "ABCDE" "FGHIJ" = Ok "BBBBB".
Proof.
  apply (feedback_disjoint_all_absent "ABCDE" "FGHIJ"); [simpl; lia | simpl; lia |].
  intros c Hc Ha.
  repeat (apply elem_of_cons in Hc as [->|Hc];
          [repeat (apply elem_of_cons in Ha as [Ha|Ha]; [discriminate Ha|]);
           inversion Ha|]).
  inversion Hc.
Defined.

(** X5: every letter is accounted for once: the number of positions
    where the guess has [ch] and the mark is ['G'] or ['Y'] is the
    smaller of the numbers of [ch] in the guess and in the answer. *)
Theorem feedback_marks_each_letter_once (guess answer : string) (ch : ascii) :
  String.length guess <= 5 -> String.length guess <= String.length answer ->
  exists fb,
    _feedback guess answer = Ok fb /\
    marked ch (chars guess) (chars fb) =
    Nat.min (occurrences ch (chars guess)) (occurrences ch (chars answer)).
Proof.
  rewrite <- !chars_length. intros H5 Ha.
  eexists. split; [apply feedback_as_marks; assumption|].
  rewrite chars_of_list. apply feedback_marks_counts; assumption.
Qed.

Lemma feedback_marks_each_letter_once_witness :
  exists fb,
    _feedback "SPEED" "ABIDE" = Ok fb /\
    marked "E" (chars "SPEED") (chars fb) =
    Nat.min (occurrences "E" (chars "SPEED")) (occurrences "E" (chars "ABIDE")).
Proof. apply (feedback_marks_each_letter_once "SPEED" "ABIDE" "E"); simpl; lia. Defined.

(** X6: the feedback computed in place, with a buffer of marks and a
    buffer of unclaimed answer letters updated by index, is the
    composition of two passes over immutable lists. *)
Theorem feedback_is_two_pure_passes (guess answer : string) :
  String.length guess <= 5 -> String.length guess <= String.length answer ->
  _feedback guess answer =
    Ok (string_of_list_ascii
          (yellow_marks (omap id (green_rem (chars guess) (chars answer)))
             (chars guess)
             (green_marks (chars guess) (chars answer) (replicate 5 "B"%char)))).
Proof.
  rewrite <- !chars_length. intros H5 Ha. apply feedback_as_marks; assumption.
Qed.

Lemma feedback_is_two_pure_passes_witness :
  _feedback "ROBOT" "WORLD" =
    Ok (string_of_list_ascii
          (yellow_marks (omap id (green_rem (chars "ROBOT") (chars "WORLD")))
             (chars "ROBOT")
             (green_marks (chars "ROBOT") (chars "WORLD") (replicate 5 "B"%char)))).
Proof. apply (feedback_is_two_pure_passes "ROBOT" "WORLD"); simpl; lia. Defined.

(** ** Properties of [select_initial_word] *)

Lemma count_letters_raise letters : forall k (pcs : list (gmap ascii Z)),
  length pcs = 5 -> k <= 5 -> 5 < k + length letters ->
  for_enumerate
    (fun i ch pcs => c ← list_get pcs i; list_set pcs i (counter_incr ch c))
    k letters pcs = Raise IndexError.
Proof.
  induction letters as [|x letters IH]; intros k pcs L Hk Hlen;
    [simpl in Hlen; lia|].
  cbn [for_enumerate]. destruct (decide (k = 5)) as [->|Hne].
  - unfold list_get. rewrite (proj2 (lookup_ge_None pcs 5)) by lia. reflexivity.
  - destruct (lookup_lt_is_Some_2 pcs k ltac:(lia)) as [c Hc].
    rewrite (list_get_Ok _ _ _ Hc). cbn [mbind result_bind].
    rewrite list_set_Ok by lia. cbn [mbind result_bind].
    apply IH; [rewrite length_insert; assumption | lia | simpl in Hlen; lia].
Qed.

Lemma count_words_raise C : forall (pcs : list (gmap ascii Z)) (oc : gmap ascii Z),
  length pcs = 5 -> Exists (fun w => 5 < length (chars w)) C ->
  for_each count_word C (pcs, oc) = Raise IndexError.
Proof.
  induction C as [|w C IH]; intros pcs oc L Hex; [inversion Hex|].
  cbn [for_each].
  change (count_word w (pcs, oc)) with
    (pcs1 ← for_enumerate
              (fun i ch pcs => c ← list_get pcs i; list_set pcs i (counter_incr ch c))
              0 (chars w) pcs;
     Ok (pcs1, counter_update (list_to_set (chars w)) oc)).
  destruct (decide (length (chars w) <= 5)) as [Hw|Hw].
  - destruct (count_letters (chars w) 0 pcs L ltac:(simpl; lia)) as (pcs1 & -> & L1 & _).
    cbn [mbind result_bind]. apply IH; [assumption|].
    apply Exists_cons in Hex as [Hlong|Hex]; [lia | assumption].
  - rewrite count_letters_raise by (simpl; lia). reflexivity.
Qed.

(** The selector on words of at most five letters. *)
Lemma select_initial_word_short C :
  C <> [] -> Forall (fun w => String.length w <= 5) C -> list_fits C ->
  exists w, select_initial_word C = Ok w /\ w ∈ C /\
            first_maximum (frequency_score C) C w.
Proof.
  intros Hne H5 Hfit. unfold select_initial_word.
  assert (Forall (fun w => length (chars w) <= 5) C) as H5'.
  { eapply Forall_impl; [exact H5|]. intros w Hw. rewrite chars_length. exact Hw. }
  destruct (count_words C (replicate 5 ∅) ∅ H5') as (pcs & oc & -> & L & Hp & Ho);
    [apply length_replicate|].
  cbn [mbind result_bind fst snd].
  assert (forall i ch, pos_count pcs i ch = count_at C i ch) as Hp'.
  { intros i ch. rewrite Hp. unfold pos_count.
    destruct (replicate 5 ∅ !! i) as [c|] eqn:E; [|lia].
    apply lookup_replicate_1 in E as [-> _]. unfold counter_get.
    rewrite lookup_empty. simpl. lia. }
  assert (forall ch, counter_get oc ch = count_containing C ch) as Ho'.
  { intros ch. rewrite Ho. unfold counter_get. rewrite lookup_empty. simpl. lia. }
  assert (forall w, w ∈ C ->
            word_score pcs oc (Z.of_nat (length C)) w = Ok (frequency_score C w) /\
            fok (frequency_score C w)) as Hscore.
  { intros w Hw. rewrite Forall_forall in H5'. specialize (H5' w Hw).
    unfold word_score, frequency_score.
    destruct (score_letters C pcs oc Hne Hfit L Hp' Ho' (chars w) 0 [] f_zero I
                ltac:(lia)) as (used & Hrun & Hok).
    change (∅ : gset ascii) with (list_to_set (C:=gset ascii) []).
    rewrite Hrun. split; [reflexivity | assumption]. }
  rewrite (for_each_dict _ (frequency_score C)) by (intros w Hw; apply Hscore, Hw).
  cbn [mbind result_bind]. rewrite max_by_value_entry.
  destruct (max_dict_of (frequency_score C) C Hne) as (w & -> & Hw & Hfirst).
  exists w. split; [reflexivity|]. split; [assumption|].
  apply Hfirst. rewrite Forall_forall. intros w' Hw'. apply Hscore, Hw'.
Qed.

(** X7: [select_initial_word] raises IndexError exactly when some
    candidate has more than five letters; shorter words are accepted. *)
Theorem select_initial_word_index_error_iff (C : list string) :
  list_fits C ->
  (select_initial_word C = Raise IndexError <->
   Exists (fun w => 5 < String.length w) C).
Proof.
  intros Hfit. split.
  - intros Hraise.
    destruct (decide (Exists (fun w => 5 < String.length w) C)) as [H|H];
      [assumption|].
    apply not_Exists_Forall in H; [|intros w; apply _].
    destruct (decide (C = [])) as [->|Hne]; [discriminate Hraise|].
    destruct (select_initial_word_short C Hne) as (w & Hw & _); [|assumption|congruence].
    eapply Forall_impl; [exact H|]. simpl. intros w Hw. lia.
  - intros Hex. unfold select_initial_word.
    rewrite count_words_raise; [reflexivity | apply length_replicate|].
    eapply Exists_impl; [exact Hex|]. intros w Hw. rewrite chars_length. exact Hw.
Qed.

Lemma select_initial_word_index_error_iff_witness :
  select_initial_word ["CRANE"; "PLANET"] = Raise IndexError <->
  Exists (fun w => 5 < String.length w) ["CRANE"; "PLANET"].
Proof.
  apply (select_initial_word_index_error_iff ["CRANE"; "PLANET"]). reflexivity.
Defined.

(** ** Properties of the entropy selector *)

(** X8: on a non-empty list of five-letter words [select_best_entropy_word]
    returns one of the candidates, whatever the platform's [log2]
    returns; with a single candidate it returns that one. *)
Theorem select_best_entropy_word_is_candidate (log2 : float -> float)
    (C : list string) :
  C <> [] -> Forall five_letter C -> list_fits C ->
  exists w, select_best_entropy_word log2 C = Ok w /\ w ∈ C /\
            (forall c, C = [c] -> w = c).
Proof.
  intros Hne H5 Hfit.
  destruct (select_best_entropy_word_elem log2 C Hne H5 Hfit) as (w & Hw & Hin).
  exists w. split; [assumption|]. split; [assumption|].
  intros c ->. apply list_elem_of_singleton in Hin. assumption.
Qed.

Lemma select_best_entropy_word_is_candidate_witness :
  exists w, select_best_entropy_word log2_trunc ["CRANE"; "SLATE"; "TRACE"] = Ok w /\
            w ∈ ["CRANE"; "SLATE"; "TRACE"] /\
            (forall c, ["CRANE"; "SLATE"; "TRACE"] = [c] -> w = c).
Proof.
  apply (select_best_entropy_word_is_candidate log2_trunc ["CRANE"; "SLATE"; "TRACE"]);
    [discriminate | repeat constructor | reflexivity].
Defined.

(** X9: when the entropies of the candidates are numbers that are
    neither NaN nor negative, [select_best_entropy_word] returns the
    first candidate, in input order, of maximal entropy. *)
Theorem select_best_entropy_word_first_maximum (log2 : float -> float)
    (C : list string) :
  C <> [] -> Forall five_letter C -> list_fits C ->
  Forall (fun w => fok (entropy_of log2 C w)) C ->
  exists w, select_best_entropy_word log2 C = Ok w /\
            first_maximum (entropy_of log2 C) C w.
Proof.
  intros Hne H5 Hfit Hok. unfold select_best_entropy_word.
  rewrite (for_each_dict _ (entropy_of log2 C)).
  2:{ intros w Hw. rewrite Forall_forall in H5.
      destruct (calculate_entropy_ok log2 w C (H5 w Hw)) as [e He];
        [rewrite Forall_forall; assumption | assumption |].
      unfold entropy_of. rewrite He. reflexivity. }
  cbn [mbind result_bind]. rewrite max_by_value_entry.
  destruct (max_dict_of (entropy_of log2 C) C Hne) as (w & -> & _ & Hfirst).
  exists w. split; [reflexivity | auto].
Qed.

Lemma select_best_entropy_word_first_maximum_witness :
  exists w, select_best_entropy_word log2_trunc ["CRANE"; "SLATE"; "TRACE"] = Ok w /\
            first_maximum (entropy_of log2_trunc ["CRANE"; "SLATE"; "TRACE"])
              ["CRANE"; "SLATE"; "TRACE"] w.
Proof.
  apply (select_best_entropy_word_first_maximum log2_trunc
           ["CRANE"; "SLATE"; "TRACE"]);
    [discriminate | repeat constructor | reflexivity |].
  repeat (apply List.Forall_cons; [vm_compute; exact I|]). apply List.Forall_nil.
Defined.

(** ** Properties of [calculate_entropy] *)

(** A positive int below [2^63] divided by itself is exactly [1.0]. *)
Lemma ratio_self n :
  (1 <= n < 9223372036854775808)%Z -> ratio n n = f_one.
Proof.
  intros Hn. destruct n as [|p|p]; try lia.
  unfold ratio. cbn [int_exact SFdiv xorb].
  assert (SFdiv_core_binary prec emax (Z.pos p) 0 (Z.pos p) 0
          = (9007199254740992, -53, loc_Exact)%Z) as ->.
  { unfold SFdiv_core_binary, Zdigits2. cbv zeta.
    replace (Z.pos (digits2_pos p) + 0 - (Z.pos (digits2_pos p) + 0))%Z
      with 0%Z by lia.
    change (Z.min (fexp prec emax 0) (0 - 0))%Z with (-53)%Z.
    change (0 - 0 - -53)%Z with 53%Z. cbv beta iota.
    rewrite Z.shiftl_mul_pow2 by lia.
    destruct (Z.div_eucl (Z.pos p * 2 ^ 53) (Z.pos p)) as [q r] eqn:Hdiv.
    assert (q = (Z.pos p * 2 ^ 53 / Z.pos p)%Z) as ->
      by (unfold Z.div; rewrite Hdiv; reflexivity).
    assert (r = (Z.pos p * 2 ^ 53 mod Z.pos p)%Z) as ->
      by (unfold Z.modulo; rewrite Hdiv; reflexivity).
    rewrite (Z.mul_comm (Z.pos p)), Z.div_mul, Z.mod_mul by lia.
    unfold new_location, new_location_even, new_location_odd.
    destruct (Z.even (Z.pos p)); reflexivity. }
  vm_compute. reflexivity.
Qed.

Lemma pattern_counts_same guess fb C : forall k : Z,
  (forall w, w ∈ C -> _feedback guess w = Ok fb) ->
  for_each
    (fun word pattern_counts =>
       pattern ← _feedback guess word;
       Ok (dict_set pattern_counts pattern
             (default 0%Z (dict_get pattern_counts pattern) + 1)%Z))
    C [(fb, k)] = Ok [(fb, (k + Z.of_nat (length C))%Z)].
Proof.
  induction C as [|w C IH]; intros k Hall.
  - simpl. rewrite Z.add_0_r. reflexivity.
  - cbn [for_each]. rewrite (Hall w) by left. cbn [mbind result_bind dict_set dict_get].
    rewrite !decide_True by reflexivity. cbn [default].
    rewrite IH by (intros w' Hw'; apply Hall; right; assumption).
    do 3 f_equal. unfold id. simpl length. lia.
Qed.

Lemma calculate_entropy_same_pattern (log2 : float -> float) guess fb C :
  C <> [] -> list_fits C ->
  (forall w, w ∈ C -> _feedback guess w = Ok fb) ->
  calculate_entropy log2 guess C = Ok (fsub f_zero (fmul f_one (log2 f_one))).
Proof.
  intros Hne Hfit Hall. unfold calculate_entropy.
  destruct C as [|w C]; [congruence|].
  cbn [for_each]. rewrite (Hall w) by left. cbn [mbind result_bind dict_set dict_get default].
  rewrite pattern_counts_same by (intros w' Hw'; apply Hall; right; assumption).
  cbn [mbind result_bind fmap list_fmap snd for_each].
  assert (0 + 1 + Z.of_nat (length C) = Z.of_nat (length (w :: C)))%Z as ->
    by (simpl length; lia).
  set (n := Z.of_nat (length (w :: C))).
  assert (1 <= n < 9223372036854775808)%Z as Hn.
  { split; [unfold n; simpl length; lia | exact Hfit]. }
  destruct (int_truediv_ratio n n) as (-> & _ & _); [lia..|].
  rewrite (ratio_self n Hn). reflexivity.
Qed.

(** X10: for a five-letter guess and five-letter candidates
    [calculate_entropy] returns a float: the divisions raise neither
    ZeroDivisionError nor OverflowError, and every argument of
    [math.log2] is positive; on an empty list the result is [0.0]. *)
Theorem calculate_entropy_never_raises (log2 : float -> float)
    (guess : string) (C : list string) :
  five_letter guess -> Forall five_letter C -> list_fits C ->
  exists e, calculate_entropy log2 guess C = Ok e /\ (C = [] -> e = f_zero).
Proof.
  intros Hg H5 Hfit.
  destruct (calculate_entropy_ok log2 guess C Hg H5 Hfit) as [e He].
  exists e. split; [assumption|]. intros ->.
  assert (calculate_entropy log2 guess [] = Ok f_zero) as E by reflexivity.
  congruence.
Qed.

Lemma calculate_entropy_never_raises_witness :
  exists e, calculate_entropy log2_trunc "SLATE" ["CRANE"; "GRATE"] = Ok e /\
            (["CRANE"; "GRATE"] = [] -> e = f_zero).
Proof.
  apply (calculate_entropy_never_raises log2_trunc "SLATE" ["CRANE"; "GRATE"]);
    [reflexivity | repeat constructor | reflexivity].
Defined.

(** X11: when every candidate gives the same pattern against the guess
    (as with a single candidate), the only probability is exactly [1.0]
    and the entropy is [0.0 - 1.0 * log2(1.0)]; it is [0.0] on a platform
    whose [log2(1.0)] is [0.0]. *)
Theorem calculate_entropy_single_pattern (log2 : float -> float)
    (guess fb : string) (C : list string) :
  C <> [] -> list_fits C ->
  (forall w, w ∈ C -> _feedback guess w = Ok fb) ->
  calculate_entropy log2 guess C = Ok (fsub f_zero (fmul f_one (log2 f_one))) /\
  (log2 f_one = f_zero -> calculate_entropy log2 guess C = Ok f_zero).
Proof.
  intros Hne Hfit Hall.
  rewrite (calculate_entropy_same_pattern log2 guess fb C Hne Hfit Hall).
  split; [reflexivity|]. intros ->. reflexivity.
Qed.

Lemma calculate_entropy_single_pattern_witness :
  calculate_entropy log2_trunc "SLATE" ["CRANE"; "BRAKE"]
    = Ok (fsub f_zero (fmul f_one (log2_trunc f_one))) /\
  (log2_trunc f_one = f_zero ->
   calculate_entropy log2_trunc "SLATE" ["CRANE"; "BRAKE"] = Ok f_zero).
Proof.
  apply (calculate_entropy_single_pattern log2_trunc "SLATE" "BBGBG"
           ["CRANE"; "BRAKE"]); [discriminate | reflexivity |].
  intros w Hw.
  repeat (apply elem_of_cons in Hw as [->|Hw]; [vm_compute; reflexivity|]).
  inversion Hw.
Defined.

(** ** Properties of the elimination loop *)

Lemma filter_remaining_sublist guess fb R : forall R',
  filter_remaining guess fb R = Ok R' -> R' `sublist_of` R.
Proof.
  induction R as [|w R IH]; intros R' Hf; cbn [filter_remaining] in Hf.
  - injection Hf as <-. constructor.
  - apply bind_Ok in Hf as (fw & _ & Hf). apply bind_Ok in Hf as (rest & Hrest & Hf).
    injection Hf as <-. specialize (IH _ Hrest).
    destruct (decide (fw = fb)); [apply sublist_skip | apply sublist_cons]; assumption.
Qed.

Section LoopProperties.
Variable log2 : float -> float.

(** The turns of a run that ended are turns of the loop. *)
Lemma while_true_reaches a : forall fuel st st',
  while_true log2 fuel a st = Some (Ok st') -> rtc (loop_turn log2 a) st st'.
Proof.
  induction fuel as [|fuel IH]; intros st st' Hrun; [discriminate|].
  cbn [while_true] in Hrun.
  destruct (loop_body log2 a st) as [[st1 []]|e] eqn:Hbody; [| |discriminate].
  - injection Hrun as <-. apply rtc_once. exists true. assumption.
  - eapply rtc_l; [exists false; eassumption | apply IH; assumption].
Qed.

Lemma loop_turn_transcript a C st st' :
  loop_turn log2 a st st' -> transcript_ok a C st -> transcript_ok a C st'.
Proof.
  intros [b Hbody] (Hsub & Hcons & Hg & Hn & Hfb & Hlast). unfold loop_body in Hbody.
  apply bind_Ok in Hbody as (guess & _ & Hbody).
  apply bind_Ok in Hbody as (fb & Hfeed & Hbody).
  apply bind_Ok in Hbody as (R' & HR' & Hbody).
  injection Hbody as <- _. unfold transcript_ok. cbn [remaining attempts printed].
  split; [|split; [|split; [|split; [|split]]]].
  - etrans; [eapply filter_remaining_sublist; eassumption | assumption].
  - intros w g Hw Hgin. apply (filter_remaining_elem _ _ _ _ HR') in Hw as [Hw Hfw].
    apply elem_of_app in Hgin as [Hgin|Hgin]; [auto|].
    apply list_elem_of_singleton in Hgin as ->. congruence.
  - rewrite fmap_app, Hg. reflexivity.
  - rewrite fmap_app, Hn, length_app. cbn [fmap list_fmap line_number length].
    rewrite Nat.add_1_r, seq_S. reflexivity.
  - apply Forall_app. split; [assumption|]. constructor; [assumption | constructor].
  - rewrite fmap_app. cbn [fmap list_fmap line_remaining].
    rewrite app_comm_cons, last_snoc. reflexivity.
Qed.

Lemma loop_turns_transcript a C st st' :
  rtc (loop_turn log2 a) st st' -> transcript_ok a C st -> transcript_ok a C st'.
Proof.
  induction 1 as [|st st1 st2 Hturn _ IH]; [auto|].
  intros Hok. apply IH. eapply loop_turn_transcript; eassumption.
Qed.

Lemma initial_transcript a C : transcript_ok a C (initial_state C).
Proof.
  unfold transcript_ok, initial_state. cbn [remaining attempts printed].
  split; [reflexivity|]. split; [intros w g _ Hg; inversion Hg|].
  split; [reflexivity|]. split; [reflexivity|]. split; [constructor | reflexivity].
Qed.

(** The guess of a turn on a non-empty set of five-letter candidates. *)
Lemma loop_body_guess a st :
  remaining st <> [] -> Forall five_letter (remaining st) ->
  list_fits (remaining st) ->
  exists guess,
    guess ∈ remaining st /\
    loop_body log2 a st =
      (feedback ← _feedback guess a;
       remaining' ← filter_remaining guess feedback (remaining st);
       Ok ({| remaining := remaining';
              attempts := attempts st ++ [guess];
              printed := printed st ++
                [{| line_number := length (attempts st ++ [guess]);
                    line_guess := guess;
                    line_feedback := feedback;
                    line_remaining := length remaining' |}] |},
           bool_decide (guess = a) || bool_decide (remaining' = []))).
Proof.
  intros Hne H5 Hfit. unfold loop_body.
  assert (exists guess,
             match attempts st with
             | [] => select_initial_word (remaining st)
             | _ :: _ => select_best_entropy_word log2 (remaining st)
             end = Ok guess /\ guess ∈ remaining st) as (guess & -> & Hg).
  { destruct (attempts st).
    - destruct (select_initial_word_spec _ Hne H5 Hfit) as (_ & w & ? & ? & _); eauto.
    - apply select_best_entropy_word_elem; assumption. }
  exists guess. split; [assumption | reflexivity].
Qed.

(** No guess is made twice. *)
Lemma while_true_distinct a : forall fuel st st',
  five_letter a -> remaining st <> [] ->
  Forall five_letter (remaining st) -> list_fits (remaining st) ->
  while_true log2 fuel a st = Some (Ok st') ->
  exists na, attempts st' = attempts st ++ na /\ NoDup na /\
             Forall (fun g => g ∈ remaining st) na.
Proof.
  induction fuel as [|fuel IH]; intros st st' Ha Hne H5 Hfit Hrun; [discriminate|].
  destruct (loop_body_spec log2 a st Hne H5 Hfit Ha) as (guess & fb & Hg & Hfb & Hbody).
  cbn [while_true] in Hrun. rewrite Hbody in Hrun. clear Hbody.
  set (R' := filter (fun w => _feedback guess w = Ok fb) (remaining st)) in *.
  assert (five_letter guess) as Hg5 by (rewrite Forall_forall in H5; auto).
  destruct (bool_decide (guess = a) || bool_decide (R' = [])) eqn:Hbrk.
  - injection Hrun as <-. exists [guess]. cbn [attempts].
    split; [reflexivity|]. split; [apply NoDup_singleton|].
    constructor; [assumption | constructor].
  - apply orb_false_elim in Hbrk as [Hb1 Hb2].
    apply bool_decide_eq_false in Hb1. apply bool_decide_eq_false in Hb2.
    assert (guess ∉ R') as Hout.
    { unfold R'. rewrite list_elem_of_filter. intros [Hself _].
      rewrite (feedback_self guess Hg5) in Hself. injection Hself as <-.
      apply Hb1, feedback_all_green_eq; assumption. }
    apply IH in Hrun as (na & E & Hnd & Hin); cbn [remaining attempts] in *;
      try assumption.
    + exists (guess :: na). split; [rewrite E, <- app_assoc; reflexivity|].
      split.
      * apply NoDup_cons. split; [|assumption].
        intros Hgna. rewrite Forall_forall in Hin. apply Hout, Hin, Hgna.
      * constructor; [assumption|]. eapply Forall_impl; [exact Hin|].
        intros w Hw. apply list_elem_of_filter in Hw as [_ Hw]. exact Hw.
    + rewrite Forall_forall in *. intros w Hw.
      apply list_elem_of_filter in Hw as [_ Hw]. auto.
    + unfold list_fits in *. pose proof (length_filter
        (fun w => _feedback guess w = Ok fb) (remaining st)). fold R' in H. lia.
Qed.

Lemma chars_append g s : chars (String.append g s) = chars g ++ chars s.
Proof.
  unfold chars. induction g as [|c g IH]; [reflexivity|].
  change (list_ascii_of_string (String.append (String c g) s))
    with (c :: list_ascii_of_string (String.append g s)).
  rewrite IH. reflexivity.
Qed.

(** A candidate that is the five-letter beginning of a longer answer is
    guessed, found all correct, kept, and guessed again. *)
Lemma loop_body_prefix g s st :
  five_letter g -> s <> EmptyString -> remaining st = [g] ->
  exists st', loop_body log2 (String.append g s) st = Ok (st', false) /\
              remaining st' = [g].
Proof.
  intros Hg Hs HR.
  destruct (loop_body_guess (String.append g s) st) as (guess & Hin & ->);
    rewrite ?HR; [discriminate | repeat constructor; assumption | reflexivity |].
  rewrite HR in *. apply list_elem_of_singleton in Hin as ->.
  assert (_feedback g (String.append g s) = Ok "GGGGG") as ->.
  { pose proof (five_letter_chars g Hg) as L.
    destruct (feedback_spec g (String.append g s)) as (fb & -> & Lfb & HG).
    - lia.
    - rewrite chars_append, length_app. lia.
    - f_equal. apply all_green; [assumption|]. intros j Hj. apply HG.
      destruct (lookup_lt_is_Some_2 (chars g) j ltac:(lia)) as [c Hc].
      split; [eauto|]. rewrite chars_append, Hc. symmetry.
      apply lookup_app_l_Some. assumption. }
  cbn [mbind result_bind filter_remaining]. rewrite (feedback_self g Hg).
  cbn [mbind result_bind]. rewrite decide_True by reflexivity.
  rewrite (bool_decide_eq_false_2 (g = String.append g s)).
  2:{ intros E. apply (f_equal String.length) in E.
      rewrite <- !chars_length, chars_append, length_app in E.
      destruct s; [congruence | simpl in E; lia]. }
  rewrite (bool_decide_eq_false_2 ([g] = [])) by discriminate.
  eexists. split; reflexivity.
Qed.

Lemma while_true_prefix g s : forall fuel st,
  five_letter g -> s <> EmptyString -> remaining st = [g] ->
  while_true log2 fuel (String.append g s) st = None.
Proof.
  induction fuel as [|fuel IH]; intros st Hg Hs HR; [reflexivity|].
  destruct (loop_body_prefix g s st Hg Hs HR) as (st' & Hbody & HR').
  cbn [while_true]. rewrite Hbody. apply IH; assumption.
Qed.
End LoopProperties.

Lemma state_after_grate_reached :
  rtc (loop_turn log2_trunc "PLATE")
    (initial_state ["CRANE"; "GRATE"; "PLATE"]) state_after_grate.
Proof. apply rtc_once. exists false. vm_compute. reflexivity. Defined.

(** X12: on a non-empty list of five-letter candidates and for any
    five-letter answer, in the list or not, the run ends and no word is
    guessed twice: the attempts are distinct candidates, at least one
    and at most as many as there are candidates. *)
Theorem solve_wordle_guesses_distinct (log2 : float -> float)
    (C : list string) (a : string) :
  C <> [] -> Forall five_letter C -> list_fits C -> five_letter a ->
  exists guesses,
    (forall fuel, length C <= fuel ->
       solve_wordle log2 fuel C a = Some (Ok guesses)) /\
    NoDup guesses /\ Forall (fun g => g ∈ C) guesses /\
    1 <= length guesses <= length C.
Proof.
  intros Hne H5 Hfit Ha.
  destruct (run_wordle_terminates log2 C a Ha Hne H5 Hfit) as (st & Hrun & Hout).
  destruct (while_true_distinct log2 a (length C) (initial_state C) st Ha)
    as (na & E & Hnd & _); try assumption.
  { apply (Hrun (length C)). lia. }
  destruct Hout as (na' & nl & E1 & _ & Hna & Hlen & Hall & _).
  simpl in E, E1, Hlen, Hall. subst na na'.
  exists (attempts st). split; [intros fuel Hfuel; apply solve_wordle_run; auto|].
  split; [assumption|]. split; [assumption|].
  split; [|assumption]. destruct (attempts st); [congruence | simpl; lia].
Qed.

Lemma solve_wordle_guesses_distinct_witness :
  exists guesses,
    (forall fuel, length ["CRANE"; "SLATE"; "TRACE"; "CRATE"] <= fuel ->
       solve_wordle log2_trunc fuel ["CRANE"; "SLATE"; "TRACE"; "CRATE"] "MOUSY"
       = Some (Ok guesses)) /\
    NoDup guesses /\
    Forall (fun g => g ∈ ["CRANE"; "SLATE"; "TRACE"; "CRATE"]) guesses /\
    1 <= length guesses <= length ["CRANE"; "SLATE"; "TRACE"; "CRATE"].
Proof.
  apply (solve_wordle_guesses_distinct log2_trunc
           ["CRANE"; "SLATE"; "TRACE"; "CRATE"] "MOUSY");
    [discriminate | repeat constructor | reflexivity | reflexivity].
Defined.

(** X13: in every state the loop reaches from the list [C], the
    candidates left are candidates of [C], in the order of [C], and each
    of them gives, against every guess made so far, the same feedback as
    the answer does. *)
Theorem remaining_consistent_with_feedback (log2 : float -> float)
    (C : list string) (a : string) (st : loop_state) :
  rtc (loop_turn log2 a) (initial_state C) st ->
  remaining st `sublist_of` C /\
  (forall w g, w ∈ remaining st -> g ∈ attempts st ->
               _feedback g w = _feedback g a).
Proof.
  intros Hrtc.
  destruct (loop_turns_transcript log2 a C _ _ Hrtc (initial_transcript a C))
    as (Hsub & Hcons & _).
  auto.
Qed.

Lemma remaining_consistent_with_feedback_witness :
  remaining state_after_grate `sublist_of` ["CRANE"; "GRATE"; "PLATE"] /\
  (forall w g, w ∈ remaining state_after_grate -> g ∈ attempts state_after_grate ->
               _feedback g w = _feedback g "PLATE").
Proof.
  apply (remaining_consistent_with_feedback log2_trunc
           ["CRANE"; "GRATE"; "PLATE"] "PLATE" state_after_grate).
  exact state_after_grate_reached.
Defined.

(** X14: in every state the loop reaches, the lines printed so far are
    numbered 1, 2, 3, ..., one per attempt and in the order of the
    attempts; each shows the feedback of its guess against the answer,
    and the last one shows the current number of candidates. *)
Theorem printed_lines_follow_attempts (log2 : float -> float)
    (C : list string) (a : string) (st : loop_state) :
  rtc (loop_turn log2 a) (initial_state C) st ->
  line_guess <$> printed st = attempts st /\
  line_number <$> printed st = seq 1 (length (attempts st)) /\
  Forall (fun l => _feedback (line_guess l) a = Ok (line_feedback l))
         (printed st) /\
  last (length C :: (line_remaining <$> printed st)) = Some (length (remaining st)).
Proof.
  intros Hrtc.
  destruct (loop_turns_transcript log2 a C _ _ Hrtc (initial_transcript a C))
    as (_ & _ & Hg & Hn & Hfb & Hlast).
  auto.
Qed.

Lemma printed_lines_follow_attempts_witness :
  line_guess <$> printed state_after_grate = attempts state_after_grate /\
  line_number <$> printed state_after_grate
    = seq 1 (length (attempts state_after_grate)) /\
  Forall (fun l => _feedback (line_guess l) "PLATE" = Ok (line_feedback l))
         (printed state_after_grate) /\
  last (length ["CRANE"; "GRATE"; "PLATE"]
          :: (line_remaining <$> printed state_after_grate))
    = Some (length (remaining state_after_grate)).
Proof.
  apply (printed_lines_follow_attempts log2_trunc
           ["CRANE"; "GRATE"; "PLATE"] "PLATE" state_after_grate).
  exact state_after_grate_reached.
Defined.

(** X15: an answer of fewer than five letters makes the first turn fail:
    on a non-empty list of five-letter candidates [solve_wordle] raises
    IndexError, from [_feedback] of the first guess against the answer. *)
Theorem solve_wordle_short_answer_raises (log2 : float -> float)
    (C : list string) (a : string) :
  C <> [] -> Forall five_letter C -> list_fits C -> String.length a < 5 ->
  forall fuel, solve_wordle log2 (S fuel) C a = Some (Raise IndexError).
Proof.
  intros Hne H5 Hfit Ha fuel. unfold solve_wordle, run_wordle. cbn [while_true].
  destruct (loop_body_guess log2 a (initial_state C)) as (guess & Hin & ->);
    try assumption.
  assert (five_letter guess) as Hg by (rewrite Forall_forall in H5; apply H5, Hin).
  rewrite feedback_too_long; [reflexivity|]. right. unfold five_letter in Hg. lia.
Qed.

Lemma solve_wordle_short_answer_raises_witness :
  solve_wordle log2_trunc 3 ["CRANE"; "SLATE"] "CAT" = Some (Raise IndexError).
Proof.
  apply (solve_wordle_short_answer_raises log2_trunc ["CRANE"; "SLATE"] "CAT");
    [discriminate | repeat constructor | reflexivity | simpl; lia].
Defined.

(** X16: an answer of more than five letters can make the loop run for
    ever: when the only candidate is the five-letter beginning of the
    answer, it is guessed, found all correct and kept, turn after turn,
    and no amount of fuel ends the run. *)
Theorem solve_wordle_long_answer_never_ends (log2 : float -> float)
    (g s : string) :
  five_letter g -> s <> EmptyString ->
  forall fuel, solve_wordle log2 fuel [g] (String.append g s) = None.
Proof.
  intros Hg Hs fuel. unfold solve_wordle, run_wordle.
  rewrite (while_true_prefix log2 g s fuel (initial_state [g]) Hg Hs); reflexivity.
Qed.

Lemma solve_wordle_long_answer_never_ends_witness :
  solve_wordle log2_trunc 25 ["CRANE"] (String.append "CRANE" "S") = None.
Proof.
  apply (solve_wordle_long_answer_never_ends log2_trunc "CRANE" "S");
    [reflexivity | discriminate].
Defined.

(** ** Properties of [load_words] and of the main program *)

Lemma lstrip_head l c : head (lstrip l) = Some c -> is_space c = false.
Proof.
  induction l as [|x l IH]; simpl; [discriminate|].
  destruct (is_space x) eqn:E; [exact IH|]. simpl. congruence.
Qed.

Lemma lstrip_fixed l :
  (forall c, head l = Some c -> is_space c = false) -> lstrip l = l.
Proof.
  destruct l as [|x l]; [reflexivity|]. intros H. simpl.
  rewrite (H x) by reflexivity. reflexivity.
Qed.

Lemma lstrip_snoc k h : is_space h = false -> lstrip (k ++ [h]) = lstrip k ++ [h].
Proof.
  intros Hh. induction k as [|x k IH]; simpl.
  - rewrite Hh. reflexivity.
  - destruct (is_space x); [exact IH | reflexivity].
Qed.

(** A stripped string neither starts nor ends with whitespace. *)
Lemma strip_list_clean l :
  let r := reverse (lstrip (reverse (lstrip l))) in
  (forall c, head r = Some c -> is_space c = false) /\
  (forall c, last r = Some c -> is_space c = false).
Proof.
  intros r. subst r. split; intros c Hc.
  - rewrite head_reverse in Hc.
    destruct (lstrip l) as [|h t] eqn:E; [discriminate|].
    assert (is_space h = false) as Hh by (apply (lstrip_head l); rewrite E; reflexivity).
    rewrite reverse_cons, (lstrip_snoc _ _ Hh), last_snoc in Hc. congruence.
  - rewrite last_reverse in Hc. eapply lstrip_head; eassumption.
Qed.

Lemma str_strip_idempotent s : str_strip (str_strip s) = str_strip s.
Proof.
  unfold str_strip. rewrite chars_of_list.
  destruct (strip_list_clean (chars s)) as [Hhead Hlast].
  set (r := reverse (lstrip (reverse (lstrip (chars s))))) in *.
  rewrite (lstrip_fixed r Hhead).
  rewrite (lstrip_fixed (reverse r)) by (intros c; rewrite head_reverse; apply Hlast).
  rewrite reverse_involutive. reflexivity.
Qed.

Lemma elem_of_load_words lines w :
  w ∈ load_words lines <->
  exists line, line ∈ lines /\ str_strip line = w /\ five_letter w.
Proof.
  unfold load_words, five_letter. rewrite list_elem_of_omap. split.
  - intros (line & Hin & E). exists line. split; [assumption|].
    destruct (decide (String.length (str_strip line) = 5)); [|discriminate].
    injection E as <-. auto.
  - intros (line & Hin & <- & L). exists line. split; [assumption|].
    rewrite decide_True by assumption. reflexivity.
Qed.

Lemma load_words_five lines : Forall five_letter (load_words lines).
Proof.
  rewrite Forall_forall. intros w Hw.
  apply elem_of_load_words in Hw as (_ & _ & _ & H). exact H.
Qed.

(** X17: [load_words] returns exactly the stripped lines that have five
    characters, in the order of the lines and as often as they occur: the
    list of all stripped lines with the others left out, so that loading
    lines one after the other concatenates the results. The words it
    returns have five characters and no whitespace at either end, and
    loading the returned words again gives the same list. *)
Theorem load_words_returns_clean_words (lines : list string) :
  load_words lines
    = filter (fun w => String.length w = 5) (str_strip <$> lines) /\
  (forall more, load_words (lines ++ more) = load_words lines ++ load_words more) /\
  (forall w, w ∈ load_words lines <->
             exists line, line ∈ lines /\ str_strip line = w /\ String.length w = 5) /\
  Forall (fun w => String.length w = 5 /\ str_strip w = w) (load_words lines) /\
  load_words (load_words lines) = load_words lines.
Proof.
  split; [|split; [|split; [intros w; apply elem_of_load_words|split]]].
  - induction lines as [|line lines IH]; [reflexivity|].
    unfold load_words in *. rewrite fmap_cons, filter_cons. cbn [omap list_omap].
    destruct (decide (String.length (str_strip line) = 5)) as [L|L];
      [f_equal; exact IH | exact IH].
  - intros more. unfold load_words. apply omap_app.
  - rewrite Forall_forall. intros w Hw.
    apply elem_of_load_words in Hw as (line & _ & <- & L).
    split; [exact L | apply str_strip_idempotent].
  - induction lines as [|line lines IH]; [reflexivity|].
    unfold load_words in *. cbn [omap list_omap].
    destruct (decide (String.length (str_strip line) = 5)) as [L|L];
      [|exact IH].
    cbn [omap list_omap]. rewrite str_strip_idempotent.
    rewrite decide_True by assumption. f_equal. exact IH.
Qed.

(** X18: the main program. When the file has no line of five characters
    it stops with the IndexError of [random.choice], before any guess;
    otherwise, whatever word is drawn as the answer, the session ends
    within as many attempts as there are words, and the last line it
    prints shows the answer with the feedback ["GGGGG"]. *)
Theorem main_session_finds_the_drawn_word (log2 : float -> float)
    (lines : list string) (r : nat) :
  list_fits (load_words lines) ->
  (load_words lines = [] ->
   forall fuel, main log2 lines r fuel = Some (Raise IndexError)) /\
  (r < length (load_words lines) ->
   exists answer transcript,
     load_words lines !! r = Some answer /\
     (forall fuel, length (load_words lines) <= fuel ->
        main log2 lines r fuel = Some (Ok (answer, transcript))) /\
     last (line_guess <$> transcript) = Some answer /\
     last (line_feedback <$> transcript) = Some "GGGGG" /\
     length transcript <= length (load_words lines)).
Proof.
  intros Hfit. split.
  - intros Hnil fuel. unfold main. rewrite Hnil. reflexivity.
  - intros Hr. pose proof (load_words_five lines) as H5.
    set (words := load_words lines) in *.
    destruct (lookup_lt_is_Some_2 words r Hr) as [a Ha].
    assert (a ∈ words) as Hin by (eapply list_elem_of_lookup_2; eassumption).
    assert (five_letter a) as Ha5 by (rewrite Forall_forall in H5; auto).
    assert (words <> []) as Hne by (intros E; rewrite E in Hin; inversion Hin).
    destruct (run_wordle_terminates log2 words a Ha5 Hne H5 Hfit) as (st & Hrun & Hout).
    pose proof (while_true_reaches log2 a _ _ _ (Hrun (length words) ltac:(lia)))
      as Hreach.
    destruct (loop_turns_transcript log2 a words _ _ Hreach (initial_transcript a words))
      as (_ & _ & Hg & _ & Hfb & _).
    destruct Hout as (na & nl & E1 & E2 & _ & Hlen & _ & _ & _ & _ & Hyes & _).
    simpl in E1, E2, Hlen. subst na nl. destruct (Hyes Hin) as [Hlast _].
    exists a, (printed st). split; [assumption|]. split; [|split; [|split]].
    + intros fuel Hfuel. unfold main. fold words.
      unfold random_choice. rewrite decide_False by assumption.
      rewrite (list_get_Ok _ _ _ Ha), (Hrun fuel Hfuel). reflexivity.
    + rewrite Hg. exact Hlast.
    + rewrite <- Hg, fmap_last in Hlast. rewrite fmap_last.
      destruct (last (printed st)) as [l|] eqn:El; [|discriminate].
      simpl in Hlast. injection Hlast as Hl. simpl. f_equal.
      apply last_Some_elem_of in El. rewrite Forall_forall in Hfb.
      specialize (Hfb l El). rewrite Hl, (feedback_self a Ha5) in Hfb.
      congruence.
    + rewrite <- (length_fmap line_guess), Hg. exact Hlen.
Qed.

Lemma main_session_finds_the_drawn_word_witness :
  (load_words ["crane" ; "  slate  "; "toolong"; "trace"] = [] ->
   forall fuel,
     main log2_trunc ["crane" ; "  slate  "; "toolong"; "trace"] 2 fuel
     = Some (Raise IndexError)) /\
  (2 < length (load_words ["crane" ; "  slate  "; "toolong"; "trace"]) ->
   exists answer transcript,
     load_words ["crane" ; "  slate  "; "toolong"; "trace"] !! 2 = Some answer /\
     (forall fuel,
        length (load_words ["crane" ; "  slate  "; "toolong"; "trace"]) <= fuel ->
        main log2_trunc ["crane" ; "  slate  "; "toolong"; "trace"] 2 fuel
        = Some (Ok (answer, transcript))) /\
     last (line_guess <$> transcript) = Some answer /\
     last (line_feedback <$> transcript) = Some "GGGGG" /\
     length transcript
       <= length (load_words ["crane" ; "  slate  "; "toolong"; "trace"])).
Proof.
  apply (main_session_finds_the_drawn_word log2_trunc
           ["crane" ; "  slate  "; "toolong"; "trace"] 2).
  reflexivity.
Defined.

(** ** The sign of the entropy *)

(** *** Rounding without underflow *)

Local Open Scope Z_scope.

Lemma shr_1_div2 mrs : 0 <= shr_m mrs -> shr_m (shr_1 mrs) = shr_m mrs / 2.
Proof.
  destruct mrs as [[|[p|p|]|p] r s]; simpl; intros H; try lia;
    rewrite <- Z.div2_div; reflexivity.
Qed.

Lemma shr_m_iter p : forall mrs,
  0 <= shr_m mrs ->
  shr_m (SpecFloat.iter_pos shr_1 p mrs) = shr_m mrs / 2 ^ Z.pos p.
Proof.
  assert (forall k, 0 < 2 ^ Z.pos k) as Hpow by (intros k; apply Z.pow_pos_nonneg; lia).
  induction p as [p IH|p IH|]; intros mrs Hm; cbn [SpecFloat.iter_pos].
  - assert (0 <= shr_m (shr_1 mrs)) as H1 by (apply shr_1_nonneg; assumption).
    assert (0 <= shr_m (SpecFloat.iter_pos shr_1 p (shr_1 mrs))) as H2.
    { rewrite IH by assumption. apply Z.div_pos; [assumption | apply Hpow]. }
    rewrite IH, IH, shr_1_div2 by assumption.
    pose proof (Hpow p).
    assert (2 ^ Z.pos p~1 = 2 * 2 ^ Z.pos p * 2 ^ Z.pos p) as ->.
    { rewrite <- Z.pow_succ_r, <- Z.pow_add_r by lia. f_equal. lia. }
    rewrite !Z.div_div by lia. f_equal. lia.
  - assert (0 <= shr_m (SpecFloat.iter_pos shr_1 p mrs)) as H2.
    { rewrite IH by assumption. apply Z.div_pos; [assumption | apply Hpow]. }
    rewrite IH, IH by assumption.
    pose proof (Hpow p).
    assert (2 ^ Z.pos p~0 = 2 ^ Z.pos p * 2 ^ Z.pos p) as ->.
    { rewrite <- Z.pow_add_r by lia. f_equal. lia. }
    rewrite !Z.div_div by lia. reflexivity.
  - rewrite shr_1_div2 by assumption. reflexivity.
Qed.

(** Truncation keeps a mantissa positive as long as the number is
    at least [2^-1074]; the exponent is then one that binary64 has. *)
Lemma shr_fexp_pos m e l :
  0 < m -> (e < -1074 -> 2 ^ (-1074 - e) <= m) ->
  exists mrs e1,
    shr_fexp prec emax m e l = (mrs, e1) /\ 0 < shr_m mrs /\ -1074 <= e1.
Proof.
  intros Hm He. destruct m as [|p|p]; try lia.
  unfold shr_fexp, Zdigits2, shr.
  pose proof (digits2_pos_bounds p) as [Dlo Dhi].
  set (d := Z.pos (digits2_pos p)) in *.
  assert (fexp prec emax (d + e) = Z.max (d + e - 53) (-1074)) as -> by reflexivity.
  destruct (Z.max (d + e - 53) (-1074) - e) as [|n|n] eqn:Hn.
  - eexists _, _. split; [reflexivity|]. rewrite shr_m_of_loc. lia.
  - eexists _, _. split; [reflexivity|].
    rewrite shr_m_iter by (rewrite shr_m_of_loc; lia). rewrite shr_m_of_loc.
    split; [|lia]. apply Z.div_str_pos. split; [apply Z.pow_pos_nonneg; lia|].
    destruct (Z.max_spec (d + e - 53) (-1074)) as [[? E]|[? E]]; rewrite E in Hn.
    + replace (Z.pos n) with (-1074 - e) by lia. apply He. lia.
    + replace (Z.pos n) with (d - 53) by lia.
      etrans; [|exact Dlo]. apply Z.pow_le_mono_r; lia.
  - eexists _, _. split; [reflexivity|]. rewrite shr_m_of_loc. lia.
Qed.

Lemma binary_round_aux_signed s m e l :
  0 < m -> (e < -1074 -> 2 ^ (-1074 - e) <= m) ->
  (exists m' e', binary_round_aux prec emax s m e l = S754_finite s m' e'
                 /\ -1074 <= e') \/
  binary_round_aux prec emax s m e l = S754_infinity s.
Proof.
  intros Hm He. unfold binary_round_aux.
  destruct (shr_fexp_pos m e l Hm He) as (mrs1 & e1 & -> & Hm1 & He1).
  pose proof (round_nearest_even_bounds (shr_m mrs1) (loc_of_shr_record mrs1)) as Hr.
  destruct (shr_fexp_pos (round_nearest_even (shr_m mrs1) (loc_of_shr_record mrs1))
              e1 loc_Exact) as (mrs2 & e2 & -> & Hm2 & He2); [lia..|].
  destruct (shr_m mrs2) as [|m2|m2]; try lia.
  destruct (e2 <=? emax - prec); eauto.
Qed.

(** A probability times a logarithm that is at most [-2^-53] is a
    negative number: the product does not underflow to zero. *)
Lemma fmul_neg mp ep l :
  -115 <= ep -> SFleb l f_neg_tiny = true ->
  fneg (fmul (S754_finite false mp ep) l).
Proof.
  intros Hep Hl. destruct l as [s|[]| |[] ml el]; try discriminate Hl.
  - exact I.
  - assert (-105 <= el) as Hel.
    { unfold SFleb, f_neg_tiny in Hl. cbn [SFcompare] in Hl.
      destruct (Z.compare_spec el (-105)); [lia | discriminate | lia]. }
    unfold fmul, SFmul. cbn [xorb].
    destruct (binary_round_aux_signed true (Z.pos (mp * ml)) (ep + el) loc_Exact)
      as [(m' & e' & -> & He')| ->]; [lia | lia | exact He' | exact I].
Qed.

Lemma fmul_one_zero l :
  SFeqb l f_zero = true -> exists s, fmul f_one l = S754_zero s.
Proof.
  destruct l as [s|[]| |[] ml el]; try discriminate. intros _. eexists. reflexivity.
Qed.

(** The running entropy is [0.0] or positive; taking a zero away leaves it
    as it is, taking a negative number away makes it positive. *)
Lemma fsub_zero e s : e = f_zero \/ fpos e -> fsub e (S754_zero s) = e.
Proof.
  intros [->|He].
  - destruct s; reflexivity.
  - destruct e as [?|[]| |[] me ee]; try contradiction; reflexivity.
Qed.

Lemma shl_align_exponent mx ex ex' :
  -1074 <= ex -> -1074 <= ex' -> -1074 <= snd (shl_align mx ex ex').
Proof.
  intros H1 H2. unfold shl_align. destruct (ex' - ex); simpl; assumption.
Qed.

Lemma fsub_pos e t : e = f_zero \/ fpos e -> fneg t -> fpos (fsub e t).
Proof.
  intros He Ht. destruct t as [?|[]| |[] mt et]; try contradiction.
  - destruct He as [->|He]; [exact I|].
    destruct e as [?|[]| |[] me ee]; try contradiction; exact I.
  - simpl in Ht. destruct He as [->|He]; [exact Ht|].
    destruct e as [?|[]| |[] me ee]; try contradiction; [exact I|].
    simpl in He. unfold fsub, SFsub, binary_normalize, cond_Zopp.
    generalize (fst (shl_align me ee (Z.min ee et))) as a.
    generalize (fst (shl_align mt et (Z.min ee et))) as b. intros b a.
    change (Z.pos a - - Z.pos b) with (Z.pos (a + b)). cbv iota beta.
    unfold binary_round.
    match goal with
    | |- context [shl_align ?m ?x ?y] =>
        pose proof (shl_align_exponent m x y) as Hex;
        destruct (shl_align m x y) as [mz ez]
    end.
    simpl in Hex.
    assert (-1074 <= ez) as Hez.
    { apply Hex; [lia|]. unfold fexp, emin, prec, emax. lia. }
    destruct (binary_round_aux_signed false (Z.pos mz) ez loc_Exact)
      as [(m' & e' & -> & He')| ->]; [lia | lia | exact He' | exact I].
Qed.

(** Truncating a mantissa of 53 or 54 bits, with what becomes of the
    exponent and of the mantissa. *)
Lemma shr_fexp_shape m e l :
  4503599627370496 <= m < 18014398509481984 -> -1074 <= e ->
  exists mrs e1,
    shr_fexp prec emax m e l = (mrs, e1) /\
    4503599627370496 <= shr_m mrs < 9007199254740992 /\
    ((m < 9007199254740992 /\ e1 = e /\ shr_m mrs = m) \/
     (9007199254740992 <= m /\ e1 = e + 1 /\ 2 * shr_m mrs <= m)).
Proof.
  intros Hm He. destruct m as [|p|p]; try lia.
  unfold shr_fexp, Zdigits2.
  destruct (Z_lt_le_dec (Z.pos p) 9007199254740992) as [Hlt|Hge].
  - rewrite (digits2_pos_unique p 53);
      [| change (2 ^ (53 - 1)) with 4503599627370496;
         change (2 ^ 53) with 9007199254740992; lia | lia].
    unfold fexp, emin, prec, emax. rewrite Z.max_l by lia.
    replace (53 + e - 53 - e) with 0 by lia. simpl.
    eexists _, _. split; [reflexivity|]. rewrite shr_m_of_loc. lia.
  - rewrite (digits2_pos_unique p 54);
      [| change (2 ^ (54 - 1)) with 9007199254740992;
         change (2 ^ 54) with 18014398509481984; lia | lia].
    unfold fexp, emin, prec, emax. rewrite Z.max_l by lia.
    replace (54 + e - 53 - e) with 1 by lia. cbn [shr SpecFloat.iter_pos].
    eexists _, _. split; [reflexivity|].
    pose proof (shr_1_half p l ltac:(lia)). lia.
Qed.

(** Rounding a mantissa [q] of 53 or 54 bits: the result has 53 bits, and
    its exponent grows by one for the 54th bit of [q] and by one when the
    rounding carries into a further bit. *)
Lemma binary_round_aux_shape q e l :
  4503599627370496 <= q < 18014398509481984 -> -1074 <= e <= 900 ->
  exists m e',
    binary_round_aux prec emax false q e l = S754_finite false m e' /\
    4503599627370496 <= Z.pos m < 9007199254740992 /\
    ((q < 9007199254740992 /\ e' = e) \/
     (q < 9007199254740992 /\ e' = e + 1 /\ Z.pos m = 4503599627370496) \/
     (9007199254740992 <= q /\ e' = e + 1) \/
     (18014398509481982 <= q /\ e' = e + 2 /\ Z.pos m = 4503599627370496)).
Proof.
  intros Hq He. unfold binary_round_aux.
  destruct (shr_fexp_shape q e l Hq ltac:(lia)) as (mrs1 & e1 & -> & Hm1 & Hs1).
  pose proof (round_nearest_even_bounds (shr_m mrs1) (loc_of_shr_record mrs1)) as Hr.
  destruct (shr_fexp_shape (round_nearest_even (shr_m mrs1) (loc_of_shr_record mrs1))
              e1 loc_Exact) as (mrs2 & e2 & -> & Hm2 & Hs2); [lia..|].
  destruct (shr_m mrs2) as [|m|m]; try lia.
  rewrite (proj2 (Z.leb_le e2 (emax - prec))) by (unfold emax, prec; lia).
  eexists _, _. split; [reflexivity|]. lia.
Qed.

(** The quotient of two positive ints [a < b] below [2^63]: it is [1.0],
    which rounding can give when [a] is more than half of [b], or a float
    below [1.0] that is at least [2^-63]. *)
Lemma ratio_shape a b :
  1 <= a -> a < b -> b < 9223372036854775808 ->
  (ratio a b = f_one /\ b < 2 * a) \/
  (exists m e, ratio a b = S754_finite false m e /\ -115 <= e <= -53).
Proof.
  intros Ha Hab Hb.
  destruct a as [|pa|pa], b as [|pb|pb]; try lia.
  unfold ratio. cbn [int_exact SFdiv xorb]. unfold SFdiv_core_binary, Zdigits2.
  pose proof (digits2_pos_bounds pa) as [Alo Ahi].
  pose proof (digits2_pos_bounds pb) as [Blo Bhi].
  set (d1 := Z.pos (digits2_pos pa)) in *. set (d2 := Z.pos (digits2_pos pb)) in *.
  assert (1 <= d1) by (unfold d1; lia). assert (1 <= d2) by (unfold d2; lia).
  assert (d1 <= d2).
  { assert (d1 - 1 < d2) by (apply (Z.pow_lt_mono_r_iff 2); lia). lia. }
  assert (d2 <= 63).
  { assert (d2 - 1 < 63)
      by (apply (Z.pow_lt_mono_r_iff 2);
          [lia | lia | change (2 ^ 63) with 9223372036854775808; lia]).
    lia. }
  assert (2 * Z.pos pa <= Z.pos pb -> d1 < d2) as Hhalf.
  { intros Hh. assert (d1 < d2); [|lia].
    apply (Z.pow_lt_mono_r_iff 2); [lia | lia |].
    replace d1 with (Z.succ (d1 - 1)) by lia. rewrite Z.pow_succ_r by lia. lia. }
  unfold fexp, emin, prec, emax. rewrite Z.max_l by lia. rewrite Z.min_l by lia.
  replace (0 - 0 - (d1 + 0 - (d2 + 0) - 53)) with (53 + d2 - d1) by lia.
  destruct (53 + d2 - d1) as [|s|s] eqn:Hs; try lia.
  rewrite Z.shiftl_mul_pow2 by lia.
  destruct (Z.div_eucl (Z.pos pa * 2 ^ Z.pos s) (Z.pos pb)) as [q r] eqn:Hdiv.
  assert (q = Z.pos pa * 2 ^ Z.pos s / Z.pos pb) as Hq
    by (unfold Z.div; rewrite Hdiv; reflexivity).
  assert (2 ^ (d1 - 1) * 2 ^ Z.pos s = 2 ^ 53 * 2 ^ (d2 - 1)) as E1.
  { rewrite <- !Z.pow_add_r by lia. f_equal. lia. }
  assert (2 ^ d1 = 2 * 2 ^ (d1 - 1)) as E2.
  { rewrite <- Z.pow_succ_r by lia. f_equal. lia. }
  assert (2 ^ d2 = 2 * 2 ^ (d2 - 1)) as E3.
  { rewrite <- Z.pow_succ_r by lia. f_equal. lia. }
  assert (0 < 2 ^ Z.pos s) by (apply Z.pow_pos_nonneg; lia).
  assert (0 < 2 ^ (d2 - 1)) by (apply Z.pow_pos_nonneg; lia).
  assert (0 < 2 ^ (d1 - 1)) by (apply Z.pow_pos_nonneg; lia).
  change (2 ^ 53) with 9007199254740992 in E1.
  assert (4503599627370496 <= q < 18014398509481984) as Hqb.
  { subst q. split.
    - apply Z.div_le_lower_bound; [lia|]. nia.
    - apply Z.div_lt_upper_bound; [lia|]. nia. }
  assert (q < 2 ^ Z.pos s) as Hq1.
  { subst q. apply Z.div_lt_upper_bound; [lia|]. nia. }
  assert (2 * Z.pos pa <= Z.pos pb -> 2 * q <= 2 ^ Z.pos s) as Hq2.
  { intros Hh. subst q.
    assert (Z.pos pa * 2 ^ Z.pos s / Z.pos pb <= 2 ^ Z.pos s / 2); [|
      pose proof (Z.mul_div_le (2 ^ Z.pos s) 2 ltac:(lia)); lia].
    apply Z.div_le_upper_bound; [lia|].
    pose proof (Z.mul_div_le (2 ^ Z.pos s) 2 ltac:(lia)).
    assert (2 ^ Z.pos s = 2 * (2 ^ Z.pos s / 2)) as E4.
    { replace (Z.pos s) with (Z.succ (Z.pos s - 1)) at 1 2 by lia.
      rewrite Z.pow_succ_r by lia. rewrite (Z.mul_comm 2), Z.div_mul by lia. lia. }
    nia. }
  destruct (binary_round_aux_shape q (d1 + 0 - (d2 + 0) - 53)
              (new_location (Z.pos pb) r) Hqb)
    as (m & e & Hr & Hm & Hshape); [lia|].
  unfold prec, emax in Hr. rewrite Hr.
  assert (Z.pos s = 53 -> 2 ^ Z.pos s = 9007199254740992) as P53
    by (intros ->; reflexivity).
  assert (Z.pos s = 54 -> 2 ^ Z.pos s = 18014398509481984) as P54
    by (intros ->; reflexivity).
  destruct (decide (e <= -53)) as [Hle|Hgt].
  - right. exists m, e. split; [reflexivity|]. lia.
  - left. assert (e = -52 /\ Z.pos m = 4503599627370496) as [-> Hm52].
    { destruct (decide (Z.pos s = 53)) as [E53|N53]; [specialize (P53 E53); lia|].
      destruct (decide (Z.pos s = 54)) as [E54|N54]; [specialize (P54 E54); lia|].
      lia. }
    assert (m = 4503599627370496%positive) as -> by lia.
    split; [reflexivity|].
    destruct (Z_lt_le_dec (Z.pos pb) (2 * Z.pos pa)) as [|Hh]; [assumption|].
    specialize (Hhalf Hh). specialize (Hq2 Hh).
    destruct (decide (Z.pos s = 54)) as [E54|N54]; [specialize (P54 E54); lia|].
    lia.
Qed.

Lemma below_one m e : e <= -53 -> SFltb (S754_finite false m e) f_one = true.
Proof.
  intros He. unfold SFltb, f_one. rewrite SFcompare_finite.
  destruct (Z.compare_spec e (-52)); [lia | reflexivity | lia].
Qed.

Local Close Scope Z_scope.

(** ** The pattern counts *)

Lemma pattern_count_snoc guess C w r :
  pattern_count guess (C ++ [w]) r
  = (pattern_count guess C r + if decide (_feedback guess w = r) then 1 else 0)%Z.
Proof.
  unfold pattern_count. rewrite filter_app, length_app, filter_cons, filter_nil.
  destruct (decide (_feedback guess w = r)); simpl; lia.
Qed.

Lemma pattern_count_bounds guess C r :
  (0 <= pattern_count guess C r <= Z.of_nat (length C))%Z.
Proof.
  unfold pattern_count. pose proof (length_filter (fun w => _feedback guess w = r) C).
  lia.
Qed.

Lemma pattern_count_elem guess C w :
  w ∈ C -> (1 <= pattern_count guess C (_feedback guess w))%Z.
Proof.
  intros Hw. unfold pattern_count.
  assert (w ∈ filter (fun w' => _feedback guess w' = _feedback guess w) C) as Hin
    by (apply list_elem_of_filter; auto).
  destruct (filter _ C); [inversion Hin | simpl; lia].
Qed.

Lemma pattern_count_witness guess C r :
  pattern_count guess C r <> 0%Z -> exists w, w ∈ C /\ _feedback guess w = r.
Proof.
  unfold pattern_count. intros Hc.
  destruct (filter (fun w => _feedback guess w = r) C) as [|w l] eqn:E;
    [simpl in Hc; lia|].
  assert (w ∈ filter (fun w => _feedback guess w = r) C) as Hin by (rewrite E; left).
  apply list_elem_of_filter in Hin as [? ?]. eauto.
Qed.

(** Two different patterns share the candidates between them. *)
Lemma pattern_count_disjoint guess C r r' :
  r <> r' ->
  (pattern_count guess C r + pattern_count guess C r' <= Z.of_nat (length C))%Z.
Proof.
  intros Hne. unfold pattern_count. induction C as [|w C IH]; [simpl; lia|].
  rewrite !filter_cons.
  destruct (decide (_feedback guess w = r)), (decide (_feedback guess w = r'));
    simpl length; try lia. congruence.
Qed.

Section DictKeys.
Context {K V : Type} `{EqDecision K}.
Implicit Types (d : list (K * V)) (k : K) (v : V).

Lemma dict_set_keys d k v x :
  x ∈ (dict_set d k v).*1 -> x = k \/ x ∈ d.*1.
Proof.
  induction d as [|[k' v'] d IH]; cbn [dict_set].
  - intros Hx. apply list_elem_of_singleton in Hx. auto.
  - destruct (decide (k' = k)) as [->|Hne]; cbn [fmap list_fmap fst]; [auto|].
    intros Hx. apply elem_of_cons in Hx as [->|Hx]; [right; left|].
    destruct (IH Hx); [auto | right; right; assumption].
Qed.

Lemma dict_set_NoDup d k v : NoDup d.*1 -> NoDup (dict_set d k v).*1.
Proof.
  induction d as [|[k' v'] d IH]; cbn [dict_set]; intros Hd.
  - apply NoDup_singleton.
  - cbn [fmap list_fmap fst] in Hd. apply NoDup_cons in Hd as [Hk' Hd].
    destruct (decide (k' = k)) as [->|Hne]; cbn [fmap list_fmap fst].
    + apply NoDup_cons. auto.
    + apply NoDup_cons. split; [|auto].
      intros Hx. apply dict_set_keys in Hx as [?|?]; auto.
Qed.

(** With keys that are all different, the entries are what [get] finds. *)
Lemma dict_entry_get d k v : NoDup d.*1 -> (k, v) ∈ d -> dict_get d k = Some v.
Proof.
  induction d as [|[k' v'] d IH]; intros Hd Hin; [inversion Hin|].
  cbn [fmap list_fmap fst] in Hd. apply NoDup_cons in Hd as [Hk' Hd].
  cbn [dict_get]. apply elem_of_cons in Hin as [E|Hin].
  - injection E as -> ->. rewrite decide_True by reflexivity. reflexivity.
  - destruct (decide (k' = k)) as [->|Hne]; [|auto].
    exfalso. apply Hk'. apply list_elem_of_fmap. exists (k, v). auto.
Qed.
End DictKeys.

(** The dict of pattern counts that [calculate_entropy] builds holds, for
    every pattern that occurs, the number of candidates giving it. *)
Lemma pattern_counts_exact guess C :
  five_letter guess -> Forall five_letter C ->
  exists d : list (string * Z),
    for_each
      (fun word pattern_counts =>
         pattern ← _feedback guess word;
         Ok (dict_set pattern_counts pattern
               (default 0%Z (dict_get pattern_counts pattern) + 1)%Z))
      C [] = Ok d /\
    NoDup d.*1 /\
    forall fb, dict_get d fb =
               if decide (pattern_count guess C (Ok fb) = 0%Z) then None
               else Some (pattern_count guess C (Ok fb)).
Proof.
  intros Hg. induction C as [|w C IH] using rev_ind; intros H5.
  - exists []. split; [reflexivity|]. split; [constructor|]. intros fb. reflexivity.
  - apply Forall_app in H5 as [H5 Hw]. rewrite Forall_singleton in Hw.
    destruct (IH H5) as (d & Hd & Hnd & Hget).
    destruct (feedback_five guess w Hg Hw) as [fbw Hfw].
    rewrite for_each_snoc, Hd. cbn [mbind result_bind]. rewrite Hfw.
    cbn [mbind result_bind]. eexists. split; [reflexivity|].
    split; [apply dict_set_NoDup; assumption|].
    intros fb. rewrite pattern_count_snoc, Hfw.
    pose proof (pattern_count_bounds guess C (Ok fb)) as Hb.
    destruct (decide (fb = fbw)) as [->|Hne].
    + rewrite dict_get_set_eq, Hget.
      rewrite (decide_True (P := Ok fbw = Ok fbw)) by reflexivity.
      rewrite (decide_False (P := (_ + 1)%Z = 0%Z)) by lia. f_equal.
      destruct (decide (pattern_count guess C (Ok fbw) = 0%Z)) as [E|E];
        [rewrite E|]; reflexivity.
    + rewrite dict_get_set_ne, Hget by assumption.
      rewrite (decide_False (P := Ok fbw = Ok fb)) by congruence.
      rewrite Z.add_0_r. reflexivity.
Qed.

Lemma dict_get_entry {K V} `{EqDecision K} (d : list (K * V)) k v :
  dict_get d k = Some v -> (k, v) ∈ d.
Proof.
  induction d as [|[k' v'] d IH]; cbn [dict_get]; [discriminate|].
  destruct (decide (k' = k)) as [->|Hne].
  - intros E. injection E as ->. left.
  - intros E. right. auto.
Qed.

Lemma pattern_count_all guess C r :
  (forall w, w ∈ C -> _feedback guess w = r) ->
  pattern_count guess C r = Z.of_nat (length C).
Proof.
  intros Hall. unfold pattern_count. f_equal. f_equal.
  induction C as [|w C IH]; [reflexivity|].
  rewrite filter_cons, decide_True by (apply Hall; left).
  f_equal. apply IH. intros w' Hw'. apply Hall. right. assumption.
Qed.

(** ** The sum of the entropy *)

(** One turn of the loop over the counts: a probability of [1.0] leaves
    the entropy as it is, a smaller one makes it positive. *)
Lemma entropy_step (log2 : float -> float) c total e :
  (1 <= c <= total)%Z -> (total < 9223372036854775808)%Z ->
  log2_accurate_at log2 (ratio c total) -> e = f_zero \/ fpos e ->
  exists e',
    (p ← int_truediv c total; l ← math_log2 log2 p; Ok (fsub e (fmul p l)))
    = Ok e' /\
    (e' = e \/ fpos e') /\ ((2 * c <= total)%Z -> fpos e').
Proof.
  intros Hc Ht [Hone Hless] He.
  destruct (int_truediv_ratio c total) as (-> & _ & Hpos); [lia..|].
  cbn [mbind result_bind]. unfold math_log2. rewrite Hpos by lia.
  cbn [mbind result_bind]. eexists. split; [reflexivity|].
  assert (ratio c total = f_one ->
          fsub e (fmul (ratio c total) (log2 (ratio c total))) = e) as Hsame.
  { intros E. specialize (Hone E). rewrite E in *.
    destruct (fmul_one_zero _ Hone) as [s ->]. apply fsub_zero. assumption. }
  destruct (decide (c = total)) as [->|Hne].
  - split; [left; apply Hsame, ratio_self; lia | lia].
  - destruct (ratio_shape c total) as [[E Hhalf]|(m & ep & E & Hep)]; [lia..| |].
    + split; [left; apply Hsame, E | lia].
    + assert (fpos (fsub e (fmul (ratio c total) (log2 (ratio c total))))) as Hp.
      { apply fsub_pos; [assumption|]. rewrite E in *.
        apply fmul_neg; [lia|]. apply Hless, below_one. lia. }
      split; [right; exact Hp | intros _; exact Hp].
Qed.

Lemma entropy_sum_spec (log2 : float -> float) total counts : forall e,
  (total < 9223372036854775808)%Z ->
  Forall (fun c => (1 <= c <= total)%Z /\ log2_accurate_at log2 (ratio c total))
         counts ->
  e = f_zero \/ fpos e ->
  exists e',
    for_each
      (fun count entropy =>
         p ← int_truediv count total;
         l ← math_log2 log2 p;
         Ok (fsub entropy (fmul p l)))
      counts e = Ok e' /\
    (e' = f_zero \/ fpos e') /\
    (fpos e -> fpos e') /\
    (Exists (fun c => (2 * c <= total)%Z) counts -> fpos e').
Proof.
  induction counts as [|c counts IH]; intros e Ht Hcs He.
  - exists e. split; [reflexivity|]. split; [assumption|]. split; [auto|].
    intros Hex. inversion Hex.
  - apply Forall_cons in Hcs as [[Hc Hacc] Hcs]. cbn [for_each].
    destruct (entropy_step log2 c total e Hc Ht Hacc He) as (e1 & -> & Hcl & Hhalf).
    cbn [mbind result_bind].
    assert (e1 = f_zero \/ fpos e1) as He1.
    { destruct Hcl as [->|Hp]; [assumption | right; assumption]. }
    destruct (IH e1 Ht Hcs He1) as (e' & -> & Hcl' & Hkeep & Hex).
    exists e'. split; [reflexivity|]. split; [assumption|]. split.
    + intros Hp. apply Hkeep. destruct Hcl as [->|?]; assumption.
    + intros Hx. apply Exists_cons in Hx as [Hx|Hx]; auto.
Qed.

(** C6: for a five-letter guess and a non-empty list of five-letter
    candidates, the entropy that [calculate_entropy] sums up in binary64
    arithmetic is a float that is not negative (and not NaN); it is [0.0]
    exactly when every candidate gives the same pattern against the
    guess, and greater than [0.0] otherwise. [log2] is the platform's: it
    is asked to give zero at [1.0] and at most [-2^-53] at the
    probabilities below [1.0] that the partition has. *)
Theorem calculate_entropy_nonneg_zero_iff (log2 : float -> float)
    (guess : string) (C : list string) :
  five_letter guess -> Forall five_letter C -> C <> [] -> list_fits C ->
  (forall w, w ∈ C -> log2_accurate_at log2 (pattern_share guess C w)) ->
  exists h,
    calculate_entropy log2 guess C = Ok h /\
    SFleb f_zero h = true /\
    (h = f_zero <->
     forall w w', w ∈ C -> w' ∈ C -> _feedback guess w = _feedback guess w') /\
    (h <> f_zero -> SFltb f_zero h = true).
Proof.
  intros Hg H5 Hne Hfit Hlog.
  destruct (pattern_counts_exact guess C Hg H5) as (d & Hd & Hnd & Hget).
  set (total := Z.of_nat (length C)).
  assert (forall fb, pattern_count guess C (Ok fb) <> 0%Z ->
                     pattern_count guess C (Ok fb) ∈ d.*2) as Hval.
  { intros fb Hc. apply list_elem_of_fmap. exists (fb, pattern_count guess C (Ok fb)).
    split; [reflexivity|]. apply dict_get_entry. rewrite Hget.
    rewrite decide_False by assumption. reflexivity. }
  assert (Forall (fun c => (1 <= c <= total)%Z /\
                           log2_accurate_at log2 (ratio c total)) d.*2) as Hcs.
  { rewrite Forall_forall. intros c Hc.
    apply list_elem_of_fmap in Hc as ([fb c'] & -> & Hin). cbn [snd].
    apply (dict_entry_get _ _ _ Hnd) in Hin. rewrite Hget in Hin.
    destruct (decide (pattern_count guess C (Ok fb) = 0%Z)) as [|Hnz];
      [discriminate|]. injection Hin as <-.
    pose proof (pattern_count_bounds guess C (Ok fb)).
    split; [fold total in H; lia|].
    destruct (pattern_count_witness guess C (Ok fb) Hnz) as (w & Hw & Hfw).
    specialize (Hlog w Hw). unfold pattern_share in Hlog.
    rewrite Hfw in Hlog. exact Hlog. }
  destruct (entropy_sum_spec log2 total d.*2 f_zero Hfit Hcs ltac:(left; reflexivity))
    as (h & Hsum & Hcl & _ & Hex).
  assert (calculate_entropy log2 guess C = Ok h) as Hrun.
  { unfold calculate_entropy. rewrite Hd. cbn [mbind result_bind]. exact Hsum. }
  exists h. split; [exact Hrun|]. split.
  { destruct Hcl as [->|Hp]; [reflexivity|].
    destruct h as [?|[]| |[] m e]; try contradiction; reflexivity. }
  split.
  2:{ intros Hnz. destruct Hcl as [->|Hp]; [congruence|].
      destruct h as [?|[]| |[] m e]; try contradiction; reflexivity. }
  assert (exists w0, w0 ∈ C) as [w0 Hw0]
    by (destruct C as [|w0 C0]; [congruence | exists w0; left]).
  assert (1 <= total)%Z as Hpos
    by (unfold total; destruct C; [inversion Hw0 | simpl length; lia]).
  rewrite Forall_forall in H5.
  destruct (feedback_five guess w0 Hg (H5 w0 Hw0)) as [fb0 Hf0].
  split.
  - intros Hz.
    assert (forall w, w ∈ C -> _feedback guess w = Ok fb0) as Hall.
    { intros w Hw. destruct (feedback_five guess w Hg (H5 w Hw)) as [fb Hf].
      destruct (decide (fb = fb0)) as [->|Hdiff]; [assumption|]. exfalso.
      pose proof (pattern_count_elem guess C w Hw) as H1.
      pose proof (pattern_count_elem guess C w0 Hw0) as H0.
      rewrite Hf in H1. rewrite Hf0 in H0.
      pose proof (pattern_count_disjoint guess C (Ok fb) (Ok fb0)
                    ltac:(congruence)) as Hsplit.
      fold total in Hsplit.
      assert (fpos h) as Hp.
      { apply Hex. apply Exists_exists.
        destruct (Z_le_gt_dec (pattern_count guess C (Ok fb))
                              (pattern_count guess C (Ok fb0))).
        - exists (pattern_count guess C (Ok fb)). split; [apply Hval; lia | lia].
        - exists (pattern_count guess C (Ok fb0)). split; [apply Hval; lia | lia]. }
      rewrite Hz in Hp. exact Hp. }
    intros w w' Hw Hw'. rewrite (Hall w Hw), (Hall w' Hw'). reflexivity.
  - intros Hsame.
    assert (forall w, w ∈ C -> _feedback guess w = Ok fb0) as Hall.
    { intros w Hw. rewrite <- Hf0. apply Hsame; assumption. }
    rewrite (calculate_entropy_same_pattern log2 guess fb0 C Hne Hfit Hall) in Hrun.
    assert (h = fsub f_zero (fmul f_one (log2 f_one))) as -> by congruence.
    specialize (Hlog w0 Hw0). unfold pattern_share in Hlog.
    rewrite Hf0, (pattern_count_all guess C (Ok fb0) Hall) in Hlog.
    rewrite ratio_self in Hlog by (split; [exact Hpos | exact Hfit]).
    destruct Hlog as [Hone _]. specialize (Hone eq_refl).
    destruct (fmul_one_zero _ Hone) as [s ->]. apply fsub_zero. left. reflexivity.
Qed.

Lemma calculate_entropy_nonneg_zero_iff_witness :
  exists h,
    calculate_entropy log2_trunc "ABCDE" ["ABCDE"; "FGHIJ"] = Ok h /\
    SFleb f_zero h = true /\
    (h = f_zero <->
     forall w w', w ∈ ["ABCDE"; "FGHIJ"] -> w' ∈ ["ABCDE"; "FGHIJ"] ->
                  _feedback "ABCDE" w = _feedback "ABCDE" w') /\
    (h <> f_zero -> SFltb f_zero h = true).
Proof.
  apply (calculate_entropy_nonneg_zero_iff log2_trunc "ABCDE" ["ABCDE"; "FGHIJ"]);
    [reflexivity | repeat constructor | discriminate | reflexivity |].
  intros w Hw.
  repeat (apply elem_of_cons in Hw as [->|Hw];
          [split; [intros H; discriminate H | intros _; vm_compute; reflexivity]|]).
  inversion Hw.
Defined.

(** The bound on [log2] cannot be left out: with a [log2] that is
    negative below [1.0] but as small as a float can be, the products
    underflow to zero and the entropy of two different patterns is [0.0]. *)
Example entropy_underflow :
  calculate_entropy log2_faint "ABCDE" ["ABCDE"; "FGHIJ"] = Ok f_zero /\
  _feedback "ABCDE" "ABCDE" <> _feedback "ABCDE" "FGHIJ".
Proof. split; [vm_compute; reflexivity | discriminate]. Qed.

(** ** What a session returns and what its last line shows *)

(** C4, as stated, fails: a solved run and a run that exhausts the
    candidates return the very same value. *)
Lemma solve_wordle_same_result_solved_or_exhausted :
  "ABCDE" ∈ ["ABCDE"] /\ ("FGHIJ" ∉ ["ABCDE"]) /\
  solve_wordle log2_trunc 5 ["ABCDE"] "ABCDE" = Some (Ok ["ABCDE"]) /\
  solve_wordle log2_trunc 5 ["ABCDE"] "FGHIJ" = Some (Ok ["ABCDE"]).
Proof.
  split; [left|]. split.
  - intros H. apply list_elem_of_singleton in H. discriminate H.
  - split; vm_compute; reflexivity.
Qed.

(** C4, as the code has it: on a non-empty list of five-letter
    candidates [solve_wordle] ends and returns the plain list of the
    guesses made, all of them candidates, whether the answer was found or
    the candidates ran out; no failure outcome is part of the value. The
    two cases differ in the last guess and in the last line printed. When
    the answer is not a candidate, no candidate remains, the answer is not
    among the guesses, the last guess is not the answer, and the last
    line shows a pattern other than ["GGGGG"] with 0 candidates remaining.
    When the answer is a candidate, the last guess is the answer and the
    last line shows ["GGGGG"] with at least one candidate remaining. *)
Theorem solve_wordle_returns_guesses_only (log2 : float -> float)
    (C : list string) (a : string) :
  Forall five_letter C -> list_fits C -> five_letter a -> C <> [] ->
  exists st l,
    (forall fuel, length C <= fuel ->
       run_wordle log2 fuel C a = Some (Ok st) /\
       solve_wordle log2 fuel C a = Some (Ok (attempts st))) /\
    attempts st <> [] /\ Forall (fun g => g ∈ C) (attempts st) /\
    last (printed st) = Some l /\ last (attempts st) = Some (line_guess l) /\
    line_remaining l = length (remaining st) /\
    (a ∉ C ->
     remaining st = [] /\ (a ∉ attempts st) /\ line_guess l <> a /\
     line_feedback l <> "GGGGG" /\ line_remaining l = 0) /\
    (a ∈ C ->
     line_guess l = a /\ line_feedback l = "GGGGG" /\ 1 <= line_remaining l).
Proof.
  intros H5 Hfit Ha Hne.
  destruct (run_wordle_terminates log2 C a Ha Hne H5 Hfit) as (st & Hrun & Hout).
  pose proof (while_true_reaches log2 a _ _ _ (Hrun (length C) ltac:(lia))) as Hreach.
  destruct (loop_turns_transcript log2 a C _ _ Hreach (initial_transcript a C))
    as (_ & _ & Hg & _ & Hfb & Hrem).
  destruct Hout as (na & nl & E1 & _ & Hna & _ & Hall & _ & _ & _ & Hyes & Hno).
  simpl in E1, Hall, Hyes, Hno. subst na.
  destruct (last (printed st)) as [l|] eqn:El.
  2:{ apply last_None in El. rewrite El in Hg. simpl in Hg. congruence. }
  pose proof El as Hsnoc. apply last_Some in Hsnoc as [ls Hls].
  assert (last (attempts st) = Some (line_guess l)) as Hlast.
  { rewrite <- Hg, fmap_last, El. reflexivity. }
  assert (line_remaining l = length (remaining st)) as Hcount.
  { rewrite Hls, fmap_app in Hrem. cbn [fmap list_fmap] in Hrem.
    rewrite app_comm_cons, last_snoc in Hrem. congruence. }
  assert (_feedback (line_guess l) a = Ok (line_feedback l)) as Hfl.
  { rewrite Forall_forall in Hfb. apply Hfb. eapply last_Some_elem_of. eassumption. }
  assert (line_guess l ∈ attempts st) as Hin.
  { eapply last_Some_elem_of. eassumption. }
  exists st, l. split.
  { intros fuel Hfuel. split; [auto|]. apply solve_wordle_run. auto. }
  do 5 (split; [assumption|]). rewrite Forall_forall in Hall, H5. split.
  - intros Hnin. specialize (Hno Hnin).
    assert (a ∉ attempts st) as Hout by (intros Hin'; auto).
    assert (line_guess l <> a) as Hdiff by (intros E; apply Hout; rewrite <- E; exact Hin).
    split; [assumption|]. split; [assumption|]. split; [assumption|]. split.
    + intros E. rewrite E in Hfl. apply Hdiff.
      apply feedback_all_green_eq; auto.
    + rewrite Hcount, Hno. reflexivity.
  - intros HaC. destruct (Hyes HaC) as [Hla Hrema].
    assert (line_guess l = a) as E by congruence.
    split; [assumption|]. split.
    + rewrite E, (feedback_self a Ha) in Hfl. congruence.
    + rewrite Hcount. destruct (remaining st); [inversion Hrema | simpl; lia].
Qed.

Lemma solve_wordle_returns_guesses_only_witness :
  exists st l,
    (forall fuel, length ["CRANE"; "SLATE"; "TRACE"] <= fuel ->
       run_wordle log2_trunc fuel ["CRANE"; "SLATE"; "TRACE"] "GRATE"
         = Some (Ok st) /\
       solve_wordle log2_trunc fuel ["CRANE"; "SLATE"; "TRACE"] "GRATE"
         = Some (Ok (attempts st))) /\
    attempts st <> [] /\
    Forall (fun g => g ∈ ["CRANE"; "SLATE"; "TRACE"]) (attempts st) /\
    last (printed st) = Some l /\ last (attempts st) = Some (line_guess l) /\
    line_remaining l = length (remaining st) /\
    ("GRATE" ∉ ["CRANE"; "SLATE"; "TRACE"] ->
     remaining st = [] /\ ("GRATE" ∉ attempts st) /\ line_guess l <> "GRATE" /\
     line_feedback l <> "GGGGG" /\ line_remaining l = 0) /\
    ("GRATE" ∈ ["CRANE"; "SLATE"; "TRACE"] ->
     line_guess l = "GRATE" /\ line_feedback l = "GGGGG" /\ 1 <= line_remaining l).
Proof.
  apply (solve_wordle_returns_guesses_only log2_trunc
           ["CRANE"; "SLATE"; "TRACE"] "GRATE");
    [repeat constructor | reflexivity | reflexivity | discriminate].
Defined.
